(** * Trove: reference counting and autorelease pools

    A shallow embedding of [src/trove.c] and [src/trove.h]: the object
    header, the retain/release primitives, the single-slot autorelease
    pool and the sample [TroveString] type, over an explicit C heap. *)

From Stdlib Require Import ZArith String Ascii List Lia.
From stdpp Require Import base gmap list strings.

Local Open Scope Z_scope.

(** ** Machine integers

    [int ref_count] is a 32-bit two's-complement integer; [size_t count]
    and [size_t capacity] are 64-bit unsigned integers (LP64).  Values are
    kept in [Z] and every arithmetic operation of the source is followed by
    the wrap-around of its type. *)

Definition INT_MAX : Z := 2147483647.
Definition INT_MIN : Z := -2147483648.

Definition wrap_int (z : Z) : Z := (z + 2147483648) mod 4294967296 - 2147483648.

Definition SIZE_MAX : Z := 18446744073709551615.
Definition PTRDIFF_MAX : Z := 9223372036854775807.

Definition wrap_size (z : Z) : Z := z mod 18446744073709551616.

Definition sizeof_pointer : Z := 8.
Definition sizeof_AutoreleasePool : Z := 24.
Definition sizeof_TroveString : Z := 24.

(** ** Pointers and the objects they point to *)

Inductive ptr : Type :=
| NULL
| Addr (a : positive).

#[global] Instance ptr_eq_dec : EqDecision ptr.
Proof. solve_decision. Defined.

(** The value of a [dealloc] field (a pointer to a function taking the
    object) that is not null: the address of [TroveString_dealloc], or of a
    destructor that a client type of the library defines. *)
Inductive fnptr : Type :=
| TroveString_dealloc_fn
| client_dealloc_fn (id : N).

#[global] Instance fnptr_eq_dec : EqDecision fnptr.
Proof. solve_decision. Defined.

(** [struct ARCObject]; a null [dealloc] is [None]. *)
Record ARCObject : Type := mkARCObject {
  ref_count : Z;
  dealloc : option fnptr
}.

(** [struct AutoreleasePool]. *)
Record AutoreleasePool : Type := mkAutoreleasePool {
  objects : ptr;
  count : Z;
  capacity : Z
}.

(** [struct TroveString]: the header first, then the text pointer. *)
Record TroveString : Type := mkTroveString {
  base : ARCObject;
  str : ptr
}.

(** One allocated block.  A cell of an [ARCObject **] array is [None] while
    its content is indeterminate (fresh from [malloc] or [realloc]). *)
Inductive block : Type :=
| BObject (o : ARCObject)
| BString (t : TroveString)
| BPool (p : AutoreleasePool)
| BArray (cells : list (option ptr))
| BChars (s : string).

(** ** Program state

    [trace] records what an observer of the process sees, oldest event
    first: a line written to [stderr], a call of [arc_release] (recorded on
    entry, with its argument) and an indirect call through a [dealloc]
    field.  [alloc_budget] is the number of allocation requests that the
    allocator will still grant: every failed allocation of the source ends
    in [exit(1)], so "the first [n] requests succeed" covers every run. *)

Inductive event : Type :=
| EvStderr (msg : string)
| EvRelease (obj : ptr)
| EvDealloc (f : fnptr) (a : positive).

Record State : Type := mkState {
  heap : gmap positive block;
  current_autorelease_pool : ptr;
  trace : list event;
  alloc_budget : nat
}.

Definition set_heap (h : gmap positive block) (s : State) : State :=
  mkState h (current_autorelease_pool s) (trace s) (alloc_budget s).

Definition set_current (p : ptr) (s : State) : State :=
  mkState (heap s) p (trace s) (alloc_budget s).

Definition add_event (e : event) (s : State) : State :=
  mkState (heap s) (current_autorelease_pool s) (trace s ++ [e]) (alloc_budget s).

(** ** Outcomes and the monad of C statements

    A statement run in a state returns normally, leaves the process through
    [exit], or has undefined behaviour ([Fault]: an access through a
    dangling or mistyped pointer, a read of an indeterminate cell, an
    out-of-bounds index). *)

Inductive outcome (A : Type) : Type :=
| Ret (a : A) (s : State)
| Exit (code : Z) (s : State)
| Fault.

Arguments Ret {A} a s.
Arguments Exit {A} code s.
Arguments Fault {A}.

Definition M (A : Type) : Type := State -> outcome A.

Definition ret {A} (a : A) : M A := fun s => Ret a s.

Definition bind {A B} (m : M A) (k : A -> M B) : M B := fun s =>
  match m s with
  | Ret a s' => k a s'
  | Exit c s' => Exit c s'
  | Fault => Fault
  end.

#[global] Instance M_ret : MRet M := @ret.
#[global] Instance M_bind : MBind M := fun A B k m => bind m k.

Definition fault {A} : M A := fun _ => Fault.
Definition exit {A} (code : Z) : M A := fun s => Exit code s.
Definition get_state : M State := fun s => Ret s s.
Definition modify (f : State -> State) : M unit := fun s => Ret tt (f s).
Definition log_event (e : event) : M unit := modify (add_event e).

Definition newline : string := String (ascii_of_nat 10) EmptyString.

(** [fprintf(stderr, msg "\n")]. *)
Definition fprintf_stderr (msg : string) : M unit :=
  log_event (EvStderr (msg ++ newline)%string).

(** ** The allocator ([malloc], [realloc], [strdup], [free]) *)

Definition fresh_addr (s : State) : positive := fresh (dom (heap s)).

(** [malloc(size)]: [shape] is the block the caller is about to lay out in
    the new storage.  The request fails (null) when the budget is used up or
    the size exceeds [PTRDIFF_MAX]. *)
Definition malloc (size : Z) (shape : block) : M ptr := fun s =>
  match alloc_budget s with
  | O => Ret NULL s
  | S n =>
      if size <=? PTRDIFF_MAX then
        let a := fresh_addr s in
        Ret (Addr a)
            (mkState (<[a := shape]> (heap s)) (current_autorelease_pool s)
                     (trace s) n)
      else Ret NULL s
  end.

(** [free(p)]: nothing on null; undefined on a pointer that is not live. *)
Definition free (p : ptr) : M unit := fun s =>
  match p with
  | NULL => Ret tt s
  | Addr a =>
      match heap s !! a with
      | Some _ => Ret tt (set_heap (delete a (heap s)) s)
      | None => Fault
      end
  end.

(** Number of [ARCObject *] cells in [size] bytes. *)
Definition cells_of_size (size : Z) : nat := Z.to_nat (size / sizeof_pointer).

Definition fresh_cells (size : Z) : list (option ptr) :=
  replicate (cells_of_size size) None.

(** The first cells of the old array, then indeterminate ones. *)
Definition resize_cells (size : Z) (cells : list (option ptr)) : list (option ptr) :=
  take (cells_of_size size) (cells ++ fresh_cells size).

(** [realloc(p, size)] on an array of pointers.  On success the array moves
    to new storage and the old storage is freed; on failure the old array is
    left as it is and null is returned.  A request for zero bytes frees the
    array and returns null (the glibc behaviour). *)
Definition realloc (p : ptr) (size : Z) : M ptr := fun s =>
  match p with
  | NULL => malloc size (BArray (fresh_cells size)) s
  | Addr a =>
      match heap s !! a with
      | Some (BArray cells) =>
          if size =? 0 then Ret NULL (set_heap (delete a (heap s)) s)
          else
            match alloc_budget s with
            | O => Ret NULL s
            | S n =>
                if size <=? PTRDIFF_MAX then
                  let a' := fresh_addr s in
                  Ret (Addr a')
                      (mkState (<[a' := BArray (resize_cells size cells)]>
                                  (delete a (heap s)))
                               (current_autorelease_pool s) (trace s) n)
                else Ret NULL s
            end
      | _ => Fault
      end
  end.

(** The C string that starts at the first character of [s]: it ends before
    the first NUL. *)
Fixpoint c_string (s : string) : string :=
  match s with
  | EmptyString => EmptyString
  | String c r =>
      if Ascii.eqb c Ascii.zero then EmptyString else String c (c_string r)
  end.

(** [strdup(s)]. *)
Definition strdup (s : string) : M ptr :=
  malloc (Z.of_nat (String.length (c_string s)) + 1) (BChars (c_string s)).

(** ** Memory accesses *)

(** [*p] for the block [p] points to. *)
Definition deref (p : ptr) : M block := fun s =>
  match p with
  | NULL => Fault
  | Addr a =>
      match heap s !! a with
      | Some b => Ret b s
      | None => Fault
      end
  end.

Definition store (a : positive) (b : block) : M unit :=
  modify (fun s => set_heap (<[a := b]> (heap s)) s).

(** The header seen through an [ARCObject *]: every managed type has it as
    its first member. *)
Definition header_of (b : block) : option ARCObject :=
  match b with
  | BObject o => Some o
  | BString t => Some (base t)
  | _ => None
  end.

Definition with_header (o : ARCObject) (b : block) : block :=
  match b with
  | BObject _ => BObject o
  | BString t => BString (mkTroveString o (str t))
  | _ => b
  end.

Definition load_header (a : positive) : M ARCObject :=
  b ← deref (Addr a);
  match header_of b with
  | Some o => mret o
  | None => fault
  end.

Definition store_header (a : positive) (o : ARCObject) : M unit :=
  b ← deref (Addr a);
  match header_of b with
  | Some _ => store a (with_header o b)
  | None => fault
  end.

Definition load_pool (a : positive) : M AutoreleasePool :=
  b ← deref (Addr a);
  match b with
  | BPool pl => mret pl
  | _ => fault
  end.

Definition store_pool (a : positive) (pl : AutoreleasePool) : M unit :=
  _ ← load_pool a; store a (BPool pl).

Definition set_objects (a : positive) (v : ptr) : M unit :=
  pl ← load_pool a; store_pool a (mkAutoreleasePool v (count pl) (capacity pl)).

Definition set_count (a : positive) (v : Z) : M unit :=
  pl ← load_pool a; store_pool a (mkAutoreleasePool (objects pl) v (capacity pl)).

Definition set_capacity (a : positive) (v : Z) : M unit :=
  pl ← load_pool a; store_pool a (mkAutoreleasePool (objects pl) (count pl) v).

Definition load_string (p : ptr) : M TroveString :=
  b ← deref p;
  match b with
  | BString t => mret t
  | _ => fault
  end.

(** [arr[i]] as an rvalue. *)
Definition load_cell (arr : ptr) (i : Z) : M ptr :=
  b ← deref arr;
  match b with
  | BArray cells =>
      match cells !! Z.to_nat i with
      | Some (Some v) => mret v
      | _ => fault
      end
  | _ => fault
  end.

(** [arr[i] = v]. *)
Definition store_cell (arr : ptr) (i : Z) (v : ptr) : M unit :=
  b ← deref arr;
  match arr, b with
  | Addr a, BArray cells =>
      if decide (Z.to_nat i < length cells)%nat
      then store a (BArray (<[Z.to_nat i := Some v]> cells))
      else fault
  | _, _ => fault
  end.

(** ** Destructors *)

(** [TroveString_dealloc] (trove.c, 188-194). *)
Definition TroveString_dealloc (obj : ptr) : M unit :=
  str_obj ← load_string obj;
  match str str_obj with
  | NULL => mret tt
  | Addr b => free (Addr b)
  end;;
  free obj.

(** Modelled from the spec: the destructor of a client type is not part of
    the repository; by section 4.1 a destructor frees the resources the
    object owns, its own backing storage included.  A client object is a
    bare header here, so its destructor frees that storage. *)
Definition client_dealloc (id : N) (obj : ptr) : M unit :=
  free obj.

(** [obj->dealloc(obj)]: the indirect call, recorded in the trace. *)
Definition call_dealloc (f : fnptr) (a : positive) : M unit :=
  log_event (EvDealloc f a);;
  match f with
  | TroveString_dealloc_fn => TroveString_dealloc (Addr a)
  | client_dealloc_fn id => client_dealloc id (Addr a)
  end.

(** ** ARC operations *)

(** [arc_retain] (trove.c, 104-108). *)
Definition arc_retain (obj : ptr) : M unit :=
  match obj with
  | NULL => mret tt
  | Addr a =>
      hdr ← load_header a;
      store_header a (mkARCObject (wrap_int (ref_count hdr + 1)) (dealloc hdr))
  end.

(** [arc_release] (trove.c, 119-128). *)
Definition arc_release (obj : ptr) : M unit :=
  log_event (EvRelease obj);;
  match obj with
  | NULL => mret tt
  | Addr a =>
      hdr ← load_header a;
      store_header a (mkARCObject (wrap_int (ref_count hdr - 1)) (dealloc hdr));;
      hdr ← load_header a;
      if ref_count hdr <=? 0 then
        match dealloc hdr with
        | Some f => call_dealloc f a
        | None => mret tt
        end
      else mret tt
  end.

(** ** Autorelease pool management *)

(** [autorelease_pool_push] (trove.c, 28-43). *)
Definition autorelease_pool_push : M unit :=
  pool ← malloc sizeof_AutoreleasePool (BPool (mkAutoreleasePool NULL 0 0));
  match pool with
  | NULL => fprintf_stderr "Failed to allocate autorelease pool.";; exit 1
  | Addr p =>
      set_count p 0;;
      set_capacity p 16;;
      pl ← load_pool p;
      let size := wrap_size (capacity pl * sizeof_pointer) in
      arr ← malloc size (BArray (fresh_cells size));
      set_objects p arr;;
      match arr with
      | NULL =>
          fprintf_stderr "Failed to allocate autorelease pool objects.";;
          free pool;;
          exit 1
      | Addr _ => modify (set_current pool)
      end
  end.

(** The [for] loop of [autorelease_pool_pop]: [pool->count] and
    [pool->objects] are read again at every iteration.  [fuel] bounds the
    number of iterations; the pool's count at loop entry is enough, because
    nothing that runs inside the loop stores into a pool. *)
Fixpoint pop_loop (fuel : nat) (pool : positive) (i : Z) : M unit :=
  pl ← load_pool pool;
  if i <? count pl then
    match fuel with
    | O => fault
    | S fuel' =>
        obj ← load_cell (objects pl) i;
        arc_release obj;;
        pop_loop fuel' pool (wrap_size (i + 1))
    end
  else mret tt.

(** [autorelease_pool_pop] (trove.c, 52-62). *)
Definition autorelease_pool_pop : M unit :=
  s ← get_state;
  match current_autorelease_pool s with
  | NULL => mret tt
  | Addr p =>
      pl ← load_pool p;
      pop_loop (Z.to_nat (count pl)) p 0;;
      pl ← load_pool p;
      free (objects pl);;
      free (Addr p);;
      modify (set_current NULL)
  end.

(** [autorelease_add] (trove.c, 73-89). *)
Definition autorelease_add (obj : ptr) : M unit :=
  s ← get_state;
  match current_autorelease_pool s with
  | NULL => fprintf_stderr "No autorelease pool in place!"
  | Addr p =>
      pl ← load_pool p;
      (if count pl >=? capacity pl then
         set_capacity p (wrap_size (capacity pl * 2));;
         pl ← load_pool p;
         new_objects ← realloc (objects pl) (wrap_size (capacity pl * sizeof_pointer));
         match new_objects with
         | NULL =>
             fprintf_stderr "Failed to reallocate autorelease pool objects.";;
             exit 1
         | Addr _ => set_objects p new_objects
         end
       else mret tt);;
      pl ← load_pool p;
      set_count p (wrap_size (count pl + 1));;
      store_cell (objects pl) (count pl) obj
  end.

(** [arc_autorelease] (trove.c, 139-142). *)
Definition arc_autorelease (obj : ptr) : M ptr :=
  autorelease_add obj;;
  mret obj.

(** ** The sample string type *)

Definition set_string_header (a : positive) (o : ARCObject) : M unit :=
  t ← load_string (Addr a); store a (BString (mkTroveString o (str t))).

Definition set_string_str (a : positive) (v : ptr) : M unit :=
  t ← load_string (Addr a); store a (BString (mkTroveString (base t) v)).

(** [TroveString_create] (trove.c, 158-177); a null [init] is [None]. *)
Definition TroveString_create (init : option string) : M ptr :=
  str_obj ← malloc sizeof_TroveString (BString (mkTroveString (mkARCObject 0 None) NULL));
  match str_obj with
  | NULL => fprintf_stderr "Failed to allocate TroveString.";; exit 1
  | Addr a =>
      t ← load_string str_obj;
      set_string_header a (mkARCObject 1 (dealloc (base t)));;
      t ← load_string str_obj;
      set_string_header a (mkARCObject (ref_count (base t)) (Some TroveString_dealloc_fn));;
      buf ← match init with
            | Some text => strdup text
            | None => strdup EmptyString
            end;
      set_string_str a buf;;
      match buf with
      | NULL =>
          fprintf_stderr "Failed to allocate string content.";;
          free str_obj;;
          exit 1
      | Addr _ => mret str_obj
      end
  end.

(** [#define String(text)] (trove.h, 139). *)
Definition String_macro (text : option string) : M ptr :=
  obj ← TroveString_create text; arc_autorelease obj.

(** * Vocabulary of the properties *)

(** The line that [autorelease_add] writes when there is no pool. *)
Definition no_pool_message : string := "No autorelease pool in place!" ++ newline.

(** The statement [m], [n] times in a row. *)
Fixpoint repeat_m (n : nat) (m : M unit) : M unit :=
  match n with
  | O => mret tt
  | S k => m;; repeat_m k m
  end.

(** The values of [int]. *)
Definition in_int_range (z : Z) : Prop := INT_MIN <= z <= INT_MAX.

(** What [TroveString_dealloc] and the client destructors need of the
    object they are called on: [TroveString_dealloc] reads the [str] member
    and frees it, so the block is a [TroveString] whose [str] is null or a
    live character buffer. *)
Definition destructor_fits (h : gmap positive block) (f : fnptr) (b : block) : bool :=
  match f, b with
  | TroveString_dealloc_fn, BString t =>
      match str t with
      | NULL => true
      | Addr c => match h !! c with Some (BChars _) => true | _ => false end
      end
  | TroveString_dealloc_fn, _ => false
  | client_dealloc_fn _, _ => true
  end.

(** The heap after the destructor [f] has run on the object at [a]. *)
Definition heap_after_dealloc (h : gmap positive block) (f : fnptr) (a : positive) : gmap positive block :=
  match f, h !! a with
  | TroveString_dealloc_fn, Some (BString t) =>
      match str t with
      | NULL => delete a h
      | Addr c => delete a (delete c h)
      end
  | _, _ => delete a h
  end.

(** The state in which [arc_release] tests the decremented count. *)
Definition released_state (a : positive) (b : block) (hdr : ARCObject) (s : State) : State :=
  mkState (<[a := with_header (mkARCObject (wrap_int (ref_count hdr - 1)) (dealloc hdr)) b]> (heap s))
          (current_autorelease_pool s) (trace s ++ [EvRelease (Addr a)]) (alloc_budget s).

(** The objects on which a destructor was invoked, oldest call first. *)
Definition destroyed (evs : list event) : list positive :=
  omap (fun e => match e with EvDealloc _ a => Some a | _ => None end) evs.

(** The arguments of the calls of [arc_release], oldest call first. *)
Definition released (evs : list event) : list ptr :=
  omap (fun e => match e with EvRelease p => Some p | _ => None end) evs.

(** C3 as the specification states it, for one number [n] of retains and
    releases: on every freshly constructed object (count 1), at every point
    of the sequence (after the [n] retains and [k <= n] of the releases) no
    destructor has been called, and the whole sequence leaves the count at 1
    and the destructor field as it was. *)
Definition retain_release_balanced (n : nat) : Prop :=
  forall s a b d,
    heap s !! a = Some b -> header_of b = Some (mkARCObject 1 d) ->
    (forall k, (k <= n)%nat ->
       exists sk,
         (repeat_m n (arc_retain (Addr a));; repeat_m k (arc_release (Addr a))) s = Ret tt sk /\
         destroyed (trace sk) = destroyed (trace s)) /\
    exists s',
      (repeat_m n (arc_retain (Addr a));; repeat_m n (arc_release (Addr a))) s = Ret tt s' /\
      load_header a s' = Ret (mkARCObject 1 d) s'.

(** All cells determinate: their contents. *)
Fixpoint initialised (cells : list (option ptr)) : option (list ptr) :=
  match cells with
  | [] => Some []
  | Some v :: rest => option_map (cons v) (initialised rest)
  | None :: _ => None
  end.

(** The objects registered in the pool at [p], in registration order: the
    first [count] cells of its array ([count] is a [size_t] and does not
    exceed the number of cells). *)
Definition pool_objects (h : gmap positive block) (p : positive) : option (list ptr) :=
  match h !! p with
  | Some (BPool pl) =>
      match objects pl with
      | Addr arr =>
          match h !! arr with
          | Some (BArray cells) =>
              if decide (0 <= count pl <= Z.of_nat (length cells) /\ count pl <= SIZE_MAX)
              then initialised (take (Z.to_nat (count pl)) cells)
              else None
          | _ => None
          end
      | NULL => None
      end
  | _ => None
  end.

(** The array of the pool at [p]. *)
Definition pool_array (h : gmap positive block) (p : positive) : option positive :=
  match h !! p with
  | Some (BPool pl) => match objects pl with Addr arr => Some arr | NULL => None end
  | _ => None
  end.

(** The capacity field agrees with the array: it is its number of cells, it
    is not zero and the array fits the largest allocation. *)
Definition pool_sized (h : gmap positive block) (p : positive) : bool :=
  match h !! p with
  | Some (BPool pl) =>
      match objects pl with
      | Addr arr =>
          match h !! arr with
          | Some (BArray cells) =>
              (capacity pl =? Z.of_nat (length cells)) && (0 <? capacity pl)
              && (capacity pl * sizeof_pointer <=? PTRDIFF_MAX)
          | _ => false
          end
      | NULL => false
      end
  | _ => false
  end.

(** There is a free cell, or the allocator will grant the doubled array. *)
Definition can_register (s : State) (p : positive) : bool :=
  match heap s !! p with
  | Some (BPool pl) =>
      (count pl <? capacity pl)
      || (negb (Nat.eqb (alloc_budget s) 0)
          && (capacity pl * 2 * sizeof_pointer <=? PTRDIFF_MAX))
  | _ => false
  end.

(** [autorelease_add] on each object of [objs], first to last. *)
Fixpoint autorelease_all (objs : list ptr) : M unit :=
  match objs with
  | [] => mret tt
  | obj :: rest => autorelease_add obj;; autorelease_all rest
  end.

(** The capacity after [k] registrations in a pool of initial capacity 16:
    doubled each time a registration finds the list full. *)
Fixpoint capacity_after (k : nat) : Z :=
  match k with
  | O => 16
  | S k' =>
      let cap := capacity_after k' in
      if Z.of_nat k' >=? cap then cap * 2 else cap
  end.

(** [pool_objects h p = Some objs], with the pool structure, the array and
    its cells named. *)
Record pool_rep (h : gmap positive block) (p : positive) (objs : list ptr)
       (pl : AutoreleasePool) (arr : positive) (cells : list (option ptr)) : Prop := {
  rep_pool : h !! p = Some (BPool pl);
  rep_objects : objects pl = Addr arr;
  rep_array : h !! arr = Some (BArray cells);
  rep_count : count pl = Z.of_nat (length objs);
  rep_cells : take (length objs) cells = Some <$> objs;
  rep_size : count pl <= SIZE_MAX
}.

(** The invariant of a pool in use: it is the current pool, it holds
    [objs], and its capacity [cap] is the size of its array. *)
Definition pool_inv (s : State) (p : positive) (objs : list ptr) (cap : Z) : Prop :=
  current_autorelease_pool s = Addr p /\
  exists pl arr cells,
    pool_rep (heap s) p objs pl arr cells /\
    capacity pl = cap /\
    cap = Z.of_nat (length cells) /\
    0 < cap /\
    cap * sizeof_pointer <= PTRDIFF_MAX.

(** Two heaps that differ at most in the pool at [p] and in its array. *)
Definition same_outside_pool (h h' : gmap positive block) (p : positive) : Prop :=
  exists arr arr',
    pool_array h p = Some arr /\ pool_array h' p = Some arr' /\
    delete p (delete arr' h') = delete p (delete arr h).

(** The character buffer that the destructor of [o] will free. *)
Definition own_buffer (h : gmap positive block) (o : ptr) : option positive :=
  match o with
  | Addr a =>
      match h !! a with
      | Some (BString t) =>
          match dealloc (base t), str t with
          | Some TroveString_dealloc_fn, Addr c => Some c
          | _, _ => None
          end
      | _ => None
      end
  | NULL => None
  end.

(** An entry [o] of a list [objs] of pending releases can be released: it
    is null, or a live object which has no destructor, or whose count covers
    its registrations in [objs] (the pool owns one reference per
    registration) and which its destructor fits. *)
Definition entry_ok (h : gmap positive block) (objs : list ptr) (o : ptr) : bool :=
  match o with
  | NULL => true
  | Addr a =>
      match h !! a with
      | Some b =>
          match header_of b with
          | Some hdr =>
              match dealloc hdr with
              | None => true
              | Some f =>
                  (Z.of_nat (count_occ ptr_eq_dec objs o) <=? ref_count hdr)
                  && (ref_count hdr <=? INT_MAX)
                  && destructor_fits h f b
              end
          | None => false
          end
      | None => false
      end
  end.

(** No two distinct entries own the same character buffer. *)
Definition buffers_separate (h : gmap positive block) (objs : list ptr) : bool :=
  forallb (fun o1 =>
    forallb (fun o2 =>
      match own_buffer h o1, own_buffer h o2 with
      | Some c1, Some c2 => bool_decide (c1 <> c2 \/ o1 = o2)
      | _, _ => true
      end) objs) objs.

(** The pending releases [objs] can all be performed: no release will
    reach an object that an earlier one destroyed, and no buffer is freed
    twice. *)
Definition releasable (h : gmap positive block) (objs : list ptr) : bool :=
  forallb (entry_ok h objs) objs && buffers_separate h objs.

(** The heap after [arc_release(o)]. *)
Definition heap_after_release (h : gmap positive block) (o : ptr) : gmap positive block :=
  match o with
  | NULL => h
  | Addr a =>
      match h !! a with
      | Some b =>
          match header_of b with
          | Some hdr =>
              let h1 := <[a := with_header (mkARCObject (wrap_int (ref_count hdr - 1)) (dealloc hdr)) b]> h in
              if wrap_int (ref_count hdr - 1) <=? 0 then
                match dealloc hdr with
                | Some f => heap_after_dealloc h1 f a
                | None => h1
                end
              else h1
          | None => h
          end
      | None => h
      end
  end.

(** The events of [arc_release(o)]: the call, then the destructor call if
    the count reaches zero. *)
Definition release_events (h : gmap positive block) (o : ptr) : list event :=
  EvRelease o ::
  match o with
  | NULL => []
  | Addr a =>
      match h !! a with
      | Some b =>
          match header_of b with
          | Some hdr =>
              if wrap_int (ref_count hdr - 1) <=? 0 then
                match dealloc hdr with
                | Some f => [EvDealloc f a]
                | None => []
                end
              else []
          | None => []
          end
      | None => []
      end
  end.

(** The events of one release: the call alone, or the call and the
    destructor call on the same object. *)
Definition release_chunk (o : ptr) (evs : list event) : Prop :=
  evs = [EvRelease o] \/ exists f a, o = Addr a /\ evs = [EvRelease o; EvDealloc f a].

(** [releasable] as a proposition. *)
Definition Releasable (h : gmap positive block) (objs : list ptr) : Prop :=
  (forall x, In x objs -> entry_ok h objs x = true) /\
  (forall o1 o2 c, In o1 objs -> In o2 objs ->
     own_buffer h o1 = Some c -> own_buffer h o2 = Some c -> o1 = o2).

(** The events of the releases of [objs], in that order, from the heap
    [h]. *)
Fixpoint release_trace (h : gmap positive block) (objs : list ptr) : list event :=
  match objs with
  | [] => []
  | o :: rest => release_events h o ++ release_trace (heap_after_release h o) rest
  end.

(** A pool at address 1 (array at 2) that holds a string registered twice
    (count 2, text buffer at 4), a client object (count 1) and a null
    pointer. *)
Definition demo_pool : State :=
  mkState
    (<[1%positive := BPool (mkAutoreleasePool (Addr 2) 4 16)]>
       (<[2%positive := BArray ([Some (Addr 3); Some (Addr 5); Some NULL; Some (Addr 3)]
                                  ++ replicate 12 None)]>
          (<[3%positive := BString (mkTroveString (mkARCObject 2 (Some TroveString_dealloc_fn))
                                                  (Addr 4))]>
             (<[4%positive := BChars "A"]>
                (<[5%positive := BObject (mkARCObject 1 (Some (client_dealloc_fn 7)))]> ∅)))))
    (Addr 1) [] 4.

(** The entries of [demo_pool], in registration order. *)
Definition demo_objs : list ptr := [Addr 3; Addr 5; NULL; Addr 3].

(** A client object at address 7 and no pool; then the state after a push
    and the registration of that object and of a null pointer. *)
Definition nested_demo_start : State :=
  mkState (<[7%positive := BObject (mkARCObject 1 (Some (client_dealloc_fn 0)))]> ∅) NULL [] 6.

Definition nested_demo_outer : State :=
  match (autorelease_pool_push;; autorelease_all [Addr 7; NULL]) nested_demo_start with
  | Ret _ st => st
  | _ => nested_demo_start
  end.

(** A string with three owners. *)
Definition string_rc3 : State :=
  mkState
    (<[3%positive := BString (mkTroveString (mkARCObject 3 (Some TroveString_dealloc_fn))
                                            (Addr 4))]>
       (<[4%positive := BChars "abc"]> ∅))
    NULL [] 0.

(** Forty registrations in a pushed pool: the array grows to 32, then to 64
    cells. *)
Definition forty : list ptr := (fun n => Addr (Pos.of_nat (100 + n))) <$> seq 0 40.

Definition growth_demo_pushed : State :=
  match autorelease_pool_push (mkState ∅ NULL [] 4) with
  | Ret _ st => st
  | _ => mkState ∅ NULL [] 4
  end.

Definition growth_demo_registered : State :=
  match autorelease_all forty growth_demo_pushed with
  | Ret _ st => st
  | _ => growth_demo_pushed
  end.

(** ** The macros and the example program *)

(** [#define RETAIN(obj)] and [#define RELEASE(obj)] (macros.h, 57 and 64):
    the casts to [ARCObject *] are the identity on pointers. *)
Definition RETAIN (obj : ptr) : M unit := arc_retain obj.
Definition RELEASE (obj : ptr) : M unit := arc_release obj.

(** [#define TROVE] (macros.h, 97): a [for] statement whose initialisation
    pushes a pool and sets the flag, whose body runs once, and whose step
    pops the pool and clears the flag.  A body that leaves the process
    through [exit] is not followed by the pop. *)
Definition TROVE {A} (body : M A) : M A :=
  autorelease_pool_push;;
  r ← body;
  autorelease_pool_pop;;
  mret r.

(** [printf("%s\n", p)]: the characters at [p] are read; the trace has no
    event for [stdout], so the line written is the value of the statement. *)
Definition printf_line (p : ptr) : M string :=
  b ← deref p;
  match b with
  | BChars text => mret (text ++ newline)%string
  | _ => fault
  end.

Definition greeting_text : string := "Hello, trove ARC with TROVE macro!".

(** [main] (main.c, 21-32): the value is what was written to [stdout] and
    the exit status. *)
Definition main : M (string * Z) :=
  out ← TROVE (greeting ← String_macro (Some greeting_text);
               str_obj ← load_string greeting;
               printf_line (str str_obj));
  mret (out, 0).

(** [arc_release] on each object of [objs], first to last. *)
Fixpoint release_all (objs : list ptr) : M unit :=
  match objs with
  | [] => mret tt
  | obj :: rest => arc_release obj;; release_all rest
  end.

(** A [TROVE] block whose body registers the objects [objs]. *)
Definition scoped_block (objs : list ptr) : M unit :=
  TROVE (autorelease_all objs).

(** [String(t)] for each text of [texts], first to last: the objects
    created. *)
Fixpoint String_all (texts : list (option string)) : M (list ptr) :=
  match texts with
  | [] => mret []
  | text :: rest =>
      obj ← String_macro text;
      objs ← String_all rest;
      mret (obj :: objs)
  end.

(** The block of a [TroveString]: count 1, [TroveString_dealloc], text
    buffer at [b]. *)
Definition fresh_string (b : positive) : block :=
  BString (mkTroveString (mkARCObject 1 (Some TroveString_dealloc_fn)) (Addr b)).

(** The events of the release that destroys each object of [objs], in
    order. *)
Definition destruction_events (objs : list ptr) : list event :=
  flat_map (fun o => match o with
                     | Addr a => [EvRelease o; EvDealloc TroveString_dealloc_fn a]
                     | NULL => [EvRelease o]
                     end) objs.

(** A state whose heap is one client object at address 1, with count [r]
    and destructor field [d]. *)
Definition one_object (r : Z) (d : option fnptr) : State :=
  mkState (<[1%positive := BObject (mkARCObject r d)]> ∅) NULL [] 0.

(** A pool at address 1 whose two cells are taken, and an allocator that
    grants nothing more. *)
Definition full_pool : State :=
  mkState
    (<[1%positive := BPool (mkAutoreleasePool (Addr 2) 2 2)]>
       (<[2%positive := BArray [Some NULL; Some (Addr 7)]]> ∅))
    (Addr 1) [] 0.

(** The heap of [demo_pool] with an allocator that grants eight requests. *)
Definition demo_pool8 : State :=
  mkState (heap demo_pool) (Addr 1) [] 8.

(** A pool at address 1 in which a string with five owners is registered
    twice. *)
Definition full_owner_pool : State :=
  mkState
    (<[1%positive := BPool (mkAutoreleasePool (Addr 2) 3 4)]>
       (<[2%positive := BArray [Some (Addr 3); Some NULL; Some (Addr 3); None]]>
          (<[3%positive := BString (mkTroveString (mkARCObject 5 (Some TroveString_dealloc_fn))
                                                  (Addr 4))]>
             (<[4%positive := BChars "abc"]> ∅))))
    (Addr 1) [] 0.

(** Nothing allocated, no current pool, and an allocator that grants [n]
    requests. *)
Definition empty_state (n : nat) : State := mkState ∅ NULL [] n.

(** The texts that [String] can copy: the copy fits the allocator's limit. *)
Definition text_fits (text : option string) : Prop :=
  Z.of_nat (String.length (c_string (default EmptyString text))) < PTRDIFF_MAX.

(** A pool at address 1 in which a string with one owner is registered
    twice. *)
Definition twice_registered : State :=
  mkState
    (<[1%positive := BPool (mkAutoreleasePool (Addr 2) 2 2)]>
       (<[2%positive := BArray [Some (Addr 3); Some (Addr 3)]]>
          (<[3%positive := BString (mkTroveString (mkARCObject 1 (Some TroveString_dealloc_fn))
                                                  (Addr 4))]>
             (<[4%positive := BChars "abc"]> ∅))))
    (Addr 1) [] 0.

(** * Properties *)

(** ** Stepping through the monad *)

Lemma bind_Ret {A B} (m : M A) (k : A -> M B) s a s' :
  m s = Ret a s' -> (x ← m; k x) s = k a s'.
Proof. intros H. unfold mbind, M_bind, bind. now rewrite H. Qed.

Lemma bind_Fault {A B} (m : M A) (k : A -> M B) s :
  m s = Fault -> (x ← m; k x) s = Fault.
Proof. intros H. unfold mbind, M_bind, bind. now rewrite H. Qed.

Lemma bind_Exit {A B} (m : M A) (k : A -> M B) s c s' :
  m s = Exit c s' -> (x ← m; k x) s = Exit c s'.
Proof. intros H. unfold mbind, M_bind, bind. now rewrite H. Qed.

Lemma fresh_addr_None s : heap s !! fresh_addr s = None.
Proof. apply not_elem_of_dom. unfold fresh_addr. apply is_fresh. Qed.

Lemma malloc_Ret size shape s n :
  alloc_budget s = S n -> size <= PTRDIFF_MAX ->
  malloc size shape s =
  Ret (Addr (fresh_addr s))
      (mkState (<[fresh_addr s := shape]> (heap s)) (current_autorelease_pool s)
               (trace s) n).
Proof.
  intros Hb Hs. unfold malloc. rewrite Hb.
  destruct (Z.leb_spec size PTRDIFF_MAX); [reflexivity | lia].
Qed.

(** The primitives as equations, one per access that succeeds. *)

Lemma deref_Ret a b s :
  heap s !! a = Some b -> deref (Addr a) s = Ret b s.
Proof. intros H. unfold deref. now rewrite H. Qed.

Lemma store_Ret a b s :
  store a b s = Ret tt (set_heap (<[a := b]> (heap s)) s).
Proof. reflexivity. Qed.

Lemma free_Ret a b s :
  heap s !! a = Some b -> free (Addr a) s = Ret tt (set_heap (delete a (heap s)) s).
Proof. intros H. unfold free. now rewrite H. Qed.

Lemma free_NULL s : free NULL s = Ret tt s.
Proof. reflexivity. Qed.

Lemma load_header_Ret a b o s :
  heap s !! a = Some b -> header_of b = Some o -> load_header a s = Ret o s.
Proof.
  intros H Ho. unfold load_header.
  rewrite (bind_Ret _ _ _ _ _ (deref_Ret _ _ _ H)). now rewrite Ho.
Qed.

Lemma store_header_Ret a b o' o s :
  heap s !! a = Some b -> header_of b = Some o' ->
  store_header a o s = Ret tt (set_heap (<[a := with_header o b]> (heap s)) s).
Proof.
  intros H Ho. unfold store_header.
  rewrite (bind_Ret _ _ _ _ _ (deref_Ret _ _ _ H)). now rewrite Ho.
Qed.

Lemma load_pool_Ret a pl s :
  heap s !! a = Some (BPool pl) -> load_pool a s = Ret pl s.
Proof.
  intros H. unfold load_pool.
  now rewrite (bind_Ret _ _ _ _ _ (deref_Ret _ _ _ H)).
Qed.

Lemma store_pool_Ret a pl pl' s :
  heap s !! a = Some (BPool pl) ->
  store_pool a pl' s = Ret tt (set_heap (<[a := BPool pl']> (heap s)) s).
Proof.
  intros H. unfold store_pool.
  now rewrite (bind_Ret _ _ _ _ _ (load_pool_Ret _ _ _ H)).
Qed.

Lemma set_objects_Ret a pl v s :
  heap s !! a = Some (BPool pl) ->
  set_objects a v s =
  Ret tt (set_heap (<[a := BPool (mkAutoreleasePool v (count pl) (capacity pl))]> (heap s)) s).
Proof.
  intros H. unfold set_objects.
  rewrite (bind_Ret _ _ _ _ _ (load_pool_Ret _ _ _ H)).
  now apply store_pool_Ret with pl.
Qed.

Lemma set_count_Ret a pl v s :
  heap s !! a = Some (BPool pl) ->
  set_count a v s =
  Ret tt (set_heap (<[a := BPool (mkAutoreleasePool (objects pl) v (capacity pl))]> (heap s)) s).
Proof.
  intros H. unfold set_count.
  rewrite (bind_Ret _ _ _ _ _ (load_pool_Ret _ _ _ H)).
  now apply store_pool_Ret with pl.
Qed.

Lemma set_capacity_Ret a pl v s :
  heap s !! a = Some (BPool pl) ->
  set_capacity a v s =
  Ret tt (set_heap (<[a := BPool (mkAutoreleasePool (objects pl) (count pl) v)]> (heap s)) s).
Proof.
  intros H. unfold set_capacity.
  rewrite (bind_Ret _ _ _ _ _ (load_pool_Ret _ _ _ H)).
  now apply store_pool_Ret with pl.
Qed.

Lemma load_string_Ret a t s :
  heap s !! a = Some (BString t) -> load_string (Addr a) s = Ret t s.
Proof.
  intros H. unfold load_string.
  now rewrite (bind_Ret _ _ _ _ _ (deref_Ret _ _ _ H)).
Qed.

Lemma set_string_header_Ret a t o s :
  heap s !! a = Some (BString t) ->
  set_string_header a o s =
  Ret tt (set_heap (<[a := BString (mkTroveString o (str t))]> (heap s)) s).
Proof.
  intros H. unfold set_string_header.
  now rewrite (bind_Ret _ _ _ _ _ (load_string_Ret _ _ _ H)).
Qed.

Lemma set_string_str_Ret a t v s :
  heap s !! a = Some (BString t) ->
  set_string_str a v s =
  Ret tt (set_heap (<[a := BString (mkTroveString (base t) v)]> (heap s)) s).
Proof.
  intros H. unfold set_string_str.
  now rewrite (bind_Ret _ _ _ _ _ (load_string_Ret _ _ _ H)).
Qed.

Lemma load_cell_Ret a cells i v s :
  heap s !! a = Some (BArray cells) -> cells !! Z.to_nat i = Some (Some v) ->
  load_cell (Addr a) i s = Ret v s.
Proof.
  intros H Hc. unfold load_cell.
  rewrite (bind_Ret _ _ _ _ _ (deref_Ret _ _ _ H)). now rewrite Hc.
Qed.

Lemma store_cell_Ret a cells i v s :
  heap s !! a = Some (BArray cells) -> (Z.to_nat i < length cells)%nat ->
  store_cell (Addr a) i v s =
  Ret tt (set_heap (<[a := BArray (<[Z.to_nat i := Some v]> cells)]> (heap s)) s).
Proof.
  intros H Hi. unfold store_cell.
  rewrite (bind_Ret _ _ _ _ _ (deref_Ret _ _ _ H)).
  destruct (decide _); [reflexivity | contradiction].
Qed.

Lemma log_event_Ret e s : log_event e s = Ret tt (add_event e s).
Proof. reflexivity. Qed.

Lemma modify_Ret f s : modify f s = Ret tt (f s).
Proof. reflexivity. Qed.

Lemma get_state_Ret s : get_state s = Ret s s.
Proof. reflexivity. Qed.

Lemma mret_Ret {A} (a : A) s : (mret a : M A) s = Ret a s.
Proof. reflexivity. Qed.

(** [mstep lem] runs the first statement of the goal with the equation
    [lem]; the side conditions that remain are heap lookups. *)
Ltac heap_lookup :=
  cbn [heap set_heap set_current add_event current_autorelease_pool trace alloc_budget];
  first
    [ eassumption
    | apply lookup_insert_eq
    | rewrite lookup_insert_ne by congruence; heap_lookup ].

Ltac state_simpl :=
  cbv beta iota;
  cbn [heap set_heap set_current add_event current_autorelease_pool trace alloc_budget
       objects count capacity ref_count dealloc base str];
  rewrite ?insert_insert_eq.

Ltac mstep lem :=
  cbv beta iota;
  erewrite bind_Ret; [ | first [ eapply lem; heap_lookup | eapply lem ] ];
  state_simpl.

Lemma fresh_ne_insert (h : gmap positive block) a b :
  fresh (dom (<[a := b]> h)) <> a.
Proof.
  intros E. pose proof (is_fresh (dom (<[a := b]> h))) as F.
  rewrite E in F. apply F. rewrite dom_insert. set_solver.
Qed.

Lemma TroveString_create_Ret init s n :
  alloc_budget s = S (S n) ->
  Z.of_nat (String.length (c_string (default EmptyString init))) < PTRDIFF_MAX ->
  let a := fresh_addr s in
  let hdr := mkARCObject 1 (Some TroveString_dealloc_fn) in
  let h1 := <[a := BString (mkTroveString hdr NULL)]> (heap s) in
  let b := fresh (dom h1) in
  TroveString_create init s =
  Ret (Addr a)
      (mkState (<[a := BString (mkTroveString hdr (Addr b))]>
                  (<[b := BChars (c_string (default EmptyString init))]> h1))
               (current_autorelease_pool s) (trace s) n).
Proof.
  intros Hb Hlen a hdr h1 b.
  unfold TroveString_create.
  erewrite bind_Ret by (apply malloc_Ret; [eassumption | unfold sizeof_TroveString, PTRDIFF_MAX; lia]).
  fold a. 
  mstep load_string_Ret.
  mstep set_string_header_Ret.
  mstep load_string_Ret.
  mstep set_string_header_Ret.
  assert (Hstr : strdup (default EmptyString init)
            (mkState h1 (current_autorelease_pool s) (trace s) (S n)) =
          Ret (Addr b) (mkState (<[b := BChars (c_string (default EmptyString init))]> h1)
                                (current_autorelease_pool s) (trace s) n)).
  { unfold strdup. erewrite malloc_Ret; [reflexivity | reflexivity | cbn; lia]. }
  replace (match init with Some text => strdup text | None => strdup EmptyString end)
    with (strdup (default EmptyString init)) by (now destruct init).
  mstep Hstr.
  assert (Hne : b <> a) by apply fresh_ne_insert.
  mstep set_string_str_Ret.
  now rewrite mret_Ret.
Qed.

(** ** Construction *)

(** C5: for every constructor argument [init], when the allocator grants the
    two requests of [TroveString_create], the call returns a pointer to a
    live [TroveString] whose embedded header has [ref_count = 1] and whose
    [dealloc] field is [TroveString_dealloc], in the state at return. *)
Theorem TroveString_create_header (init : option string) (s : State) :
  (2 <= alloc_budget s)%nat ->
  Z.of_nat (String.length (c_string (default EmptyString init))) < PTRDIFF_MAX ->
  exists a s' t,
    TroveString_create init s = Ret (Addr a) s' /\
    heap s' !! a = Some (BString t) /\
    load_header a s' = Ret (base t) s' /\
    ref_count (base t) = 1 /\
    dealloc (base t) = Some TroveString_dealloc_fn.
Proof.
  intros Hb Hlen.
  destruct (alloc_budget s) as [|[|n]] eqn:E; [lia | lia |].
  eexists _, _, _. split; [ exact (TroveString_create_Ret init s n E Hlen) | ].
  cbn [heap]. split; [ apply lookup_insert_eq | ].
  split; [ | split; reflexivity ].
  eapply load_header_Ret; [ apply lookup_insert_eq | reflexivity ].
Qed.

Lemma TroveString_create_header_witness :
  exists a s' t,
    TroveString_create (Some "abc") (mkState ∅ NULL [] 2) = Ret (Addr a) s' /\
    heap s' !! a = Some (BString t) /\
    load_header a s' = Ret (base t) s' /\
    ref_count (base t) = 1 /\
    dealloc (base t) = Some TroveString_dealloc_fn.
Proof.
  apply (TroveString_create_header (Some "abc") (mkState ∅ NULL [] 2)).
  - simpl. lia.
  - vm_compute. reflexivity.
Defined.

(** C9: [TroveString_create(NULL)] returns (it neither exits nor faults when
    the allocator grants its two requests) an object with [ref_count = 1] and
    the destructor set, whose [str] is a non-null pointer to the empty
    string. *)
Theorem TroveString_create_NULL (s : State) :
  (2 <= alloc_budget s)%nat ->
  exists a s' t b,
    TroveString_create None s = Ret (Addr a) s' /\
    heap s' !! a = Some (BString t) /\
    ref_count (base t) = 1 /\
    dealloc (base t) = Some TroveString_dealloc_fn /\
    str t = Addr b /\
    heap s' !! b = Some (BChars EmptyString).
Proof.
  intros Hb.
  destruct (alloc_budget s) as [|[|n]] eqn:E; [lia | lia |].
  eexists _, _, _, _. split.
  { refine (TroveString_create_Ret None s n E _). cbn. unfold PTRDIFF_MAX. lia. }
  cbn [heap]. split; [ apply lookup_insert_eq | ].
  do 3 (split; [reflexivity | ]).
  rewrite lookup_insert_ne by (apply not_eq_sym, fresh_ne_insert).
  apply lookup_insert_eq.
Qed.

Lemma TroveString_create_NULL_witness :
  exists a s' t b,
    TroveString_create None (mkState ∅ NULL [] 2) = Ret (Addr a) s' /\
    heap s' !! a = Some (BString t) /\
    ref_count (base t) = 1 /\
    dealloc (base t) = Some TroveString_dealloc_fn /\
    str t = Addr b /\
    heap s' !! b = Some (BChars EmptyString).
Proof.
  apply (TroveString_create_NULL (mkState ∅ NULL [] 2)). simpl. lia.
Defined.

(** ** Registration without a pool *)

(** C6: with no current pool, [autorelease_add] and [arc_autorelease] return
    normally; the only change of state is one diagnostic line on [stderr]:
    the heap (every pool, every array, every object header) and the
    current-pool slot are as before. *)
Theorem autorelease_without_pool (obj : ptr) (s : State) :
  current_autorelease_pool s = NULL ->
  let s' := add_event (EvStderr no_pool_message) s in
  autorelease_add obj s = Ret tt s' /\
  arc_autorelease obj s = Ret obj s' /\
  heap s' = heap s /\
  current_autorelease_pool s' = NULL /\
  alloc_budget s' = alloc_budget s /\
  trace s' = trace s ++ [EvStderr no_pool_message].
Proof.
  intros Hn s'.
  assert (Ha : autorelease_add obj s = Ret tt s').
  { unfold autorelease_add.
    rewrite (bind_Ret _ _ _ _ _ (get_state_Ret s)). now rewrite Hn. }
  split; [exact Ha | ].
  split; [ unfold arc_autorelease; now rewrite (bind_Ret _ _ _ _ _ Ha) | ].
  subst s'. cbn. now rewrite Hn.
Qed.

(** ** Retain and release *)

Lemma wrap_int_id z : in_int_range z -> wrap_int z = z.
Proof.
  unfold in_int_range, INT_MIN, INT_MAX, wrap_int. intros H.
  rewrite Z.mod_small; lia.
Qed.

Lemma wrap_int_succ z : wrap_int (wrap_int z + 1) = wrap_int (z + 1).
Proof.
  unfold wrap_int.
  replace ((z + 2147483648) mod 4294967296 - 2147483648 + 1 + 2147483648)
    with ((z + 2147483648) mod 4294967296 + 1) by lia.
  rewrite Zplus_mod_idemp_l. f_equal. f_equal. lia.
Qed.

Lemma wrap_int_pred z : wrap_int (wrap_int z - 1) = wrap_int (z - 1).
Proof.
  unfold wrap_int.
  replace ((z + 2147483648) mod 4294967296 - 2147483648 - 1 + 2147483648)
    with ((z + 2147483648) mod 4294967296 + (- 1)) by lia.
  rewrite Zplus_mod_idemp_l. f_equal. f_equal. lia.
Qed.

Lemma header_of_with_header o o' b :
  header_of b = Some o' -> header_of (with_header o b) = Some o.
Proof. destruct b; simpl; intros H; try discriminate; reflexivity. Qed.

Lemma with_header_twice o o' b : with_header o (with_header o' b) = with_header o b.
Proof. now destruct b. Qed.

Lemma with_header_id o b : header_of b = Some o -> with_header o b = b.
Proof.
  destruct b as [o1|[o1 p1]| | |]; simpl; intros H; try discriminate;
    now inversion H.
Qed.

Lemma arc_retain_Ret a b hdr s :
  heap s !! a = Some b -> header_of b = Some hdr ->
  arc_retain (Addr a) s =
  Ret tt (set_heap (<[a := with_header (mkARCObject (wrap_int (ref_count hdr + 1)) (dealloc hdr)) b]> (heap s)) s).
Proof.
  intros H Ho. unfold arc_retain.
  rewrite (bind_Ret _ _ _ _ _ (load_header_Ret _ _ _ _ H Ho)).
  now apply store_header_Ret with hdr.
Qed.

Lemma arc_release_NULL s : arc_release NULL s = Ret tt (add_event (EvRelease NULL) s).
Proof. reflexivity. Qed.

Lemma arc_release_unfold a b hdr s :
  heap s !! a = Some b -> header_of b = Some hdr ->
  arc_release (Addr a) s =
  (if wrap_int (ref_count hdr - 1) <=? 0 then
     match dealloc hdr with
     | Some f => call_dealloc f a
     | None => mret tt
     end
   else mret tt) (released_state a b hdr s).
Proof.
  intros H Ho. unfold arc_release.
  mstep log_event_Ret.
  erewrite bind_Ret by (eapply load_header_Ret; cbn; eassumption).
  erewrite bind_Ret by (eapply store_header_Ret; cbn; eassumption).
  erewrite bind_Ret
    by (eapply load_header_Ret;
        [ cbn; apply lookup_insert_eq | now apply header_of_with_header with hdr ]).
  reflexivity.
Qed.

Lemma arc_release_keep a b hdr s :
  heap s !! a = Some b -> header_of b = Some hdr ->
  0 < wrap_int (ref_count hdr - 1) \/ dealloc hdr = None ->
  arc_release (Addr a) s = Ret tt (released_state a b hdr s).
Proof.
  intros H Ho Hk. rewrite (arc_release_unfold _ _ _ _ H Ho).
  destruct (Z.leb_spec (wrap_int (ref_count hdr - 1)) 0); [ | reflexivity ].
  destruct Hk as [Hk | Hk]; [ lia | now rewrite Hk ].
Qed.

Lemma call_dealloc_Ret f a b s :
  heap s !! a = Some b -> destructor_fits (heap s) f b = true ->
  call_dealloc f a s =
  Ret tt (mkState (heap_after_dealloc (heap s) f a) (current_autorelease_pool s)
                  (trace s ++ [EvDealloc f a]) (alloc_budget s)).
Proof.
  intros H Hf. unfold call_dealloc, heap_after_dealloc. rewrite H.
  mstep log_event_Ret.
  destruct f as [|id].
  - destruct b as [|t| | |]; try discriminate. simpl in Hf.
    unfold TroveString_dealloc.
    erewrite bind_Ret by (eapply load_string_Ret; cbn; eassumption).
    destruct (str t) as [|c].
    + rewrite (bind_Ret _ _ _ _ _ (mret_Ret tt _)).
      erewrite free_Ret by (cbn; eassumption). reflexivity.
    + destruct (heap s !! c) as [[| | | |text]|] eqn:Hc; try discriminate.
      assert (c <> a) by congruence.
      erewrite bind_Ret by (eapply free_Ret; cbn; eassumption).
      erewrite free_Ret by (cbn; rewrite lookup_delete_ne by assumption; eassumption).
      cbn. rewrite delete_delete. reflexivity.
  - unfold client_dealloc. erewrite free_Ret by (cbn; eassumption). reflexivity.
Qed.

Lemma wrap_int_range z : in_int_range (wrap_int z).
Proof.
  unfold in_int_range, INT_MIN, INT_MAX, wrap_int.
  pose proof (Z.mod_pos_bound (z + 2147483648) 4294967296). lia.
Qed.

Lemma wrap_int_add_l x y : wrap_int (wrap_int x + y) = wrap_int (x + y).
Proof.
  unfold wrap_int.
  replace ((x + 2147483648) mod 4294967296 - 2147483648 + y + 2147483648)
    with ((x + 2147483648) mod 4294967296 + y) by lia.
  rewrite Zplus_mod_idemp_l. f_equal. f_equal. lia.
Qed.

Lemma set_heap_same s : set_heap (heap s) s = s.
Proof. now destruct s. Qed.

Lemma repeat_m_S n m s s1 :
  m s = Ret tt s1 -> repeat_m (S n) m s = repeat_m n m s1.
Proof. intros H. simpl. now rewrite (bind_Ret _ _ _ _ _ H). Qed.

(** [n] retains add [n] to the count, modulo the width of [int]. *)
Lemma retain_n n : forall s a b r d,
  heap s !! a = Some b -> header_of b = Some (mkARCObject r d) -> in_int_range r ->
  repeat_m n (arc_retain (Addr a)) s =
  Ret tt (set_heap (<[a := with_header (mkARCObject (wrap_int (r + Z.of_nat n)) d) b]> (heap s)) s).
Proof.
  induction n as [|n IH]; intros s a b r d H Ho Hr.
  - simpl. rewrite Z.add_0_r, (wrap_int_id _ Hr), (with_header_id _ _ Ho).
    rewrite insert_id by assumption. now rewrite set_heap_same.
  - rewrite (repeat_m_S _ _ _ _ (arc_retain_Ret _ _ _ _ H Ho)).
    cbn [ref_count dealloc].
    erewrite IH;
      [ | cbn; apply lookup_insert_eq
        | now apply header_of_with_header with (mkARCObject r d)
        | apply wrap_int_range ].
    cbn. unfold set_heap. cbn.
    rewrite insert_insert_eq, with_header_twice, wrap_int_add_l.
    now replace (r + 1 + Z.of_nat n) with (r + Z.of_nat (S n)) by lia.
Qed.

(** [n] releases that never bring the count to zero or below (or of an
    object without destructor) subtract [n] and call nothing. *)
Lemma release_n_keep n : forall s a b r d,
  heap s !! a = Some b -> header_of b = Some (mkARCObject r d) -> in_int_range r ->
  (forall k, 1 <= k <= Z.of_nat n -> 0 < wrap_int (r - k)) \/ d = None ->
  repeat_m n (arc_release (Addr a)) s =
  Ret tt (mkState (<[a := with_header (mkARCObject (wrap_int (r - Z.of_nat n)) d) b]> (heap s))
                  (current_autorelease_pool s)
                  (trace s ++ replicate n (EvRelease (Addr a)))
                  (alloc_budget s)).
Proof.
  induction n as [|n IH]; intros s a b r d H Ho Hr Hk.
  - simpl. rewrite Z.sub_0_r, (wrap_int_id _ Hr), (with_header_id _ _ Ho).
    rewrite insert_id by assumption. rewrite app_nil_r. now destruct s.
  - assert (Hstep : arc_release (Addr a) s = Ret tt (released_state a b (mkARCObject r d) s)).
    { apply arc_release_keep; try assumption. cbn.
      destruct Hk as [Hk | Hk]; [ left; apply Hk; lia | now right ]. }
    rewrite (repeat_m_S _ _ _ _ Hstep).
    erewrite IH;
      [ | cbn; apply lookup_insert_eq
        | now apply header_of_with_header with (mkARCObject r d)
        | apply wrap_int_range
        | ].
    + cbn. rewrite insert_insert_eq, with_header_twice, <- app_assoc.
      replace (wrap_int (r - 1) - Z.of_nat n) with (wrap_int (r + -1) + - Z.of_nat n) by (f_equal; lia).
      rewrite wrap_int_add_l.
      now replace (r + -1 + - Z.of_nat n) with (r - Z.of_nat (S n)) by lia.
    + cbn. destruct Hk as [Hk | Hk]; [ left | now right ].
      intros k Hkn.
      replace (wrap_int (r - 1) - k) with (wrap_int (r + -1) + - k) by (f_equal; lia).
      rewrite wrap_int_add_l.
      replace (r + -1 + - k) with (r - (k + 1)) by lia. apply Hk. lia.
Qed.

Lemma destroyed_app evs1 evs2 : destroyed (evs1 ++ evs2) = destroyed evs1 ++ destroyed evs2.
Proof. apply omap_app. Qed.

Lemma released_app evs1 evs2 : released (evs1 ++ evs2) = released evs1 ++ released evs2.
Proof. apply omap_app. Qed.

Lemma destroyed_releases n p : destroyed (replicate n (EvRelease p)) = [].
Proof. induction n; [reflexivity | assumption]. Qed.

(** C3, amended: for every [n] with [1 + n <= INT_MAX], [n] retains followed
    by [n] releases of a freshly constructed object leave its count at 1 and
    invoke no destructor. *)
Theorem retain_release_balanced_in_range (n : nat) :
  Z.of_nat n < INT_MAX -> retain_release_balanced n.
Proof.
  intros Hn s a b d H Ho.
  assert (Hr1 : in_int_range 1) by (unfold in_int_range, INT_MIN, INT_MAX; lia).
  assert (Hw : wrap_int (1 + Z.of_nat n) = 1 + Z.of_nat n).
  { apply wrap_int_id. unfold in_int_range, INT_MIN, INT_MAX in *. lia. }
  assert (Hrel : forall k, (k <= n)%nat ->
            (repeat_m n (arc_retain (Addr a));; repeat_m k (arc_release (Addr a))) s =
            Ret tt (mkState
                      (<[a := with_header (mkARCObject (wrap_int (1 + Z.of_nat n - Z.of_nat k)) d) b]>
                         (heap s))
                      (current_autorelease_pool s)
                      (trace s ++ replicate k (EvRelease (Addr a)))
                      (alloc_budget s))).
  { intros k Hk.
    erewrite bind_Ret by (now apply retain_n with (r := 1) (d := d) (b := b)).
    rewrite Hw.
    erewrite release_n_keep;
      [ | cbn; apply lookup_insert_eq
        | now apply header_of_with_header with (mkARCObject 1 d)
        | unfold in_int_range, INT_MIN, INT_MAX in *; lia
        | left; intros j Hj; rewrite wrap_int_id;
          unfold in_int_range, INT_MIN, INT_MAX in *; lia ].
    cbn. now rewrite insert_insert_eq, with_header_twice. }
  split.
  - intros k Hk. eexists. split; [ now apply Hrel | ].
    cbn. now rewrite destroyed_app, destroyed_releases, app_nil_r.
  - eexists. split; [ now apply Hrel | ].
    replace (1 + Z.of_nat n - Z.of_nat n) with 1 by lia.
    rewrite (wrap_int_id 1 Hr1).
    eapply load_header_Ret; [ cbn; apply lookup_insert_eq | ].
    now apply header_of_with_header with (mkARCObject 1 d).
Qed.

Lemma retain_release_balanced_in_range_witness : retain_release_balanced 3.
Proof. apply (retain_release_balanced_in_range 3). vm_compute. reflexivity. Defined.

Example retain_release_3 :
  (repeat_m 3 (arc_retain (Addr 1));; repeat_m 3 (arc_release (Addr 1)))
    (mkState {[ 1%positive := BObject (mkARCObject 1 (Some (client_dealloc_fn 0))) ]} NULL [] 0)
  = Ret tt (mkState {[ 1%positive := BObject (mkARCObject 1 (Some (client_dealloc_fn 0))) ]} NULL
              [EvRelease (Addr 1); EvRelease (Addr 1); EvRelease (Addr 1)] 0).
Proof. vm_compute. reflexivity. Qed.

Lemma arc_release_dangling a s :
  heap s !! a = None -> arc_release (Addr a) s = Fault.
Proof.
  intros H. unfold arc_release. mstep log_event_Ret.
  apply bind_Fault. unfold load_header. apply bind_Fault.
  unfold deref. cbn. now rewrite H.
Qed.

Lemma arc_release_destroy a b hdr f s :
  heap s !! a = Some b -> header_of b = Some hdr ->
  wrap_int (ref_count hdr - 1) <= 0 -> dealloc hdr = Some f ->
  arc_release (Addr a) s = call_dealloc f a (released_state a b hdr s).
Proof.
  intros H Ho Hz Hd. rewrite (arc_release_unfold _ _ _ _ H Ho).
  destruct (Z.leb_spec (wrap_int (ref_count hdr - 1)) 0); [ | lia ].
  now rewrite Hd.
Qed.

(** Releasing again after the release that destroyed the object is a use
    after free. *)
Lemma release_after_destroy_faults m s a b r id :
  heap s !! a = Some b -> header_of b = Some (mkARCObject r (Some (client_dealloc_fn id))) ->
  wrap_int (r - 1) <= 0 ->
  repeat_m (S (S m)) (arc_release (Addr a)) s = Fault.
Proof.
  intros H Ho Hz.
  erewrite repeat_m_S.
  2:{ erewrite arc_release_destroy by (try eassumption; reflexivity).
      eapply call_dealloc_Ret; [ cbn; apply lookup_insert_eq | reflexivity ]. }
  simpl. apply bind_Fault. apply arc_release_dangling.
  cbn. apply lookup_delete_eq.
Qed.

(** The release that brings the count of a client object to zero or below:
    its destructor is called and frees it. *)
Lemma release_destroys_client a b r id s :
  heap s !! a = Some b ->
  header_of b = Some (mkARCObject r (Some (client_dealloc_fn id))) ->
  wrap_int (r - 1) <= 0 ->
  arc_release (Addr a) s =
  Ret tt (mkState (delete a (heap s)) (current_autorelease_pool s)
                  (trace s ++ [EvRelease (Addr a); EvDealloc (client_dealloc_fn id) a])
                  (alloc_budget s)).
Proof.
  intros H Ho Hz.
  erewrite arc_release_destroy by (try eassumption; reflexivity).
  erewrite call_dealloc_Ret; [ | cbn; apply lookup_insert_eq | reflexivity ].
  cbn. now rewrite delete_insert_eq, <- app_assoc.
Qed.

(** C3 as stated fails at [n = 2^31]: the count of a fresh object wraps to
    [INT_MIN + 1] during the retains, so the first release already finds it
    at or below zero and invokes the destructor. *)
Lemma retain_release_unbalanced_at_2_31 :
  ~ retain_release_balanced (Z.to_nat 2147483648).
Proof.
  intros Hc.
  pose (blk := BObject (mkARCObject 1 (Some (client_dealloc_fn 0)))).
  pose (s := mkState {[ 1%positive := blk ]} NULL [] 0).
  destruct (Hc s 1%positive blk (Some (client_dealloc_fn 0))) as [Hprefix _].
  { apply lookup_singleton_eq. }
  { reflexivity. }
  destruct (Hprefix 1%nat ltac:(lia)) as (sk & Hrun & Hnone).
  assert (Hr1 : in_int_range 1) by (unfold in_int_range, INT_MIN, INT_MAX; lia).
  erewrite bind_Ret in Hrun.
  2:{ apply retain_n with (r := 1) (d := Some (client_dealloc_fn 0)) (b := blk);
      [ apply lookup_singleton_eq | reflexivity | exact Hr1 ]. }
  rewrite Z2Nat.id in Hrun by lia.
  erewrite repeat_m_S in Hrun.
  2:{ eapply release_destroys_client;
      [ cbn; apply lookup_insert_eq | reflexivity | vm_compute; discriminate ]. }
  inversion Hrun; subst sk. discriminate Hnone.
Qed.

Lemma repeat_m_snoc n m : forall s s1,
  repeat_m n m s = Ret tt s1 -> repeat_m (S n) m s = m s1.
Proof.
  induction n as [|n IH]; intros s s1 H.
  - simpl in H. inversion H; subst. simpl.
    unfold mbind, M_bind, bind. destruct (m s1) as [[] ?| |]; reflexivity.
  - change (repeat_m (S n) m s) with (bind m (fun _ => repeat_m n m) s) in H.
    change (repeat_m (S (S n)) m s) with (bind m (fun _ => repeat_m (S n) m) s).
    unfold bind in *.
    destruct (m s) as [[] s2| |]; try discriminate.
    now apply IH.
Qed.

Lemma str_with_header o b t :
  b = BString t -> with_header o b = BString (mkTroveString o (str t)).
Proof. now intros ->. Qed.

Lemma destructor_fits_with_header h a b o o' f :
  h !! a = Some b -> header_of b = Some o ->
  destructor_fits h f b = true ->
  destructor_fits (<[a := with_header o' b]> h) f (with_header o' b) = true.
Proof.
  intros H Ho Hf. destruct f as [|id]; [ | reflexivity ].
  destruct b as [|t| | |]; try discriminate. simpl in *.
  destruct (str t) as [|c]; [ reflexivity | ].
  destruct (h !! c) as [blk|] eqn:Hc; [ | discriminate ].
  assert (c <> a) by (intros ->; rewrite H in Hc; inversion Hc; subst; discriminate).
  rewrite lookup_insert_ne by congruence. now rewrite Hc.
Qed.

Lemma heap_after_dealloc_with_header h a b o o' f :
  h !! a = Some b -> header_of b = Some o ->
  heap_after_dealloc (<[a := with_header o' b]> h) f a = heap_after_dealloc h f a.
Proof.
  intros H Ho. unfold heap_after_dealloc. rewrite lookup_insert_eq, H.
  destruct f as [|id]; [ | apply delete_insert_eq ].
  destruct b as [|t| | |]; simpl; try apply delete_insert_eq.
  destruct (str t) as [|c]; [ apply delete_insert_eq | ].
  rewrite (delete_delete _ a c), (delete_delete h a c).
  now rewrite delete_insert_eq.
Qed.

(** One release of an object whose count is 1 and whose destructor is set:
    the count reaches zero and the destructor is called. *)
Lemma release_last a b f s :
  heap s !! a = Some b -> header_of b = Some (mkARCObject 1 (Some f)) ->
  destructor_fits (heap s) f b = true ->
  arc_release (Addr a) s =
  Ret tt (mkState (heap_after_dealloc (heap s) f a) (current_autorelease_pool s)
                  (trace s ++ [EvRelease (Addr a); EvDealloc f a]) (alloc_budget s)).
Proof.
  intros H Ho Hf.
  erewrite arc_release_destroy; try eassumption; try reflexivity.
  erewrite call_dealloc_Ret;
    [ | cbn; apply lookup_insert_eq
      | cbn; now apply destructor_fits_with_header with (mkARCObject 1 (Some f)) ].
  cbn. rewrite <- app_assoc.
  now erewrite heap_after_dealloc_with_header by eassumption.
Qed.

(** C4: an object whose count is [r >= 1] and whose destructor is set is
    released [r] times.  The first [r - 1] releases return with the object
    still live, count 1, and no destructor call; the [r]-th release invokes
    the destructor, once, so that the trace of the [r] releases is [r]
    release events followed by one destructor call. *)
Theorem release_refcount_times (s : State) (a : positive) (b : block) (r : Z) (f : fnptr) :
  heap s !! a = Some b ->
  header_of b = Some (mkARCObject r (Some f)) ->
  1 <= r <= INT_MAX ->
  destructor_fits (heap s) f b = true ->
  exists s1 s',
    repeat_m (Z.to_nat r - 1) (arc_release (Addr a)) s = Ret tt s1 /\
    load_header a s1 = Ret (mkARCObject 1 (Some f)) s1 /\
    destroyed (trace s1) = destroyed (trace s) /\
    arc_release (Addr a) s1 = Ret tt s' /\
    repeat_m (Z.to_nat r) (arc_release (Addr a)) s = Ret tt s' /\
    trace s' = trace s ++ replicate (Z.to_nat r) (EvRelease (Addr a)) ++ [EvDealloc f a] /\
    destroyed (trace s') = destroyed (trace s) ++ [a] /\
    heap s' = heap_after_dealloc (heap s) f a.
Proof.
  intros H Ho Hr Hf.
  assert (Hrange : in_int_range r) by (unfold in_int_range, INT_MIN, INT_MAX in *; lia).
  assert (Hcnt : wrap_int (r - Z.of_nat (Z.to_nat r - 1)) = 1).
  { replace (r - Z.of_nat (Z.to_nat r - 1)) with 1 by lia. reflexivity. }
  pose proof (release_n_keep (Z.to_nat r - 1) s a b r (Some f) H Ho Hrange) as Hfirst.
  rewrite Hcnt in Hfirst.
  specialize (Hfirst ltac:(left; intros k Hk; rewrite wrap_int_id;
                           unfold in_int_range, INT_MIN, INT_MAX in *; lia)).
  set (b1 := with_header (mkARCObject 1 (Some f)) b) in *.
  assert (Ho1 : header_of b1 = Some (mkARCObject 1 (Some f)))
    by (now apply header_of_with_header with (mkARCObject r (Some f))).
  match type of Hfirst with _ = Ret tt ?st => set (s1 := st) in * end.
  assert (Hlast : arc_release (Addr a) s1 =
            Ret tt (mkState (heap_after_dealloc (heap s1) f a) (current_autorelease_pool s1)
                      (trace s1 ++ [EvRelease (Addr a); EvDealloc f a]) (alloc_budget s1))).
  { apply release_last with b1; [ cbn; apply lookup_insert_eq | exact Ho1 | ].
    cbn. now apply destructor_fits_with_header with (mkARCObject r (Some f)). }
  exists s1. eexists. split; [ exact Hfirst | ].
  split; [ apply load_header_Ret with b1; [ cbn; apply lookup_insert_eq | exact Ho1 ] | ].
  split; [ cbn; now rewrite destroyed_app, destroyed_releases, app_nil_r | ].
  split; [ exact Hlast | ].
  split.
  { replace (Z.to_nat r) with (S (Z.to_nat r - 1)) by lia.
    now rewrite (repeat_m_snoc _ _ _ _ Hfirst). }
  cbn. split; [ | split ].
  - rewrite <- app_assoc. f_equal.
    replace (Z.to_nat r) with (Z.to_nat r - 1 + 1)%nat at 2 by lia.
    rewrite replicate_add, <- app_assoc. reflexivity.
  - rewrite !destroyed_app, destroyed_releases, app_nil_r. reflexivity.
  - subst b1. now apply heap_after_dealloc_with_header with (mkARCObject r (Some f)).
Qed.

(** ** The pool and the objects registered in it *)

Lemma initialised_Some cells objs :
  initialised cells = Some objs <-> cells = Some <$> objs.
Proof.
  revert objs. induction cells as [|[v|] cells IH]; intros objs; simpl.
  - split; [ intros [= <-]; reflexivity | destruct objs; [reflexivity | discriminate] ].
  - destruct (initialised cells) as [l|] eqn:E; simpl.
    + split.
      * intros [= <-]. simpl. f_equal. now apply IH.
      * destruct objs as [|o objs]; [discriminate | ]. simpl. intros [= -> H].
        apply IH in H. now inversion H.
    + split; [discriminate | ].
      destruct objs as [|o objs]; [discriminate | ]. simpl. intros [= -> H].
      apply IH in H. discriminate.
  - split; [discriminate | destruct objs; discriminate].
Qed.

Lemma pool_rep_bound h p objs pl arr cells :
  pool_rep h p objs pl arr cells -> (length objs <= length cells)%nat.
Proof.
  intros R. pose proof (f_equal length (rep_cells _ _ _ _ _ _ R)) as E.
  rewrite length_take, length_fmap in E. lia.
Qed.

Lemma pool_objects_rep h p objs :
  pool_objects h p = Some objs <-> exists pl arr cells, pool_rep h p objs pl arr cells.
Proof.
  unfold pool_objects. split.
  - destruct (h !! p) as [[| |pl| |]|] eqn:Hp; try discriminate.
    destruct (objects pl) as [|arr] eqn:Ho; try discriminate.
    destruct (h !! arr) as [[| | |cells|]|] eqn:Ha; try discriminate.
    destruct (decide _) as [[Hc Hs]|]; try discriminate.
    intros Hi. apply initialised_Some in Hi.
    pose proof (f_equal length Hi) as El. rewrite length_take, length_fmap in El.
    exists pl, arr, cells. split; try assumption; [ lia | ].
    now replace (length objs) with (Z.to_nat (count pl)) by lia.
  - intros (pl & arr & cells & R). pose proof (pool_rep_bound _ _ _ _ _ _ R) as Hb.
    destruct R as [Hp Ho Ha Hc Ht Hs]. rewrite Hp, Ho, Ha.
    destruct (decide _) as [|Hn]; [ | lia ].
    apply initialised_Some. rewrite Hc, Nat2Z.id. exact Ht.
Qed.

Lemma wrap_size_id z : 0 <= z <= SIZE_MAX -> wrap_size z = z.
Proof. unfold SIZE_MAX, wrap_size. intros H. apply Z.mod_small. lia. Qed.

Lemma geb_false x y : x < y -> (x >=? y) = false.
Proof. intros H. rewrite Z.geb_leb. apply Z.leb_gt. exact H. Qed.

Lemma geb_true x y : y <= x -> (x >=? y) = true.
Proof. intros H. rewrite Z.geb_leb. now apply Z.leb_le. Qed.

(** Registration in a pool that has a free cell. *)
Lemma autorelease_add_room s p objs pl arr cells obj :
  current_autorelease_pool s = Addr p ->
  pool_rep (heap s) p objs pl arr cells ->
  count pl < capacity pl ->
  capacity pl = Z.of_nat (length cells) ->
  capacity pl <= SIZE_MAX ->
  autorelease_add obj s =
  Ret tt (set_heap
            (<[arr := BArray (<[length objs := Some obj]> cells)]>
               (<[p := BPool (mkAutoreleasePool (Addr arr) (count pl + 1) (capacity pl))]>
                  (heap s)))
            s).
Proof.
  intros Hcur R Hlt Hcap Hmax.
  pose proof R as [Hp Ho Ha Hc Ht Hsize].
  assert (Hne : p <> arr) by congruence.
  unfold autorelease_add.
  mstep get_state_Ret. rewrite Hcur.
  mstep load_pool_Ret.
  rewrite (geb_false _ _ Hlt).
  mstep (@mret_Ret unit).
  mstep load_pool_Ret.
  mstep set_count_Ret.
  rewrite Ho, wrap_size_id by lia.
  erewrite store_cell_Ret; [ | heap_lookup | rewrite Hc, Nat2Z.id; lia ].
  cbn. now rewrite Hc, Nat2Z.id.
Qed.

Lemma realloc_Ret a cells size s n :
  heap s !! a = Some (BArray cells) -> size <> 0 -> alloc_budget s = S n ->
  size <= PTRDIFF_MAX ->
  realloc (Addr a) size s =
  Ret (Addr (fresh_addr s))
      (mkState (<[fresh_addr s := BArray (resize_cells size cells)]> (delete a (heap s)))
               (current_autorelease_pool s) (trace s) n).
Proof.
  intros H Hs Hb Hm. unfold realloc. rewrite H, Hb.
  destruct (Z.eqb_spec size 0); [ contradiction | ].
  destruct (Z.leb_spec size PTRDIFF_MAX); [ reflexivity | lia ].
Qed.

Lemma resize_cells_double cells c :
  c = Z.of_nat (length cells) ->
  resize_cells (c * 2 * sizeof_pointer) cells = cells ++ replicate (length cells) None.
Proof.
  intros ->. unfold resize_cells, fresh_cells, cells_of_size, sizeof_pointer.
  rewrite Z.div_mul by lia.
  replace (Z.to_nat (Z.of_nat (length cells) * 2)) with (length cells + length cells)%nat by lia.
  rewrite take_app_ge by lia.
  rewrite take_replicate. do 2 f_equal. lia.
Qed.

(** Registration in a full pool, when the allocator grants the doubled
    array. *)
Lemma autorelease_add_grow s p objs pl arr cells obj n :
  current_autorelease_pool s = Addr p ->
  pool_rep (heap s) p objs pl arr cells ->
  capacity pl <= count pl ->
  capacity pl = Z.of_nat (length cells) ->
  0 < capacity pl ->
  alloc_budget s = S n ->
  capacity pl * 2 * sizeof_pointer <= PTRDIFF_MAX ->
  let h1 := <[p := BPool (mkAutoreleasePool (Addr arr) (count pl) (capacity pl * 2))]> (heap s) in
  let arr' := fresh (dom h1) in
  autorelease_add obj s =
  Ret tt (mkState
            (<[arr' := BArray (<[length objs := Some obj]>
                                 (resize_cells (capacity pl * 2 * sizeof_pointer) cells))]>
               (<[p := BPool (mkAutoreleasePool (Addr arr') (count pl + 1) (capacity pl * 2))]>
                  (<[arr' := BArray (resize_cells (capacity pl * 2 * sizeof_pointer) cells)]>
                     (delete arr h1))))
            (current_autorelease_pool s) (trace s) n).
Proof.
  intros Hcur R Hge Hcap Hpos Hb Hmax h1 arr'.
  pose proof R as [Hp Ho Ha Hc Ht Hsize].
  pose proof (pool_rep_bound _ _ _ _ _ _ R) as Hbound.
  assert (Hne : p <> arr) by congruence.
  unfold sizeof_pointer, PTRDIFF_MAX in *.
  unfold autorelease_add.
  mstep get_state_Ret. rewrite Hcur.
  mstep load_pool_Ret.
  rewrite (geb_true _ _ Hge).
  rewrite (wrap_size_id (capacity pl * 2)) by (unfold SIZE_MAX; lia).
  assert (Hp' : arr' <> p).
  { intros E. pose proof (is_fresh (dom h1)) as F. fold arr' in F. rewrite E in F.
    apply F. subst h1. rewrite dom_insert. set_solver. }
  erewrite bind_Ret.
  2:{ mstep set_capacity_Ret. rewrite Ho.
      mstep load_pool_Ret.
      unfold sizeof_pointer.
      rewrite wrap_size_id by (unfold SIZE_MAX; lia).
      erewrite bind_Ret.
      2:{ apply realloc_Ret with (n := n);
          [ cbn; rewrite lookup_insert_ne by assumption; exact Ha
          | lia | exact Hb | unfold PTRDIFF_MAX; lia ]. }
      unfold fresh_addr. state_simpl. fold h1. fold arr'.
      eapply set_objects_Ret. cbn.
      rewrite lookup_insert_ne by exact Hp'.
      rewrite lookup_delete_ne by congruence.
      subst h1. apply lookup_insert_eq. }
  state_simpl.
  mstep load_pool_Ret.
  mstep set_count_Ret.
  rewrite wrap_size_id by (unfold SIZE_MAX; lia).
  erewrite store_cell_Ret; [ | heap_lookup | ].
  - cbn. rewrite Hcur, Hc, Nat2Z.id. reflexivity.
  - change 8 with sizeof_pointer. rewrite (resize_cells_double _ _ Hcap).
    rewrite length_app, length_replicate, Hc, Nat2Z.id. lia.
Qed.

Lemma realloc_NULL a cells size s :
  heap s !! a = Some (BArray cells) -> size <> 0 ->
  alloc_budget s = O \/ PTRDIFF_MAX < size ->
  realloc (Addr a) size s = Ret NULL s.
Proof.
  intros H Hs Hf. unfold realloc. rewrite H.
  destruct (Z.eqb_spec size 0); [ contradiction | ].
  destruct (alloc_budget s); [ reflexivity | ].
  destruct (Z.leb_spec size PTRDIFF_MAX); [ | reflexivity ].
  destruct Hf; [ discriminate | lia ].
Qed.

(** Registration in a full pool, when the allocator refuses the doubled
    array: the process exits. *)
Lemma autorelease_add_full_exit s p objs pl arr cells obj :
  current_autorelease_pool s = Addr p ->
  pool_rep (heap s) p objs pl arr cells ->
  capacity pl <= count pl ->
  0 < capacity pl ->
  capacity pl * sizeof_pointer <= PTRDIFF_MAX ->
  alloc_budget s = O \/ PTRDIFF_MAX < capacity pl * 2 * sizeof_pointer ->
  exists s', autorelease_add obj s = Exit 1 s'.
Proof.
  intros Hcur R Hge Hpos Hmax Hf.
  pose proof R as [Hp Ho Ha Hc Ht Hsize].
  assert (Hne : p <> arr) by congruence.
  unfold sizeof_pointer, PTRDIFF_MAX in *.
  unfold autorelease_add.
  mstep get_state_Ret. rewrite Hcur.
  mstep load_pool_Ret.
  rewrite (geb_true _ _ Hge).
  rewrite (wrap_size_id (capacity pl * 2)) by (unfold SIZE_MAX; lia).
  eexists. apply bind_Exit.
  mstep set_capacity_Ret. rewrite Ho.
  mstep load_pool_Ret.
  unfold sizeof_pointer.
  rewrite wrap_size_id by (unfold SIZE_MAX; lia).
  erewrite bind_Ret.
  2:{ apply realloc_NULL with (cells := cells);
      [ cbn; rewrite lookup_insert_ne by assumption; exact Ha
      | lia | cbn; unfold PTRDIFF_MAX; tauto ]. }
  cbv beta iota. unfold fprintf_stderr.
  mstep log_event_Ret. reflexivity.
Qed.

Lemma pool_inv_intro s p objs :
  current_autorelease_pool s = Addr p ->
  pool_objects (heap s) p = Some objs ->
  pool_sized (heap s) p = true ->
  exists cap, pool_inv s p objs cap.
Proof.
  intros Hcur Hobjs Hsz.
  apply pool_objects_rep in Hobjs as (pl & arr & cells & R).
  pose proof R as [Hp Ho Ha Hc Ht Hsize].
  unfold pool_sized in Hsz. rewrite Hp, Ho, Ha in Hsz.
  apply andb_prop in Hsz as [Hsz H3]. apply andb_prop in Hsz as [H1 H2].
  apply Z.eqb_eq in H1. apply Z.ltb_lt in H2. apply Z.leb_le in H3.
  exists (capacity pl). split; [ exact Hcur | ].
  exists pl, arr, cells. repeat split; try assumption; lia.
Qed.

Lemma pool_inv_elim s p objs cap :
  pool_inv s p objs cap ->
  current_autorelease_pool s = Addr p /\
  pool_objects (heap s) p = Some objs /\
  pool_sized (heap s) p = true.
Proof.
  intros (Hcur & pl & arr & cells & R & Hcap & Hlen & Hpos & Hmax).
  split; [ exact Hcur | ]. split.
  - apply pool_objects_rep. eauto.
  - destruct R as [Hp Ho Ha Hc Ht Hsize]. unfold pool_sized. rewrite Hp, Ho, Ha.
    apply andb_true_intro. split; [ apply andb_true_intro; split | ].
    + apply Z.eqb_eq. lia.
    + apply Z.ltb_lt. lia.
    + apply Z.leb_le. lia.
Qed.

Lemma take_insert_snoc {A} (cells : list A) (l : list A) (x : A) :
  (length l < length cells)%nat -> take (length l) cells = l ->
  take (length (l ++ [x])) (<[length l := x]> cells) = l ++ [x].
Proof.
  intros Hlt Ht. rewrite length_app. simpl.
  replace (length l + 1)%nat with (S (length l)) by lia.
  rewrite (take_S_r _ _ x) by (now apply list_lookup_insert_eq).
  rewrite take_insert_ge by lia. now rewrite Ht.
Qed.

Lemma take_register (cells : list (option ptr)) (objs : list ptr) (obj : ptr) :
  (length objs < length cells)%nat -> take (length objs) cells = Some <$> objs ->
  take (length (objs ++ [obj])) (<[length objs := Some obj]> cells) = Some <$> (objs ++ [obj]).
Proof.
  intros Hlt Ht.
  pose proof (take_insert_snoc cells (Some <$> objs) (Some obj)) as E.
  rewrite !length_app, !length_fmap in E. rewrite length_app, fmap_app.
  apply E; assumption.
Qed.

Lemma pool_array_lookup h p pl arr :
  h !! p = Some (BPool pl) -> objects pl = Addr arr -> pool_array h p = Some arr.
Proof. intros Hp Ho. unfold pool_array. now rewrite Hp, Ho. Qed.

(** What one registration does to a pool in use: it exits, only when the
    list is full and the allocator refuses to grow it, or it returns with
    the object appended and everything outside the pool as before. *)
Lemma autorelease_add_outcome s p objs cap obj :
  pool_inv s p objs cap ->
  (exists s', autorelease_add obj s = Exit 1 s' /\
              cap <= Z.of_nat (length objs) /\
              (alloc_budget s = O \/ PTRDIFF_MAX < cap * 2 * sizeof_pointer)) \/
  (exists s', autorelease_add obj s = Ret tt s' /\
              pool_inv s' p (objs ++ [obj])
                       (if Z.of_nat (length objs) >=? cap then cap * 2 else cap) /\
              trace s' = trace s /\
              same_outside_pool (heap s) (heap s') p /\
              (Z.of_nat (length objs) < cap \/
               (alloc_budget s <> O /\ cap * 2 * sizeof_pointer <= PTRDIFF_MAX)) /\
              (alloc_budget s' <= alloc_budget s <= S (alloc_budget s'))%nat).
Proof.
  intros (Hcur & pl & arr & cells & R & Hcap & Hlen & Hpos & Hmax).
  pose proof R as [Hp Ho Ha Hc Ht Hsize].
  pose proof (pool_rep_bound _ _ _ _ _ _ R) as Hbound.
  assert (Hne : p <> arr) by congruence.
  destruct (Z.lt_ge_cases (count pl) (capacity pl)) as [Hroom | Hfull].
  - (* a free cell *)
    right. eexists. split.
    { eapply autorelease_add_room; try eassumption; [ lia | ].
      unfold SIZE_MAX, PTRDIFF_MAX, sizeof_pointer in *. lia. }
    rewrite (geb_false (Z.of_nat (length objs)) cap) by lia.
    unfold set_heap. cbn [heap trace current_autorelease_pool alloc_budget].
    split; [ | split; [ reflexivity | split; [ | split; [ left; lia | lia ] ] ] ].
    + split; [ exact Hcur | ].
      eexists _, arr, _.
      split; [ split | ]; cbn [heap trace current_autorelease_pool alloc_budget].
      * rewrite lookup_insert_ne by congruence. apply lookup_insert_eq.
      * reflexivity.
      * apply lookup_insert_eq.
      * cbn. rewrite length_app. simpl. lia.
      * apply take_register; [ lia | exact Ht ].
      * cbn. unfold SIZE_MAX, PTRDIFF_MAX, sizeof_pointer in *. lia.
      * cbn. rewrite length_insert. repeat split; lia.
    + exists arr, arr. split; [ now apply pool_array_lookup with pl | ].
      split.
      * eapply pool_array_lookup;
          [ rewrite lookup_insert_ne by congruence; apply lookup_insert_eq | reflexivity ].
      * rewrite delete_insert_eq, delete_insert_ne by congruence.
        now rewrite delete_insert_eq.
  - (* the list is full *)
    destruct (alloc_budget s) as [|n] eqn:Hb.
    { left.
      assert (Hf : alloc_budget s = O \/ PTRDIFF_MAX < capacity pl * 2 * sizeof_pointer)
        by (now left).
      assert (Hpos' : 0 < capacity pl) by lia.
      assert (Hmax' : capacity pl * sizeof_pointer <= PTRDIFF_MAX) by lia.
      destruct (autorelease_add_full_exit s p objs pl arr cells obj Hcur R Hfull Hpos' Hmax' Hf)
        as [s' Hs'].
      exists s'. split; [ exact Hs' | split; [ lia | now left ] ]. }
    destruct (Z.le_gt_cases (cap * 2 * sizeof_pointer) PTRDIFF_MAX) as [Hfits | Hbig].
    2:{ left.
        assert (Hf : alloc_budget s = O \/ PTRDIFF_MAX < capacity pl * 2 * sizeof_pointer)
          by (right; lia).
        assert (Hpos' : 0 < capacity pl) by lia.
        assert (Hmax' : capacity pl * sizeof_pointer <= PTRDIFF_MAX) by lia.
        destruct (autorelease_add_full_exit s p objs pl arr cells obj Hcur R Hfull Hpos' Hmax' Hf)
          as [s' Hs'].
        exists s'. split; [ exact Hs' | split; [ lia | right; lia ] ]. }
    right. eexists. split.
    { eapply autorelease_add_grow; try eassumption; lia. }
    rewrite (geb_true (Z.of_nat (length objs)) cap) by lia.
    set (h1 := <[p := BPool (mkAutoreleasePool (Addr arr) (count pl) (capacity pl * 2))]> (heap s)).
    set (arr' := fresh (dom h1)).
    assert (Hfresh : h1 !! arr' = None) by (apply not_elem_of_dom, is_fresh).
    assert (Hp' : arr' <> p).
    { intros E. rewrite E in Hfresh. subst h1. rewrite lookup_insert_eq in Hfresh. discriminate. }
    assert (Harr' : arr' <> arr).
    { intros E. rewrite E in Hfresh. subst h1.
      rewrite lookup_insert_ne, Ha in Hfresh by congruence. discriminate. }
    rewrite (resize_cells_double cells (capacity pl)) by lia.
    cbn [heap trace current_autorelease_pool alloc_budget].
    split; [ | split; [ reflexivity | split; [ | split; [ right; split; lia | lia ] ] ] ].
    + split; [ exact Hcur | ].
      eexists _, arr', _.
      split; [ split | ]; cbn [heap trace current_autorelease_pool alloc_budget].
      * rewrite lookup_insert_ne by congruence. apply lookup_insert_eq.
      * reflexivity.
      * apply lookup_insert_eq.
      * cbn. rewrite length_app. simpl. lia.
      * apply take_register.
        -- rewrite length_app, length_replicate. lia.
        -- rewrite take_app_le by lia. exact Ht.
      * cbn. unfold SIZE_MAX, PTRDIFF_MAX, sizeof_pointer in *. lia.
      * cbn. rewrite length_insert, length_app, length_replicate.
        unfold sizeof_pointer in *. repeat split; lia.
    + exists arr, arr'. split; [ now apply pool_array_lookup with pl | ].
      split.
      * eapply pool_array_lookup;
          [ rewrite lookup_insert_ne by congruence; apply lookup_insert_eq | reflexivity ].
      * rewrite delete_insert_eq, delete_insert_ne by congruence.
        rewrite !delete_insert_eq.
        rewrite (delete_delete _ arr' arr).
        rewrite (delete_id h1 arr') by exact Hfresh.
        subst h1. rewrite delete_insert_ne by congruence.
        now rewrite delete_insert_eq.
Qed.

(** ** Push *)

Lemma autorelease_pool_push_Ret s n :
  alloc_budget s = S (S n) ->
  let p := fresh_addr s in
  let h1 := <[p := BPool (mkAutoreleasePool NULL 0 16)]> (heap s) in
  let arr := fresh (dom h1) in
  autorelease_pool_push s =
  Ret tt (mkState (<[p := BPool (mkAutoreleasePool (Addr arr) 0 16)]>
                     (<[arr := BArray (replicate 16 None)]> h1))
                  (Addr p) (trace s) n).
Proof.
  intros Hb p h1 arr.
  unfold autorelease_pool_push.
  erewrite bind_Ret
    by (apply malloc_Ret; [ eassumption | unfold sizeof_AutoreleasePool, PTRDIFF_MAX; lia ]).
  fold p.
  mstep set_count_Ret.
  mstep set_capacity_Ret.
  mstep load_pool_Ret.
  fold h1.
  assert (Hsz : wrap_size (16 * sizeof_pointer) = 128) by reflexivity.
  rewrite Hsz.
  erewrite bind_Ret by (apply malloc_Ret; [ reflexivity | unfold PTRDIFF_MAX; lia ]).
  unfold fresh_addr. cbn [heap]. fold arr.
  assert (Hne : arr <> p) by apply fresh_ne_insert.
  erewrite bind_Ret
    by (eapply set_objects_Ret; cbn [heap]; rewrite lookup_insert_ne by exact Hne;
        apply lookup_insert_eq).
  reflexivity.
Qed.

Lemma autorelease_pool_push_inv s n :
  alloc_budget s = S (S n) ->
  exists p s1,
    autorelease_pool_push s = Ret tt s1 /\
    pool_inv s1 p [] 16 /\
    heap s !! p = None /\
    trace s1 = trace s /\
    alloc_budget s1 = n /\
    same_outside_pool (heap s1) (heap s1) p /\
    (forall a b, heap s !! a = Some b -> heap s1 !! a = Some b).
Proof.
  intros Hb.
  pose proof (autorelease_pool_push_Ret s n Hb) as Hpush. cbv zeta in Hpush.
  set (p := fresh_addr s) in *.
  set (h1 := <[p := BPool (mkAutoreleasePool NULL 0 16)]> (heap s)) in *.
  set (arr := fresh (dom h1)) in *.
  assert (Hp : heap s !! p = None) by apply fresh_addr_None.
  assert (Hfresh : h1 !! arr = None) by (apply not_elem_of_dom, is_fresh).
  assert (Hne : arr <> p) by apply fresh_ne_insert.
  exists p. eexists. split; [ exact Hpush | ].
  cbn [heap trace current_autorelease_pool alloc_budget].
  split; [ | split; [ exact Hp | split; [ reflexivity | split; [ reflexivity | split ] ] ] ].
  - split; [ reflexivity | ].
    eexists _, arr, _. split; [ split | ]; cbn [heap objects count capacity].
    + apply lookup_insert_eq.
    + reflexivity.
    + rewrite lookup_insert_ne by congruence. apply lookup_insert_eq.
    + reflexivity.
    + reflexivity.
    + cbn. unfold SIZE_MAX. lia.
    + cbn. unfold sizeof_pointer, PTRDIFF_MAX. repeat split; lia.
  - exists arr, arr. split; [ | split; [ | reflexivity ] ];
      (eapply pool_array_lookup; [ apply lookup_insert_eq | reflexivity ]).
  - intros a b Hab.
    assert (a <> p) by congruence.
    assert (a <> arr).
    { intros ->. subst h1. rewrite lookup_insert_ne in Hfresh by congruence. congruence. }
    subst h1. now rewrite !lookup_insert_ne by congruence.
Qed.

Lemma autorelease_pool_push_Exit s :
  (alloc_budget s < 2)%nat -> exists s', autorelease_pool_push s = Exit 1 s'.
Proof.
  intros Hb. destruct (alloc_budget s) as [|[|n]] eqn:E; [ | | lia ].
  - eexists. unfold autorelease_pool_push.
    erewrite bind_Ret by (unfold malloc; rewrite E; reflexivity).
    cbv beta iota. unfold fprintf_stderr. mstep log_event_Ret. reflexivity.
  - eexists. unfold autorelease_pool_push.
    erewrite bind_Ret
      by (apply malloc_Ret; [ eassumption | unfold sizeof_AutoreleasePool, PTRDIFF_MAX; lia ]).
    mstep set_count_Ret.
    mstep set_capacity_Ret.
    mstep load_pool_Ret.
    erewrite bind_Ret by (unfold malloc; cbn [alloc_budget]; reflexivity).
    mstep set_objects_Ret.
    unfold fprintf_stderr. mstep log_event_Ret.
    mstep free_Ret. reflexivity.
Qed.

Lemma autorelease_all_snoc l x s :
  autorelease_all (l ++ [x]) s = (autorelease_all l;; autorelease_add x) s.
Proof.
  revert s. induction l as [|o l IH]; intros s; simpl.
  - unfold mbind, M_bind, bind, mret, M_ret, ret.
    destruct (autorelease_add x s) as [[] ?| |]; reflexivity.
  - unfold mbind, M_bind, bind in *.
    destruct (autorelease_add o s) as [[] s1| |]; try reflexivity.
    apply IH.
Qed.

Lemma bind_Ret_inv {A B} (m : M A) (k : A -> M B) s b s' :
  (x ← m; k x) s = Ret b s' -> exists a s1, m s = Ret a s1 /\ k a s1 = Ret b s'.
Proof.
  unfold mbind, M_bind, bind. destruct (m s) as [a s1| |]; try discriminate.
  intros H. exists a, s1. split; [ reflexivity | exact H ].
Qed.

(** Registrations, one after the other, in a pool that has just been
    pushed. *)
Lemma autorelease_all_fresh_pool s1 p objs :
  pool_inv s1 p [] 16 ->
  forall s2, autorelease_all objs s1 = Ret tt s2 ->
  pool_inv s2 p objs (capacity_after (length objs)) /\
  trace s2 = trace s1 /\
  same_outside_pool (heap s1) (heap s2) p.
Proof.
  intros Hinv. induction objs as [|x l IH] using rev_ind; intros s2 Hrun.
  - simpl in Hrun. inversion Hrun; subst. split; [ exact Hinv | split; [ reflexivity | ] ].
    destruct Hinv as (_ & pl & arr & cells & [Hp Ho _ _ _ _] & _).
    exists arr, arr. repeat split; now apply pool_array_lookup with pl.
  - rewrite autorelease_all_snoc in Hrun.
    apply bind_Ret_inv in Hrun as ([] & sm & Hl & Hx).
    destruct (IH sm Hl) as (Hm & Htr & Hframe).
    destruct (autorelease_add_outcome sm p l _ x Hm)
      as [(s' & He & _) | (s' & Hr & Hinv' & Htr' & Hframe' & _)].
    { rewrite He in Hx. discriminate. }
    rewrite Hr in Hx. inversion Hx; subst s'.
    rewrite length_app, Nat.add_1_r. cbn [capacity_after].
    split; [ exact Hinv' | split; [ congruence | ] ].
    destruct Hframe as (a1 & a2 & H1 & H2 & H3).
    destruct Hframe' as (a2' & a3 & H2' & H3' & H4).
    rewrite H2 in H2'. inversion H2'; subst a2'.
    exists a1, a3. repeat split; try assumption. congruence.
Qed.

(** C8: a pool is pushed (initial capacity 16) and [k] objects [objs] are
    registered one after the other, all registrations returning (none ends
    in the exit of a refused allocation).  Then the pool's object list is
    exactly [objs] in registration order, whatever [k] is; its capacity is
    16 doubled once for each registration that found the list full, and equals
    the size of its array. *)
Theorem registrations_preserved_by_growth (s s1 s2 : State) (objs : list ptr) :
  autorelease_pool_push s = Ret tt s1 ->
  autorelease_all objs s1 = Ret tt s2 ->
  exists p pl,
    current_autorelease_pool s2 = Addr p /\
    pool_objects (heap s2) p = Some objs /\
    heap s2 !! p = Some (BPool pl) /\
    count pl = Z.of_nat (length objs) /\
    capacity pl = capacity_after (length objs) /\
    pool_sized (heap s2) p = true.
Proof.
  intros Hpush Hrun.
  destruct (le_lt_dec 2 (alloc_budget s)) as [Hb | Hb].
  2:{ destruct (autorelease_pool_push_Exit s Hb) as [s' He]. congruence. }
  destruct (alloc_budget s) as [|[|n]] eqn:E; [ lia | lia | ].
  destruct (autorelease_pool_push_inv s n E) as (p & s1' & Hp & Hinv & _).
  rewrite Hp in Hpush. inversion Hpush; subst s1'.
  destruct (autorelease_all_fresh_pool s1 p objs Hinv s2 Hrun) as (Hinv2 & _ & _).
  pose proof (pool_inv_elim _ _ _ _ Hinv2) as (Hcur & Hobjs & Hsz).
  destruct Hinv2 as (_ & pl & arr & cells & [Hpl Ho Ha Hc Ht Hsize] & Hcap & _).
  exists p, pl. repeat split; assumption.
Qed.

Lemma can_register_inv s p objs cap :
  pool_inv s p objs cap -> can_register s p = true ->
  Z.of_nat (length objs) < cap \/
  (alloc_budget s <> O /\ cap * 2 * sizeof_pointer <= PTRDIFF_MAX).
Proof.
  intros (_ & pl & arr & cells & [Hp Ho Ha Hc Ht Hsize] & Hcap & _) Hcan.
  unfold can_register in Hcan. rewrite Hp in Hcan.
  apply orb_prop in Hcan as [H | H].
  - left. apply Z.ltb_lt in H. lia.
  - right. apply andb_prop in H as [H1 H2]. apply Z.leb_le in H2.
    split; [ | lia ]. intros E. rewrite E in H1. discriminate.
Qed.

(** C7: [arc_autorelease(obj)] returns [obj].  With no pool the state gains
    one diagnostic line and nothing else.  With a current pool that holds
    [objs] and can take one more object, the pool holds [objs ++ [obj]]
    afterwards; the trace and the current-pool slot are unchanged, the heap
    is unchanged outside the pool and its array, and so every object header
    (the count and the destructor of [obj] among them) is as before. *)
Theorem arc_autorelease_returns_obj (obj : ptr) (s : State) :
  (current_autorelease_pool s = NULL ->
   arc_autorelease obj s = Ret obj (add_event (EvStderr no_pool_message) s)) /\
  (forall p objs,
     current_autorelease_pool s = Addr p ->
     pool_objects (heap s) p = Some objs ->
     pool_sized (heap s) p = true ->
     can_register s p = true ->
     exists s',
       arc_autorelease obj s = Ret obj s' /\
       current_autorelease_pool s' = Addr p /\
       pool_objects (heap s') p = Some (objs ++ [obj]) /\
       pool_sized (heap s') p = true /\
       trace s' = trace s /\
       same_outside_pool (heap s) (heap s') p /\
       (forall a b, heap s !! a = Some b -> is_Some (header_of b) ->
                    heap s' !! a = Some b)).
Proof.
  split.
  - intros Hn. unfold arc_autorelease, autorelease_add.
    unfold mbind, M_bind, bind, get_state. now rewrite Hn.
  - intros p objs Hcur Hobjs Hsz Hcan.
    destruct (pool_inv_intro s p objs Hcur Hobjs Hsz) as [cap Hinv].
    pose proof (can_register_inv _ _ _ _ Hinv Hcan) as Hroom.
    destruct (autorelease_add_outcome s p objs cap obj Hinv)
      as [(s' & He & Hfull & Hno) | (s' & Hr & Hinv' & Htr & Hframe & _)].
    { exfalso. destruct Hroom as [? | [? ?]]; [ lia | destruct Hno; [ contradiction | lia ] ]. }
    pose proof (pool_inv_elim _ _ _ _ Hinv') as (Hcur' & Hobjs' & Hsz').
    exists s'. split; [ unfold arc_autorelease; now rewrite (bind_Ret _ _ _ _ _ Hr) | ].
    repeat (split; [ assumption | ]).
    intros a b Hab [o Hob].
    destruct Hframe as (arr & arr' & H1 & H2 & Heq).
    destruct Hinv as (_ & pl & arr0 & cells & [Hp Ho Ha _ _ _] & _).
    rewrite (pool_array_lookup _ _ _ _ Hp Ho) in H1. inversion H1; subst arr0.
    assert (a <> p) by (intros ->; rewrite Hp in Hab; inversion Hab; subst; discriminate).
    assert (a <> arr) by (intros ->; rewrite Ha in Hab; inversion Hab; subst; discriminate).
    pose proof (f_equal (fun m => m !! a) Heq) as E. cbv beta in E.
    rewrite (lookup_delete_ne (delete arr (heap s))),
            (lookup_delete_ne (heap s)), Hab in E by congruence.
    rewrite lookup_delete_ne in E by congruence.
    destruct (decide (a = arr')) as [-> | Hna].
    + rewrite lookup_delete_eq in E. discriminate.
    + now rewrite lookup_delete_ne in E by congruence.
Qed.

(** ** Pop *)

Lemma release_events_chunk h o : release_chunk o (release_events h o).
Proof.
  unfold release_chunk, release_events. destruct o as [|a]; [ now left | ].
  destruct (h !! a) as [b|]; [ | now left ].
  destruct (header_of b) as [hdr|]; [ | now left ].
  destruct (wrap_int (ref_count hdr - 1) <=? 0); [ | now left ].
  destruct (dealloc hdr) as [f|]; [ right; eauto | now left ].
Qed.

Lemma entry_ok_Addr h objs a :
  entry_ok h objs (Addr a) = true ->
  exists b hdr,
    h !! a = Some b /\ header_of b = Some hdr /\
    (forall f, dealloc hdr = Some f ->
       Z.of_nat (count_occ ptr_eq_dec objs (Addr a)) <= ref_count hdr <= INT_MAX /\
       destructor_fits h f b = true).
Proof.
  unfold entry_ok. destruct (h !! a) as [b|]; [ | discriminate ].
  destruct (header_of b) as [hdr|] eqn:Hh; [ | discriminate ].
  intros H. exists b, hdr. split; [ reflexivity | split; [ exact Hh | ] ].
  intros f Hf. rewrite Hf in H.
  apply andb_prop in H as [H H3]. apply andb_prop in H as [H1 H2].
  apply Z.leb_le in H1. apply Z.leb_le in H2. repeat split; assumption.
Qed.

(** [arc_release] on an entry that can be released. *)
Lemma arc_release_Ret objs o s :
  entry_ok (heap s) objs o = true ->
  arc_release o s =
  Ret tt (mkState (heap_after_release (heap s) o) (current_autorelease_pool s)
                  (trace s ++ release_events (heap s) o) (alloc_budget s)).
Proof.
  intros Hok. destruct o as [|a]; [ reflexivity | ].
  apply entry_ok_Addr in Hok as (b & hdr & Hb & Hh & Hd).
  unfold heap_after_release, release_events. rewrite Hb, Hh.
  rewrite (arc_release_unfold _ _ _ _ Hb Hh).
  destruct (Z.leb_spec (wrap_int (ref_count hdr - 1)) 0) as [Hz | Hz]; [ | reflexivity ].
  destruct (dealloc hdr) as [f|] eqn:Hf;
    [ | unfold released_state; rewrite Hf; reflexivity ].
  destruct (Hd f eq_refl) as [_ Hfit].
  erewrite call_dealloc_Ret;
    [ | cbn; apply lookup_insert_eq
      | cbn; now apply destructor_fits_with_header with hdr ].
  cbn. rewrite <- app_assoc. rewrite Hf. reflexivity.
Qed.

Lemma releasable_spec h objs : releasable h objs = true <-> Releasable h objs.
Proof.
  unfold releasable, Releasable, buffers_separate. rewrite andb_true_iff, !forallb_forall.
  split; intros [H1 H2]; (split; [ exact H1 | ]).
  - intros o1 o2 c Hi1 Hi2 Hb1 Hb2.
    specialize (H2 o1 Hi1). rewrite forallb_forall in H2. specialize (H2 o2 Hi2).
    rewrite Hb1, Hb2 in H2. apply bool_decide_eq_true in H2. destruct H2; congruence.
  - intros o1 Hi1. apply forallb_forall. intros o2 Hi2.
    destruct (own_buffer h o1) as [c1|] eqn:E1; [ | reflexivity ].
    destruct (own_buffer h o2) as [c2|] eqn:E2; [ | reflexivity ].
    apply bool_decide_eq_true. destruct (decide (c1 = c2)) as [-> | Hne]; [ | now left ].
    right. now apply (H2 o1 o2 c2).
Qed.

Lemma destructor_fits_buffers h h' f b :
  (forall c t, h !! c = Some (BChars t) ->
     (forall t0, b = BString t0 -> f = TroveString_dealloc_fn -> str t0 = Addr c ->
                 h' !! c = Some (BChars t))) ->
  destructor_fits h f b = true -> destructor_fits h' f b = true.
Proof.
  intros Hbuf Hf. destruct f as [|id]; [ | reflexivity ].
  destruct b as [|t0| | |]; try discriminate. simpl in *.
  destruct (str t0) as [|c] eqn:Hs; [ reflexivity | ].
  destruct (h !! c) as [[| | | |t]|] eqn:Hc; try discriminate.
  now rewrite (Hbuf c t Hc t0 eq_refl eq_refl Hs).
Qed.

Lemma own_buffer_with_header h a b hdr rc x :
  h !! a = Some b -> header_of b = Some hdr ->
  own_buffer (<[a := with_header (mkARCObject rc (dealloc hdr)) b]> h) x = own_buffer h x.
Proof.
  intros Hb Hh. destruct x as [|a2]; [ reflexivity | ]. unfold own_buffer.
  destruct (decide (a2 = a)) as [-> | Hne].
  - rewrite lookup_insert_eq, Hb.
    destruct b as [o|t| | |]; simpl in *; try reflexivity; try discriminate.
    inversion Hh; subst. reflexivity.
  - now rewrite lookup_insert_ne by congruence.
Qed.

Lemma own_buffer_block h a b c :
  h !! a = Some b -> own_buffer h (Addr a) = Some c ->
  exists t, b = BString t /\ dealloc (base t) = Some TroveString_dealloc_fn /\ str t = Addr c.
Proof.
  unfold own_buffer. intros ->. destruct b as [|t| | |]; try discriminate.
  destruct (dealloc (base t)) as [[|]|] eqn:Hd; try discriminate.
  destruct (str t) as [|c0] eqn:Hs; try discriminate.
  intros [= ->]. eauto.
Qed.

Lemma count_occ_pos (l : list ptr) (o : ptr) :
  In o l -> (1 <= count_occ ptr_eq_dec l o)%nat.
Proof. intros H. apply (count_occ_In ptr_eq_dec) in H. lia. Qed.

(** After the release of the first pending entry, the others can still be
    released. *)
Lemma Releasable_step h o rest :
  Releasable h (o :: rest) -> Releasable (heap_after_release h o) rest.
Proof.
  intros [Hok Hsep].
  assert (Hsep' : forall o1 o2 c, In o1 rest -> In o2 rest ->
            own_buffer h o1 = Some c -> own_buffer h o2 = Some c -> o1 = o2).
  { intros o1 o2 c H1 H2. apply Hsep; now right. }
  destruct o as [|a].
  { (* a null entry *)
    simpl. split; [ | exact Hsep' ].
    intros x Hx. specialize (Hok x (or_intror Hx)).
    destruct x as [|a2]; [ reflexivity | ].
    unfold entry_ok in *. simpl count_occ in Hok.
    destruct (ptr_eq_dec NULL (Addr a2)); [ discriminate | exact Hok ]. }
  pose proof (Hok (Addr a) (or_introl eq_refl)) as Ha.
  apply entry_ok_Addr in Ha as (b & hdr & Hb & Hh & Hd).
  assert (Hocc : (1 <= count_occ ptr_eq_dec (Addr a :: rest) (Addr a))%nat)
    by (apply count_occ_pos; now left).
  assert (Hcons : count_occ ptr_eq_dec (Addr a :: rest) (Addr a)
                  = S (count_occ ptr_eq_dec rest (Addr a)))
    by (apply count_occ_cons_eq; reflexivity).
  set (b' := with_header (mkARCObject (wrap_int (ref_count hdr - 1)) (dealloc hdr)) b).
  assert (Hh' : header_of b' = Some (mkARCObject (wrap_int (ref_count hdr - 1)) (dealloc hdr)))
    by (now apply header_of_with_header with hdr).
  (* the entries other than the one released *)
  assert (Hother : forall a2, a2 <> a -> In (Addr a2) rest ->
            count_occ ptr_eq_dec rest (Addr a2)
            = count_occ ptr_eq_dec (Addr a :: rest) (Addr a2)).
  { intros a2 Hne _. symmetry. apply count_occ_cons_neq. congruence. }
  destruct (decide (wrap_int (ref_count hdr - 1) <= 0 /\ is_Some (dealloc hdr)))
    as [[Hz [f Hf]] | Hkeep].
  - (* the object is destroyed *)
    destruct (Hd f Hf) as [[Hlo Hhi] Hfit].
    assert (Hrc : ref_count hdr = 1).
    { rewrite wrap_int_id in Hz by (unfold in_int_range, INT_MIN, INT_MAX in *; lia). lia. }
    assert (Hnotin : ~ In (Addr a) rest).
    { intros Hin. apply count_occ_pos in Hin. lia. }
    assert (Hh2 : heap_after_release h (Addr a) = heap_after_dealloc h f a).
    { unfold heap_after_release. rewrite Hb, Hh, Hf.
      destruct (Z.leb_spec (wrap_int (ref_count hdr - 1)) 0); [ | lia ].
      now apply heap_after_dealloc_with_header with hdr. }
    rewrite Hh2.
    (* blocks with a header, other than [a], are untouched *)
    assert (Hobj : forall a2 b2, a2 <> a -> h !! a2 = Some b2 -> is_Some (header_of b2) ->
              heap_after_dealloc h f a !! a2 = Some b2).
    { intros a2 b2 Hne H2 [o2 Ho2]. unfold heap_after_dealloc. rewrite Hb.
      destruct f as [|id]; [ | now rewrite lookup_delete_ne by congruence ].
      destruct b as [|t| | |]; try (now rewrite lookup_delete_ne by congruence).
      simpl in Hfit. destruct (str t) as [|c]; [ now rewrite lookup_delete_ne by congruence | ].
      destruct (h !! c) as [[| | | |tx]|] eqn:Hc; try discriminate.
      assert (a2 <> c) by (intros ->; rewrite Hc in H2; inversion H2; subst; discriminate).
      now rewrite !lookup_delete_ne by congruence. }
    (* character buffers, other than the one owned by [a], are untouched *)
    assert (Hbuf : forall c t, h !! c = Some (BChars t) ->
              own_buffer h (Addr a) <> Some c ->
              heap_after_dealloc h f a !! c = Some (BChars t)).
    { intros c t Hc Hown. unfold heap_after_dealloc. rewrite Hb.
      assert (c <> a) by (intros ->; rewrite Hb in Hc; inversion Hc; subst; discriminate).
      destruct f as [|id]; [ | now rewrite lookup_delete_ne by congruence ].
      destruct b as [|t0| | |]; try (now rewrite lookup_delete_ne by congruence).
      destruct (str t0) as [|c0] eqn:Hs; [ now rewrite lookup_delete_ne by congruence | ].
      assert (c <> c0).
      { intros ->. apply Hown. unfold own_buffer. rewrite Hb.
        simpl in Hh. inversion Hh; subst hdr. now rewrite Hf, Hs. }
      now rewrite !lookup_delete_ne by congruence. }
    assert (Hown : forall x, In x rest ->
              own_buffer (heap_after_dealloc h f a) x = own_buffer h x).
    { intros [|a2] Hx; [ reflexivity | ].
      assert (a2 <> a) by (intros ->; contradiction).
      pose proof (Hok (Addr a2) (or_intror Hx)) as H2.
      apply entry_ok_Addr in H2 as (b2 & hdr2 & Hb2 & Hh2' & _).
      unfold own_buffer. now rewrite Hb2, (Hobj a2 b2) by eauto. }
    split.
    + intros x Hx. destruct x as [|a2]; [ reflexivity | ].
      assert (Hne : a2 <> a) by (intros ->; contradiction).
      pose proof (Hok (Addr a2) (or_intror Hx)) as H2.
      pose proof H2 as H2'.
      apply entry_ok_Addr in H2' as (b2 & hdr2 & Hb2 & Hh2' & Hd2).
      unfold entry_ok in *. rewrite Hb2, Hh2' in H2.
      rewrite (Hobj a2 b2) by eauto. rewrite Hh2'.
      destruct (dealloc hdr2) as [f2|] eqn:Hf2; [ | reflexivity ].
      rewrite (Hother a2 Hne Hx).
      apply andb_prop in H2 as [H2 Hfit2]. rewrite H2. simpl.
      apply destructor_fits_buffers with h; [ | exact Hfit2 ].
      intros c t Hc t0 -> -> Hs. apply Hbuf; [ exact Hc | ].
      intros Hown2.
      assert (Hown3 : own_buffer h (Addr a2) = Some c).
      { unfold own_buffer. rewrite Hb2. simpl in Hh2'. inversion Hh2'; subst hdr2.
        now rewrite Hf2, Hs. }
      assert (E : Addr a = Addr a2)
        by (apply (Hsep _ _ c); [ now left | now right | assumption | assumption ]).
      congruence.
    + intros o1 o2 c H1 H2. rewrite (Hown o1 H1), (Hown o2 H2). now apply Hsep'.
  - (* the object is kept *)
    assert (Hh2 : heap_after_release h (Addr a) = <[a := b']> h).
    { unfold heap_after_release. rewrite Hb, Hh. cbv zeta. fold b'.
      destruct (Z.leb_spec (wrap_int (ref_count hdr - 1)) 0) as [Hz|]; [ | reflexivity ].
      destruct (dealloc hdr) as [f|] eqn:Hf; [ | reflexivity ].
      exfalso. apply Hkeep. split; [ exact Hz | eauto ]. }
    rewrite Hh2.
    assert (Hfits : forall f2 b2, destructor_fits h f2 b2 = true ->
              destructor_fits (<[a := b']> h) f2 b2 = true).
    { intros f2 b2. apply destructor_fits_buffers.
      intros c t Hc _ _ _ _.
      assert (c <> a) by (intros ->; rewrite Hb in Hc; inversion Hc; subst; discriminate).
      now rewrite lookup_insert_ne by congruence. }
    split.
    + intros x Hx. destruct x as [|a2]; [ reflexivity | ].
      pose proof (Hok (Addr a2) (or_intror Hx)) as H2.
      destruct (decide (a2 = a)) as [-> | Hne].
      * unfold entry_ok. rewrite lookup_insert_eq, Hh'. cbn [dealloc ref_count].
        destruct (dealloc hdr) as [f|] eqn:Hf; [ | reflexivity ].
        destruct (Hd f eq_refl) as [[Hlo Hhi] Hfit].
        assert (Hw : wrap_int (ref_count hdr - 1) = ref_count hdr - 1)
          by (apply wrap_int_id; unfold in_int_range, INT_MIN, INT_MAX in *; lia).
        rewrite Hw.
        apply andb_true_intro. split; [ apply andb_true_intro; split | ].
        -- apply Z.leb_le. lia.
        -- apply Z.leb_le. lia.
        -- subst b'. now apply destructor_fits_with_header with hdr.
      * pose proof H2 as H2'.
        apply entry_ok_Addr in H2' as (b2 & hdr2 & Hb2 & Hh2' & Hd2).
        unfold entry_ok in *. rewrite lookup_insert_ne by congruence.
        rewrite Hb2, Hh2' in *.
        destruct (dealloc hdr2) as [f2|] eqn:Hf2; [ | reflexivity ].
        rewrite (Hother a2 Hne Hx).
        apply andb_prop in H2 as [H2 Hfit2]. rewrite H2. simpl.
        now apply Hfits.
    + intros o1 o2 c H1 H2. subst b'.
      rewrite !(own_buffer_with_header h a b hdr) by assumption. now apply Hsep'.
Qed.

(** A release touches objects and the character buffers they own: a pool
    and an array of pointers are left as they are. *)
Lemma heap_after_release_frame h objs o x b :
  entry_ok h objs o = true ->
  h !! x = Some b -> header_of b = None -> (forall t, b <> BChars t) ->
  heap_after_release h o !! x = Some b.
Proof.
  intros Hok Hx Hnh Hnc. destruct o as [|a]; [ exact Hx | ].
  apply entry_ok_Addr in Hok as (b0 & hdr & Hb & Hh & Hd).
  assert (Hne : x <> a) by (intros ->; congruence).
  unfold heap_after_release. rewrite Hb, Hh. cbv zeta.
  set (b' := with_header _ b0).
  assert (Hkeep : <[a := b']> h !! x = Some b) by (now rewrite lookup_insert_ne by congruence).
  destruct (wrap_int (ref_count hdr - 1) <=? 0); [ | exact Hkeep ].
  destruct (dealloc hdr) as [f|] eqn:Hf; [ | exact Hkeep ].
  destruct (Hd f eq_refl) as [_ Hfit].
  unfold heap_after_dealloc. rewrite lookup_insert_eq.
  destruct f as [|id]; [ | now rewrite lookup_delete_ne by congruence ].
  destruct b0 as [|t| | |]; try discriminate. subst b'. simpl in *.
  destruct (str t) as [|c]; [ now rewrite lookup_delete_ne by congruence | ].
  destruct (h !! c) as [[| | | |tx]|] eqn:Hc; try discriminate.
  assert (x <> c) by (intros ->; rewrite Hc in Hx; inversion Hx; subst; now apply (Hnc tx)).
  now rewrite !lookup_delete_ne by congruence.
Qed.

Lemma foldl_release_frame objs : forall h x b,
  Releasable h objs ->
  h !! x = Some b -> header_of b = None -> (forall t, b <> BChars t) ->
  foldl heap_after_release h objs !! x = Some b.
Proof.
  induction objs as [|o rest IH]; intros h x b HR Hx Hnh Hnc; [ exact Hx | ].
  simpl. apply IH; try assumption.
  - now apply Releasable_step.
  - apply heap_after_release_frame with (o :: rest); try assumption.
    apply HR. now left.
Qed.

(** The loop of [autorelease_pool_pop] from index [length pre], with the
    entries [rest] still to release. *)
Lemma pop_loop_spec p pl arr cells :
  objects pl = Addr arr -> count pl <= SIZE_MAX ->
  forall rest pre s fuel,
    heap s !! p = Some (BPool pl) ->
    heap s !! arr = Some (BArray cells) ->
    take (length (pre ++ rest)) cells = Some <$> (pre ++ rest) ->
    count pl = Z.of_nat (length (pre ++ rest)) ->
    Releasable (heap s) rest ->
    (length rest <= fuel)%nat ->
    pop_loop fuel p (Z.of_nat (length pre)) s =
    Ret tt (mkState (foldl heap_after_release (heap s) rest) (current_autorelease_pool s)
                    (trace s ++ release_trace (heap s) rest) (alloc_budget s)).
Proof.
  intros Ho Hsize. induction rest as [|o rest IH]; intros pre s fuel Hp Ha Ht Hc HR Hfuel.
  - rewrite app_nil_r in Hc.
    assert (Hnot : (Z.of_nat (length pre) <? count pl) = false) by (apply Z.ltb_ge; lia).
    assert (Hs : Ret tt s = Ret tt (mkState (heap s) (current_autorelease_pool s)
                                     (trace s ++ []) (alloc_budget s) : State))
      by (rewrite app_nil_r; now destruct s).
    destruct fuel; simpl pop_loop;
      rewrite (bind_Ret _ _ _ _ _ (load_pool_Ret _ _ _ Hp)), Hnot; exact Hs.
  - destruct fuel as [|fuel]; [ simpl in Hfuel; lia | ].
    rewrite length_app in Hc. simpl in Hc, Hfuel.
    simpl pop_loop.
    rewrite (bind_Ret _ _ _ _ _ (load_pool_Ret _ _ _ Hp)).
    assert (Hlt : (Z.of_nat (length pre) <? count pl) = true) by (apply Z.ltb_lt; lia).
    rewrite Hlt, Ho.
    assert (Hcell : cells !! Z.to_nat (Z.of_nat (length pre)) = Some (Some o)).
    { rewrite Nat2Z.id.
      rewrite <- (lookup_take_lt cells (length (pre ++ o :: rest))) 
        by (rewrite length_app; simpl; lia).
      rewrite Ht, list_lookup_fmap, list_lookup_middle by reflexivity. reflexivity. }
    rewrite (bind_Ret _ _ _ _ _ (load_cell_Ret _ _ _ _ _ Ha Hcell)).
    assert (Hok : entry_ok (heap s) (o :: rest) o = true) by (apply HR; now left).
    rewrite (bind_Ret _ _ _ _ _ (arc_release_Ret _ _ _ Hok)).
    rewrite wrap_size_id by lia.
    replace (Z.of_nat (length pre) + 1) with (Z.of_nat (length (pre ++ [o])))
      by (rewrite length_app; simpl; lia).
    rewrite IH; cbn [heap trace current_autorelease_pool alloc_budget].
    + simpl. now rewrite <- app_assoc.
    + apply heap_after_release_frame with (o :: rest); try assumption; [ reflexivity | discriminate ].
    + apply heap_after_release_frame with (o :: rest); try assumption; [ reflexivity | discriminate ].
    + now rewrite <- app_assoc.
    + rewrite <- app_assoc, length_app. simpl. lia.
    + now apply Releasable_step.
    + lia.
Qed.

Lemma autorelease_pool_pop_NULL s :
  current_autorelease_pool s = NULL -> autorelease_pool_pop s = Ret tt s.
Proof.
  intros H. unfold autorelease_pool_pop.
  rewrite (bind_Ret _ _ _ _ _ (get_state_Ret s)). now rewrite H.
Qed.

(** [autorelease_pool_pop] on a pool whose entries can be released. *)
Lemma autorelease_pool_pop_Ret s p objs pl arr cells :
  current_autorelease_pool s = Addr p ->
  pool_rep (heap s) p objs pl arr cells ->
  Releasable (heap s) objs ->
  autorelease_pool_pop s =
  Ret tt (mkState (delete p (delete arr (foldl heap_after_release (heap s) objs)))
                  NULL (trace s ++ release_trace (heap s) objs) (alloc_budget s)).
Proof.
  intros Hcur R HR. pose proof R as [Hp Ho Ha Hc Ht Hsize].
  assert (Hne : p <> arr) by congruence.
  unfold autorelease_pool_pop.
  rewrite (bind_Ret _ _ _ _ _ (get_state_Ret s)). rewrite Hcur.
  rewrite (bind_Ret _ _ _ _ _ (load_pool_Ret _ _ _ Hp)).
  pose proof (pop_loop_spec p pl arr cells Ho Hsize objs [] s (Z.to_nat (count pl))
                Hp Ha Ht Hc HR ltac:(lia)) as Hloop.
  change (Z.of_nat (length (@nil ptr))) with 0 in Hloop.
  rewrite (bind_Ret _ _ _ _ _ Hloop).
  assert (Hp' : foldl heap_after_release (heap s) objs !! p = Some (BPool pl))
    by (apply foldl_release_frame; try assumption; [ reflexivity | discriminate ]).
  assert (Ha' : foldl heap_after_release (heap s) objs !! arr = Some (BArray cells))
    by (apply foldl_release_frame; try assumption; [ reflexivity | discriminate ]).
  erewrite bind_Ret by (apply load_pool_Ret; exact Hp').
  rewrite Ho.
  erewrite bind_Ret by (eapply free_Ret; exact Ha').
  erewrite bind_Ret
    by (eapply free_Ret; cbn [heap set_heap]; rewrite lookup_delete_ne by congruence; exact Hp').
  reflexivity.
Qed.

Lemma release_trace_app h l1 l2 :
  release_trace h (l1 ++ l2) =
  release_trace h l1 ++ release_trace (foldl heap_after_release h l1) l2.
Proof.
  revert h. induction l1 as [|o l1 IH]; intros h; [ reflexivity | ].
  simpl. now rewrite IH, app_assoc.
Qed.

Lemma released_release_events h o : released (release_events h o) = [o].
Proof.
  destruct (release_events_chunk h o) as [-> | (f & a & -> & ->)]; reflexivity.
Qed.

(** The calls of [arc_release] are the entries, each once, in order. *)
Lemma released_release_trace objs : forall h, released (release_trace h objs) = objs.
Proof.
  induction objs as [|o rest IH]; intros h; [ reflexivity | ].
  cbn [release_trace]. now rewrite released_app, released_release_events, IH.
Qed.

(** The trace is one chunk per entry, in order. *)
Lemma release_trace_chunks objs : forall h,
  exists chunks, release_trace h objs = concat chunks /\ Forall2 release_chunk objs chunks.
Proof.
  induction objs as [|o rest IH]; intros h.
  - exists []. split; [ reflexivity | constructor ].
  - destruct (IH (heap_after_release h o)) as (chunks & E & F).
    exists (release_events h o :: chunks). split.
    + cbn [release_trace concat]. now rewrite E.
    + constructor; [ apply release_events_chunk | exact F ].
Qed.

(** The destructor calls follow the order of the entries. *)
Lemma destroyed_release_trace objs : forall h,
  (Addr <$> destroyed (release_trace h objs)) `sublist_of` objs.
Proof.
  induction objs as [|o rest IH]; intros h; [ constructor | ].
  cbn [release_trace]. rewrite destroyed_app, fmap_app.
  destruct (release_events_chunk h o) as [-> | (f & a & -> & ->)]; simpl.
  - apply sublist_cons, IH.
  - apply sublist_skip, IH.
Qed.

(** C1: the current pool holds [objs = o1..ok] (registration order) and its
    entries can be released.  Then [autorelease_pool_pop] returns; the events
    it adds to the trace are one chunk per entry, in registration order, each
    chunk being the call [arc_release(oi)] followed, when the count of [oi]
    reaches zero, by the call of its destructor on [oi]: every entry is
    released exactly once, [o1] first, and the destructors run in
    registration order.  Afterwards the heap is the one obtained by these
    releases, with the array and the pool freed, and the current-pool slot
    is null. *)
Theorem autorelease_pool_pop_releases_in_order (s : State) (p : positive) (objs : list ptr) :
  current_autorelease_pool s = Addr p ->
  pool_objects (heap s) p = Some objs ->
  releasable (heap s) objs = true ->
  exists s' arr evs,
    pool_array (heap s) p = Some arr /\
    autorelease_pool_pop s = Ret tt s' /\
    trace s' = trace s ++ evs /\
    released evs = objs /\
    (exists chunks, evs = concat chunks /\ Forall2 release_chunk objs chunks) /\
    (Addr <$> destroyed evs) `sublist_of` objs /\
    heap s' = delete p (delete arr (foldl heap_after_release (heap s) objs)) /\
    heap s' !! p = None /\
    heap s' !! arr = None /\
    current_autorelease_pool s' = NULL.
Proof.
  intros Hcur Hobjs HR.
  apply pool_objects_rep in Hobjs as (pl & arr & cells & R).
  apply releasable_spec in HR.
  pose proof R as [Hp Ho Ha Hc Ht Hsize].
  eexists _, arr, (release_trace (heap s) objs).
  split; [ now apply pool_array_lookup with pl | ].
  split; [ exact (autorelease_pool_pop_Ret s p objs pl arr cells Hcur R HR) | ].
  cbn [heap trace current_autorelease_pool].
  split; [ reflexivity | ].
  split; [ apply released_release_trace | ].
  split; [ apply release_trace_chunks | ].
  split; [ apply destroyed_release_trace | ].
  split; [ reflexivity | ].
  split; [ apply lookup_delete_eq | ].
  split; [ | reflexivity ].
  destruct (decide (arr = p)) as [-> | Hne]; [ apply lookup_delete_eq | ].
  rewrite lookup_delete_ne by congruence. apply lookup_delete_eq.
Qed.

(** Pool ordering on three strings: A, B and C are created and autoreleased
    in that order; the pop destroys A, then B, then C. *)
Example pop_destroys_A_B_C :
  exists a b c s',
    (autorelease_pool_push;;
     a ← String_macro (Some "A"); b ← String_macro (Some "B"); c ← String_macro (Some "C");
     autorelease_pool_pop;;
     mret (a, b, c)) (mkState ∅ NULL [] 8) = Ret (Addr a, Addr b, Addr c) s' /\
    destroyed (trace s') = [a; b; c] /\
    released (trace s') = [Addr a; Addr b; Addr c] /\
    heap s' = ∅ /\
    current_autorelease_pool s' = NULL.
Proof. eexists _, _, _, _. vm_compute. repeat split; reflexivity. Qed.

(** ** A null entry *)

Lemma same_outside_pool_lookup (h h' : gmap positive block) p arr arr' x b :
  delete p (delete arr' h') = delete p (delete arr h) ->
  h !! x = Some b -> x <> p -> x <> arr -> h' !! x = Some b.
Proof.
  intros Heq Hx Hp Ha.
  pose proof (f_equal (fun m => m !! x) Heq) as E. cbv beta in E.
  rewrite (lookup_delete_ne (delete arr h)), (lookup_delete_ne h), Hx in E by congruence.
  rewrite lookup_delete_ne in E by congruence.
  destruct (decide (x = arr')) as [-> | Hna].
  - rewrite lookup_delete_eq in E. discriminate.
  - now rewrite lookup_delete_ne in E by congruence.
Qed.

(** Registering a null pointer in a pool whose entries can be released
    leaves them so. *)
Lemma Releasable_register_NULL s s' p objs cap cap' :
  pool_inv s p objs cap -> pool_inv s' p (objs ++ [NULL]) cap' ->
  same_outside_pool (heap s) (heap s') p ->
  Releasable (heap s) objs -> Releasable (heap s') (objs ++ [NULL]).
Proof.
  intros (_ & pl & arr & cells & [Hp Ho Ha _ _ _] & _)
         (_ & pl' & arr' & cells' & [Hp' Ho' Ha' _ _ _] & _)
         (arr0 & arr0' & H1 & H2 & Heq) [Hok Hsep].
  rewrite (pool_array_lookup _ _ _ _ Hp Ho) in H1. inversion H1; subst arr0.
  rewrite (pool_array_lookup _ _ _ _ Hp' Ho') in H2. inversion H2; subst arr0'.
  assert (Hfwd : forall x b, heap s !! x = Some b ->
            (is_Some (header_of b) \/ exists t, b = BChars t) -> heap s' !! x = Some b).
  { intros x b Hx Hb.
    apply (same_outside_pool_lookup (heap s) (heap s') p arr arr'); try assumption.
    - intros ->. rewrite Hp in Hx. inversion Hx; subst.
      destruct Hb as [[? ?] | [? ?]]; discriminate.
    - intros ->. rewrite Ha in Hx. inversion Hx; subst.
      destruct Hb as [[? ?] | [? ?]]; discriminate. }
  assert (Hbwd : forall x b, heap s' !! x = Some b -> is_Some (header_of b) ->
            heap s !! x = Some b).
  { intros x b Hx [o Hb].
    apply (same_outside_pool_lookup (heap s') (heap s) p arr' arr); try assumption.
    - now symmetry.
    - intros ->. rewrite Hp' in Hx. inversion Hx; subst. discriminate.
    - intros ->. rewrite Ha' in Hx. inversion Hx; subst. discriminate. }
  assert (Hown : forall x c, own_buffer (heap s') x = Some c -> own_buffer (heap s) x = Some c).
  { intros [|a] c; [ discriminate | ]. unfold own_buffer.
    destruct (heap s' !! a) as [[|t| | |]|] eqn:E; try discriminate.
    now rewrite (Hbwd a (BString t) E) by (simpl; eauto). }
  split.
  - intros x Hx. apply in_app_or in Hx as [Hx | [<- | []]]; [ | reflexivity ].
    destruct x as [|a]; [ reflexivity | ].
    pose proof (Hok _ Hx) as H. pose proof H as H'.
    apply entry_ok_Addr in H' as (b & hdr & Hb & Hh & Hd).
    unfold entry_ok in *. rewrite Hb, Hh in H.
    rewrite (Hfwd a b Hb) by (left; eauto). rewrite Hh.
    destruct (dealloc hdr) as [f|]; [ | reflexivity ].
    rewrite count_occ_app. simpl count_occ at 2.
    destruct (ptr_eq_dec NULL (Addr a)); [ discriminate | ].
    rewrite Nat.add_0_r.
    apply andb_prop in H as [H Hfit]. rewrite H. simpl.
    apply destructor_fits_buffers with (heap s); [ | exact Hfit ].
    intros c t Hc _ _ _ _. apply Hfwd; [ exact Hc | right; eauto ].
  - intros o1 o2 c Hi1 Hi2 Hb1 Hb2.
    apply in_app_or in Hi1 as [Hi1 | [<- | []]]; [ | discriminate ].
    apply in_app_or in Hi2 as [Hi2 | [<- | []]]; [ | discriminate ].
    apply (Hsep o1 o2 c); auto.
Qed.

(** C10: with a current pool whose entries [objs] can be released and which
    can take one more object, [arc_autorelease(NULL)] returns [NULL] and the
    pool holds [objs ++ [NULL]]; [arc_release(NULL)] only returns (the state
    changes by the record of the call); the pop that follows returns, and
    after the events of the entries [objs] the trace ends with the single
    event of the call [arc_release(NULL)]: no destructor is invoked for the
    null entry and nothing faults. *)
Theorem null_through_pool (s : State) (p : positive) (objs : list ptr) :
  current_autorelease_pool s = Addr p ->
  pool_objects (heap s) p = Some objs ->
  pool_sized (heap s) p = true ->
  can_register s p = true ->
  releasable (heap s) objs = true ->
  exists s1 s2 evs,
    arc_autorelease NULL s = Ret NULL s1 /\
    pool_objects (heap s1) p = Some (objs ++ [NULL]) /\
    (forall st, arc_release NULL st = Ret tt (add_event (EvRelease NULL) st)) /\
    autorelease_pool_pop s1 = Ret tt s2 /\
    trace s2 = trace s ++ evs ++ [EvRelease NULL] /\
    released evs = objs /\
    destroyed (trace s2) = destroyed (trace s ++ evs) /\
    current_autorelease_pool s2 = NULL.
Proof.
  intros Hcur Hobjs Hsz Hcan HR.
  destruct (pool_inv_intro s p objs Hcur Hobjs Hsz) as [cap Hinv].
  pose proof (can_register_inv _ _ _ _ Hinv Hcan) as Hroom.
  destruct (autorelease_add_outcome s p objs cap NULL Hinv)
    as [(s' & He & Hfull & Hno) | (s1 & Hr & Hinv1 & Htr & Hframe & _)].
  { exfalso. destruct Hroom as [? | [? ?]]; [ lia | destruct Hno; [ contradiction | lia ] ]. }
  apply releasable_spec in HR.
  pose proof (Releasable_register_NULL _ _ _ _ _ _ Hinv Hinv1 Hframe HR) as HR1.
  pose proof (pool_inv_elim _ _ _ _ Hinv1) as (Hcur1 & Hobjs1 & _).
  pose proof Hobjs1 as Hrep. apply pool_objects_rep in Hrep as (pl1 & arr1 & cells1 & R1).
  pose proof (autorelease_pool_pop_Ret s1 p _ pl1 arr1 cells1 Hcur1 R1 HR1) as Hpop.
  eexists s1, _, (release_trace (heap s1) objs).
  split; [ unfold arc_autorelease; now rewrite (bind_Ret _ _ _ _ _ Hr) | ].
  split; [ exact Hobjs1 | ].
  split; [ intros st; reflexivity | ].
  split; [ exact Hpop | ].
  cbn [trace current_autorelease_pool].
  rewrite release_trace_app. cbn [release_trace release_events]. rewrite app_nil_r, Htr.
  split; [ reflexivity | ].
  split; [ apply released_release_trace | ].
  split; [ | reflexivity ].
  rewrite app_assoc, (destroyed_app _ [EvRelease NULL]). simpl. now rewrite app_nil_r.
Qed.

(** ** Nested pools *)

Lemma repeat_m_fixed n m s : m s = Ret tt s -> repeat_m n m s = Ret tt s.
Proof.
  intros H. induction n as [|n IH]; [ reflexivity | ].
  now rewrite (repeat_m_S _ _ _ _ H).
Qed.

(** A push followed at once by a pop: the new pool is created and freed,
    and the slot is left null, whatever it held before. *)
Lemma push_pop s n :
  alloc_budget s = S (S n) ->
  exists s2,
    autorelease_pool_push s = Ret tt s2 /\
    current_autorelease_pool s2 = Addr (fresh_addr s) /\
    autorelease_pool_pop s2 = Ret tt (mkState (heap s) NULL (trace s) n).
Proof.
  intros Hb.
  pose proof (autorelease_pool_push_Ret s n Hb) as Hpush. cbv zeta in Hpush.
  set (p := fresh_addr s) in *.
  set (h1 := <[p := BPool (mkAutoreleasePool NULL 0 16)]> (heap s)) in *.
  set (arr := fresh (dom h1)) in *.
  assert (Hp : heap s !! p = None) by apply fresh_addr_None.
  assert (Hfresh : h1 !! arr = None) by (apply not_elem_of_dom, is_fresh).
  assert (Hne : arr <> p) by apply fresh_ne_insert.
  assert (Harr : heap s !! arr = None).
  { subst h1. now rewrite lookup_insert_ne in Hfresh by congruence. }
  eexists. split; [ exact Hpush | ]. split; [ reflexivity | ].
  erewrite (autorelease_pool_pop_Ret _ p [] (mkAutoreleasePool (Addr arr) 0 16) arr
              (replicate 16 None)).
  - cbn [heap trace alloc_budget foldl release_trace]. rewrite app_nil_r. f_equal. f_equal.
    rewrite delete_insert_ne, delete_insert_eq by congruence.
    rewrite delete_insert_eq. subst h1.
    rewrite delete_insert_ne, delete_insert_eq by congruence.
    now rewrite (delete_id _ arr), (delete_id _ p).
  - reflexivity.
  - split; cbn [heap objects count].
    + apply lookup_insert_eq.
    + reflexivity.
    + rewrite lookup_insert_ne by congruence. apply lookup_insert_eq.
    + reflexivity.
    + reflexivity.
    + unfold SIZE_MAX. lia.
  - split; [ intros x [] | intros o1 o2 c [] ].
Qed.

(** C2: a pool is pushed and [objs] are registered in it; then a second
    pool is pushed and popped.  The slot is null afterwards, not the first
    pool; a further pop, and any number of them, changes nothing; the first
    pool is still allocated and still holds [objs], and the trace has no
    event beyond those before the first push: no object of the outer pool
    was released. *)
Theorem nested_push_pop_loses_outer_pool (s s1 : State) (objs : list ptr) :
  (autorelease_pool_push;; autorelease_all objs) s = Ret tt s1 ->
  (2 <= alloc_budget s1)%nat ->
  exists p1 s2 s3,
    current_autorelease_pool s1 = Addr p1 /\
    pool_objects (heap s1) p1 = Some objs /\
    autorelease_pool_push s1 = Ret tt s2 /\
    current_autorelease_pool s2 <> Addr p1 /\
    autorelease_pool_pop s2 = Ret tt s3 /\
    current_autorelease_pool s3 = NULL /\
    autorelease_pool_pop s3 = Ret tt s3 /\
    (forall n, repeat_m n autorelease_pool_pop s3 = Ret tt s3) /\
    heap s3 = heap s1 /\
    pool_objects (heap s3) p1 = Some objs /\
    trace s3 = trace s.
Proof.
  intros Hrun Hb1.
  apply bind_Ret_inv in Hrun as ([] & s0 & Hpush & Hall).
  destruct (le_lt_dec 2 (alloc_budget s)) as [Hb | Hb].
  2:{ destruct (autorelease_pool_push_Exit s Hb) as [s' He]. congruence. }
  destruct (alloc_budget s) as [|[|n]] eqn:E; [ lia | lia | ].
  destruct (autorelease_pool_push_inv s n E) as (p1 & s0' & Hp & Hinv & _ & Htr0 & _).
  rewrite Hp in Hpush. inversion Hpush; subst s0'.
  destruct (autorelease_all_fresh_pool s0 p1 objs Hinv s1 Hall) as (Hinv1 & Htr1 & _).
  pose proof (pool_inv_elim _ _ _ _ Hinv1) as (Hcur1 & Hobjs1 & _).
  destruct (alloc_budget s1) as [|[|n1]] eqn:E1; [ lia | lia | ].
  destruct (push_pop s1 n1 E1) as (s2 & Hpush2 & Hcur2 & Hpop2).
  assert (Hfresh : heap s1 !! fresh_addr s1 = None) by apply fresh_addr_None.
  assert (Hlive : is_Some (heap s1 !! p1)).
  { destruct Hinv1 as (_ & pl & arr & cells & [Hpl _ _ _ _ _] & _). eauto. }
  exists p1, s2. eexists.
  split; [ exact Hcur1 | ]. split; [ exact Hobjs1 | ]. split; [ exact Hpush2 | ].
  split.
  { rewrite Hcur2. intros [= Heq]. rewrite Heq in Hfresh.
    destruct Hlive as [? Hl]. congruence. }
  split; [ exact Hpop2 | ].
  cbn [heap trace current_autorelease_pool].
  split; [ reflexivity | ].
  split; [ now apply autorelease_pool_pop_NULL | ].
  split; [ intros k; apply repeat_m_fixed; now apply autorelease_pool_pop_NULL | ].
  split; [ reflexivity | ]. split; [ exact Hobjs1 | congruence ].
Qed.

(** Registrations return when the allocator can grant every growth: one
    request at most per registration, for an array of at most twice the
    number of registered objects. *)
Lemma autorelease_all_returns objs : forall s p pre cap,
  pool_inv s p pre cap ->
  (length objs <= alloc_budget s)%nat ->
  Z.of_nat (length pre + length objs) * 2 * sizeof_pointer <= PTRDIFF_MAX ->
  exists s', autorelease_all objs s = Ret tt s' /\
             (alloc_budget s <= alloc_budget s' + length objs)%nat.
Proof.
  induction objs as [|o rest IH]; intros s p pre cap Hinv Hb Hsz.
  - exists s. split; [ reflexivity | simpl; lia ].
  - simpl in Hb, Hsz.
    destruct (autorelease_add_outcome s p pre cap o Hinv)
      as [(s' & He & Hfull & Hno) | (s1 & Hr & Hinv1 & _ & _ & _ & Hbud)].
    { exfalso. unfold sizeof_pointer in *. destruct Hno as [Hno | Hno]; lia. }
    destruct (IH s1 p (pre ++ [o]) _ Hinv1) as (s' & Hrest & Hb').
    + lia.
    + rewrite length_app. simpl. unfold sizeof_pointer in *. lia.
    + exists s'. split; [ simpl; now rewrite (bind_Ret _ _ _ _ _ Hr) | simpl; lia ].
Qed.

(** ** The fuel of the pop loop *)

Lemma free_lookup q st s' :
  free q st = Ret tt s' ->
  forall x, heap s' !! x = heap st !! x \/ heap s' !! x = None.
Proof.
  unfold free. destruct q as [|a]; [ intros [= <-] x; now left | ].
  destruct (heap st !! a); [ | discriminate ].
  intros [= <-] x. cbn. destruct (decide (x = a)) as [-> | Hne].
  - right. apply lookup_delete_eq.
  - left. now rewrite lookup_delete_ne by congruence.
Qed.

Lemma load_string_inv q st t s1 : load_string q st = Ret t s1 -> s1 = st.
Proof.
  unfold load_string, deref, mbind, M_bind, bind. destruct q as [|a]; [ discriminate | ].
  destruct (heap st !! a) as [[| | | |]|]; try discriminate.
  now intros [= _ <-].
Qed.

Lemma call_dealloc_lookup f a st s' :
  call_dealloc f a st = Ret tt s' ->
  forall x, heap s' !! x = heap st !! x \/ heap s' !! x = None.
Proof.
  unfold call_dealloc. rewrite (bind_Ret _ _ _ _ _ (log_event_Ret _ _)).
  destruct f as [|id].
  - unfold TroveString_dealloc. intros H.
    apply bind_Ret_inv in H as (t & s1 & Hload & H).
    assert (Hs1 : heap s1 = heap st) by (now rewrite (load_string_inv _ _ _ _ Hload)).
    apply bind_Ret_inv in H as ([] & s2 & Hfree1 & Hfree2).
    intros x.
    assert (H1 : heap s2 !! x = heap s1 !! x \/ heap s2 !! x = None).
    { destruct (str t); [ inversion Hfree1; now left | now apply free_lookup with (Addr a0) ]. }
    destruct (free_lookup _ _ _ Hfree2 x) as [E | E]; [ | now right ].
    rewrite E, <- Hs1. exact H1.
  - unfold client_dealloc. intros H x.
    destruct (free_lookup _ _ _ H x) as [E | E]; [ left; exact E | now right ].
Qed.

(** No release stores into a pool: the pool at [p] is as before, or freed. *)
Lemma arc_release_pool_block obj s s' p pl :
  arc_release obj s = Ret tt s' ->
  heap s !! p = Some (BPool pl) ->
  heap s' !! p = Some (BPool pl) \/ heap s' !! p = None.
Proof.
  intros Hrel Hp. destruct obj as [|a].
  { rewrite arc_release_NULL in Hrel. inversion Hrel. now left. }
  destruct (heap s !! a) as [b|] eqn:Hb.
  2:{ rewrite arc_release_dangling in Hrel by assumption. discriminate. }
  destruct (header_of b) as [hdr|] eqn:Hh.
  2:{ unfold arc_release in Hrel.
      rewrite (bind_Ret _ _ _ _ _ (log_event_Ret _ _)) in Hrel.
      unfold load_header in Hrel.
      erewrite bind_Fault in Hrel; [ discriminate | ].
      erewrite bind_Ret by (apply deref_Ret; cbn; exact Hb). now rewrite Hh. }
  rewrite (arc_release_unfold _ _ _ _ Hb Hh) in Hrel.
  assert (Hne : p <> a) by (intros ->; rewrite Hp in Hb; inversion Hb; subst; discriminate).
  assert (Hkept : heap (released_state a b hdr s) !! p = Some (BPool pl))
    by (cbn; now rewrite lookup_insert_ne by congruence).
  destruct (wrap_int (ref_count hdr - 1) <=? 0);
    [ | inversion Hrel; subst; now left ].
  destruct (dealloc hdr) as [f|]; [ | inversion Hrel; subst; now left ].
  destruct (call_dealloc_lookup _ _ _ _ Hrel p) as [E | E]; [ left | now right ].
  now rewrite E.
Qed.

Lemma pop_loop_freed fuel p i s :
  heap s !! p = None -> pop_loop fuel p i s = Fault.
Proof.
  intros H. destruct fuel; simpl; apply bind_Fault;
    unfold load_pool; apply bind_Fault; unfold deref; now rewrite H.
Qed.

(** The pool's count at loop entry is enough fuel: more fuel does not change
    the outcome of the loop, in any state. *)
Lemma pop_loop_fuel_enough fuel1 : forall fuel2 p i s pl,
  heap s !! p = Some (BPool pl) ->
  0 <= i -> count pl <= SIZE_MAX ->
  (Z.to_nat (count pl - i) <= fuel1)%nat ->
  (Z.to_nat (count pl - i) <= fuel2)%nat ->
  pop_loop fuel1 p i s = pop_loop fuel2 p i s.
Proof.
  induction fuel1 as [|fuel1 IH]; intros fuel2 p i s pl Hp Hi Hsize H1 H2.
  - destruct fuel2; simpl;
      rewrite !(bind_Ret _ _ _ _ _ (load_pool_Ret _ _ _ Hp));
      destruct (Z.ltb_spec i (count pl)); try reflexivity; lia.
  - destruct fuel2 as [|fuel2]; simpl;
      rewrite !(bind_Ret _ _ _ _ _ (load_pool_Ret _ _ _ Hp));
      destruct (Z.ltb_spec i (count pl)) as [Hlt | Hge]; try reflexivity; [ lia | ].
    unfold mbind, M_bind, bind.
    destruct (load_cell (objects pl) i s) as [obj s0| |] eqn:Hcell; try reflexivity.
    assert (s0 = s); [ | subst s0 ].
    { unfold load_cell, deref, mbind, M_bind, bind in Hcell.
      destruct (objects pl) as [|arr]; [ discriminate | ].
      destruct (heap s !! arr) as [[| | |cells|]|]; try discriminate.
      destruct (cells !! Z.to_nat i) as [[v|]|]; try discriminate.
      now inversion Hcell. }
    destruct (arc_release obj s) as [[] s1| |] eqn:Hrel; try reflexivity.
    rewrite wrap_size_id by lia.
    destruct (arc_release_pool_block _ _ _ _ _ Hrel Hp) as [Hp1 | Hp1].
    + apply IH with pl; try assumption; lia.
    + now rewrite !pop_loop_freed by assumption.
Qed.

(** ** Concrete runs *)

Lemma autorelease_pool_pop_releases_in_order_witness :
  exists s' arr evs,
    pool_array (heap demo_pool) 1 = Some arr /\
    autorelease_pool_pop demo_pool = Ret tt s' /\
    trace s' = trace demo_pool ++ evs /\
    released evs = demo_objs /\
    (exists chunks, evs = concat chunks /\ Forall2 release_chunk demo_objs chunks) /\
    (Addr <$> destroyed evs) `sublist_of` demo_objs /\
    heap s' = delete 1%positive (delete arr (foldl heap_after_release (heap demo_pool) demo_objs)) /\
    heap s' !! 1%positive = None /\
    heap s' !! arr = None /\
    current_autorelease_pool s' = NULL.
Proof.
  apply (autorelease_pool_pop_releases_in_order demo_pool 1 demo_objs).
  - reflexivity.
  - vm_compute. reflexivity.
  - vm_compute. reflexivity.
Defined.

Example demo_pool_pop :
  autorelease_pool_pop demo_pool =
  Ret tt (mkState ∅ NULL
            [EvRelease (Addr 3);
             EvRelease (Addr 5); EvDealloc (client_dealloc_fn 7) 5;
             EvRelease NULL;
             EvRelease (Addr 3); EvDealloc TroveString_dealloc_fn 3] 4).
Proof. vm_compute. reflexivity. Qed.

Lemma nested_push_pop_loses_outer_pool_witness :
  exists p1 s2 s3,
    current_autorelease_pool nested_demo_outer = Addr p1 /\
    pool_objects (heap nested_demo_outer) p1 = Some [Addr 7; NULL] /\
    autorelease_pool_push nested_demo_outer = Ret tt s2 /\
    current_autorelease_pool s2 <> Addr p1 /\
    autorelease_pool_pop s2 = Ret tt s3 /\
    current_autorelease_pool s3 = NULL /\
    autorelease_pool_pop s3 = Ret tt s3 /\
    (forall n, repeat_m n autorelease_pool_pop s3 = Ret tt s3) /\
    heap s3 = heap nested_demo_outer /\
    pool_objects (heap s3) p1 = Some [Addr 7; NULL] /\
    trace s3 = trace nested_demo_start.
Proof.
  apply (nested_push_pop_loses_outer_pool nested_demo_start nested_demo_outer [Addr 7; NULL]).
  - vm_compute. reflexivity.
  - vm_compute. lia.
Defined.

Lemma release_refcount_times_witness :
  exists s1 s',
    repeat_m (Z.to_nat 3 - 1) (arc_release (Addr 3)) string_rc3 = Ret tt s1 /\
    load_header 3 s1 = Ret (mkARCObject 1 (Some TroveString_dealloc_fn)) s1 /\
    destroyed (trace s1) = destroyed (trace string_rc3) /\
    arc_release (Addr 3) s1 = Ret tt s' /\
    repeat_m (Z.to_nat 3) (arc_release (Addr 3)) string_rc3 = Ret tt s' /\
    trace s' = trace string_rc3 ++ replicate (Z.to_nat 3) (EvRelease (Addr 3))
                 ++ [EvDealloc TroveString_dealloc_fn 3] /\
    destroyed (trace s') = destroyed (trace string_rc3) ++ [3%positive] /\
    heap s' = heap_after_dealloc (heap string_rc3) TroveString_dealloc_fn 3.
Proof.
  apply (release_refcount_times string_rc3 3
           (BString (mkTroveString (mkARCObject 3 (Some TroveString_dealloc_fn)) (Addr 4)))
           3 TroveString_dealloc_fn).
  - vm_compute. reflexivity.
  - reflexivity.
  - unfold INT_MAX. lia.
  - vm_compute. reflexivity.
Defined.

Lemma autorelease_without_pool_witness :
  let s := mkState ∅ NULL [] 0 in
  let s' := add_event (EvStderr no_pool_message) s in
  autorelease_add (Addr 5) s = Ret tt s' /\
  arc_autorelease (Addr 5) s = Ret (Addr 5) s' /\
  heap s' = heap s /\
  current_autorelease_pool s' = NULL /\
  alloc_budget s' = alloc_budget s /\
  trace s' = trace s ++ [EvStderr no_pool_message].
Proof.
  apply (autorelease_without_pool (Addr 5) (mkState ∅ NULL [] 0)). reflexivity.
Defined.

Lemma arc_autorelease_returns_obj_witness :
  exists s',
    arc_autorelease (Addr 5) demo_pool = Ret (Addr 5) s' /\
    current_autorelease_pool s' = Addr 1 /\
    pool_objects (heap s') 1 = Some (demo_objs ++ [Addr 5]) /\
    pool_sized (heap s') 1 = true /\
    trace s' = trace demo_pool /\
    same_outside_pool (heap demo_pool) (heap s') 1 /\
    (forall a b, heap demo_pool !! a = Some b -> is_Some (header_of b) ->
                 heap s' !! a = Some b).
Proof.
  apply (proj2 (arc_autorelease_returns_obj (Addr 5) demo_pool) 1%positive demo_objs).
  - reflexivity.
  - vm_compute. reflexivity.
  - vm_compute. reflexivity.
  - vm_compute. reflexivity.
Defined.

Lemma registrations_preserved_by_growth_witness :
  exists p pl,
    current_autorelease_pool growth_demo_registered = Addr p /\
    pool_objects (heap growth_demo_registered) p = Some forty /\
    heap growth_demo_registered !! p = Some (BPool pl) /\
    count pl = Z.of_nat (length forty) /\
    capacity pl = capacity_after (length forty) /\
    pool_sized (heap growth_demo_registered) p = true.
Proof.
  apply (registrations_preserved_by_growth (mkState ∅ NULL [] 4)
           growth_demo_pushed growth_demo_registered forty).
  - vm_compute. reflexivity.
  - vm_compute. reflexivity.
Defined.

Example capacity_after_40 : capacity_after 40 = 64.
Proof. vm_compute. reflexivity. Qed.

Lemma null_through_pool_witness :
  exists s1 s2 evs,
    arc_autorelease NULL demo_pool = Ret NULL s1 /\
    pool_objects (heap s1) 1 = Some (demo_objs ++ [NULL]) /\
    (forall st, arc_release NULL st = Ret tt (add_event (EvRelease NULL) st)) /\
    autorelease_pool_pop s1 = Ret tt s2 /\
    trace s2 = trace demo_pool ++ evs ++ [EvRelease NULL] /\
    released evs = demo_objs /\
    destroyed (trace s2) = destroyed (trace demo_pool ++ evs) /\
    current_autorelease_pool s2 = NULL.
Proof.
  apply (null_through_pool demo_pool 1 demo_objs).
  - reflexivity.
  - vm_compute. reflexivity.
  - vm_compute. reflexivity.
  - vm_compute. reflexivity.
  - vm_compute. reflexivity.
Defined.

(** * Further properties of the code *)

(** ** Allocation failures *)

(** Equality of two heaps built from the same heap by insertions and
    deletions: key by key. *)
Ltac heap_eq :=
  apply map_eq; intros ?i;
  repeat first [ rewrite lookup_delete | rewrite lookup_insert ];
  repeat case_decide; subst; try reflexivity; try congruence.

Lemma delete_fresh_insert (h : gmap positive block) a b :
  h !! a = None -> delete a (<[a := b]> h) = h.
Proof. intros H. rewrite delete_insert_eq. now apply delete_id. Qed.

(** The state at the exit of a push that fails. *)
Lemma autorelease_pool_push_Exit_state (s : State) :
  (alloc_budget s < 2)%nat ->
  autorelease_pool_push s =
  Exit 1 (mkState (heap s) (current_autorelease_pool s)
                  (trace s ++ [EvStderr (match alloc_budget s with
                                         | O => "Failed to allocate autorelease pool."
                                         | S _ => "Failed to allocate autorelease pool objects."
                                         end ++ newline)%string])
                  0).
Proof.
  intros Hb. destruct (alloc_budget s) as [|[|n]] eqn:E; [ | | lia ].
  - unfold autorelease_pool_push.
    erewrite bind_Ret by (unfold malloc; rewrite E; reflexivity).
    cbv beta iota. unfold fprintf_stderr. mstep log_event_Ret.
    unfold exit, add_event. now rewrite E.
  - unfold autorelease_pool_push.
    erewrite bind_Ret
      by (apply malloc_Ret; [ eassumption | unfold sizeof_AutoreleasePool, PTRDIFF_MAX; lia ]).
    mstep set_count_Ret.
    mstep set_capacity_Ret.
    mstep load_pool_Ret.
    erewrite bind_Ret by (unfold malloc; cbn [alloc_budget]; reflexivity).
    mstep set_objects_Ret.
    unfold fprintf_stderr. mstep log_event_Ret.
    mstep free_Ret.
    rewrite delete_fresh_insert by apply fresh_addr_None. reflexivity.
Qed.

(** X1: when the allocator refuses one of the two requests of
    [autorelease_pool_push], the call does not return: the process exits
    with status 1 after one line on [stderr]; at the exit the heap is the one
    before the call (the pool structure allocated before the refusal has been
    freed) and the current-pool slot is untouched. *)
Theorem autorelease_pool_push_failure (s : State) :
  (alloc_budget s < 2)%nat ->
  autorelease_pool_push s =
  Exit 1 (mkState (heap s) (current_autorelease_pool s)
                  (trace s ++ [EvStderr (match alloc_budget s with
                                         | O => "Failed to allocate autorelease pool."
                                         | S _ => "Failed to allocate autorelease pool objects."
                                         end ++ newline)%string])
                  0).
Proof. exact (autorelease_pool_push_Exit_state s). Qed.

Lemma autorelease_pool_push_failure_witness :
  autorelease_pool_push (mkState ∅ NULL [] 1) =
  Exit 1 (mkState ∅ NULL
            [EvStderr ("Failed to allocate autorelease pool objects." ++ newline)%string] 0).
Proof. apply (autorelease_pool_push_failure (mkState ∅ NULL [] 1)). simpl. lia. Defined.

(** The state at the exit of a construction that fails. *)
Lemma TroveString_create_Exit_state (init : option string) (s : State) :
  (alloc_budget s < 2)%nat ->
  TroveString_create init s =
  Exit 1 (mkState (heap s) (current_autorelease_pool s)
                  (trace s ++ [EvStderr (match alloc_budget s with
                                         | O => "Failed to allocate TroveString."
                                         | S _ => "Failed to allocate string content."
                                         end ++ newline)%string])
                  0).
Proof.
  intros Hb. destruct (alloc_budget s) as [|[|n]] eqn:E; [ | | lia ].
  - unfold TroveString_create.
    erewrite bind_Ret by (unfold malloc; rewrite E; reflexivity).
    cbv beta iota. unfold fprintf_stderr. mstep log_event_Ret.
    unfold exit, add_event. now rewrite E.
  - unfold TroveString_create.
    erewrite bind_Ret
      by (apply malloc_Ret; [ eassumption | unfold sizeof_TroveString, PTRDIFF_MAX; lia ]).
    mstep load_string_Ret.
    mstep set_string_header_Ret.
    mstep load_string_Ret.
    mstep set_string_header_Ret.
    erewrite bind_Ret by (destruct init; unfold strdup, malloc; cbn [alloc_budget]; reflexivity).
    mstep set_string_str_Ret.
    unfold fprintf_stderr. mstep log_event_Ret.
    mstep free_Ret.
    rewrite delete_fresh_insert by apply fresh_addr_None. reflexivity.
Qed.

(** X2: when the allocator refuses one of the two requests of
    [TroveString_create], the call does not return: the process exits with
    status 1 after one line on [stderr], and at the exit the heap is the one
    before the call (the object allocated before the refusal of its text
    buffer has been freed). *)
Theorem TroveString_create_failure (init : option string) (s : State) :
  (alloc_budget s < 2)%nat ->
  TroveString_create init s =
  Exit 1 (mkState (heap s) (current_autorelease_pool s)
                  (trace s ++ [EvStderr (match alloc_budget s with
                                         | O => "Failed to allocate TroveString."
                                         | S _ => "Failed to allocate string content."
                                         end ++ newline)%string])
                  0).
Proof. exact (TroveString_create_Exit_state init s). Qed.

Lemma TroveString_create_failure_witness :
  TroveString_create (Some "abc") (mkState ∅ NULL [] 1) =
  Exit 1 (mkState ∅ NULL
            [EvStderr ("Failed to allocate string content." ++ newline)%string] 0).
Proof. apply (TroveString_create_failure (Some "abc") (mkState ∅ NULL [] 1)). simpl. lia. Defined.

(** ** What a push and a construction add to the heap *)

Lemma fresh_insert_None (h : gmap positive block) a b :
  h !! fresh (dom (<[a := b]> h)) = None.
Proof.
  pose proof (is_fresh (dom (<[a := b]> h))) as F.
  apply not_elem_of_dom. intros Hin. apply F. rewrite dom_insert. set_solver.
Qed.

(** The state after a push that succeeds. *)
Lemma autorelease_pool_push_fresh (s : State) :
  (2 <= alloc_budget s)%nat ->
  exists p arr s1,
    autorelease_pool_push s = Ret tt s1 /\
    heap s !! p = None /\ heap s !! arr = None /\ p <> arr /\
    heap s1 = <[p := BPool (mkAutoreleasePool (Addr arr) 0 16)]>
                (<[arr := BArray (replicate 16 None)]> (heap s)) /\
    current_autorelease_pool s1 = Addr p /\
    pool_objects (heap s1) p = Some [] /\
    pool_sized (heap s1) p = true /\
    trace s1 = trace s /\
    alloc_budget s1 = (alloc_budget s - 2)%nat.
Proof.
  intros Hb. destruct (alloc_budget s) as [|[|n]] eqn:E; [ lia | lia | ].
  pose proof (autorelease_pool_push_Ret s n E) as Hpush. cbv zeta in Hpush.
  set (p := fresh_addr s) in *.
  set (arr := fresh (dom (<[p := BPool (mkAutoreleasePool NULL 0 16)]> (heap s)))) in *.
  assert (Hp : heap s !! p = None) by apply fresh_addr_None.
  assert (Harr : heap s !! arr = None) by apply fresh_insert_None.
  assert (Hne : arr <> p) by apply fresh_ne_insert.
  exists p, arr. eexists. split; [ exact Hpush | ].
  cbn [heap trace current_autorelease_pool alloc_budget].
  assert (Hheap : <[p := BPool (mkAutoreleasePool (Addr arr) 0 16)]>
                    (<[arr := BArray (replicate 16 None)]>
                       (<[p := BPool (mkAutoreleasePool NULL 0 16)]> (heap s)))
                  = <[p := BPool (mkAutoreleasePool (Addr arr) 0 16)]>
                      (<[arr := BArray (replicate 16 None)]> (heap s))).
  { rewrite (insert_insert_ne _ arr p) by congruence. now rewrite insert_insert_eq. }
  rewrite Hheap.
  do 3 (split; [ congruence | ]). split; [ reflexivity | ]. split; [ reflexivity | ].
  split.
  { apply pool_objects_rep. eexists _, arr, _. split; cbn [objects count].
    - apply lookup_insert_eq.
    - reflexivity.
    - rewrite lookup_insert_ne by congruence. apply lookup_insert_eq.
    - reflexivity.
    - reflexivity.
    - cbn. unfold SIZE_MAX. lia. }
  split.
  { unfold pool_sized. rewrite lookup_insert_eq. cbn [objects].
    rewrite lookup_insert_ne by congruence. rewrite lookup_insert_eq. reflexivity. }
  split; [ reflexivity | lia ].
Qed.

(** X3: with two allocations granted, [autorelease_pool_push] returns with a
    new, empty pool of capacity 16 in the slot.  The pool and its array are
    new blocks; apart from them the heap is the one before the call, so a
    pool that was current before is still allocated, with its objects, and
    no longer reachable from the slot.  Nothing is written to the trace. *)
Theorem autorelease_pool_push_installs_empty_pool (s : State) :
  (2 <= alloc_budget s)%nat ->
  exists p arr s1,
    autorelease_pool_push s = Ret tt s1 /\
    heap s !! p = None /\ heap s !! arr = None /\ p <> arr /\
    heap s1 = <[p := BPool (mkAutoreleasePool (Addr arr) 0 16)]>
                (<[arr := BArray (replicate 16 None)]> (heap s)) /\
    current_autorelease_pool s1 = Addr p /\
    pool_objects (heap s1) p = Some [] /\
    pool_sized (heap s1) p = true /\
    trace s1 = trace s /\
    alloc_budget s1 = (alloc_budget s - 2)%nat.
Proof. exact (autorelease_pool_push_fresh s). Qed.

Lemma autorelease_pool_push_installs_empty_pool_witness :
  exists p arr s1,
    autorelease_pool_push demo_pool = Ret tt s1 /\
    heap demo_pool !! p = None /\ heap demo_pool !! arr = None /\ p <> arr /\
    heap s1 = <[p := BPool (mkAutoreleasePool (Addr arr) 0 16)]>
                (<[arr := BArray (replicate 16 None)]> (heap demo_pool)) /\
    current_autorelease_pool s1 = Addr p /\
    pool_objects (heap s1) p = Some [] /\
    pool_sized (heap s1) p = true /\
    trace s1 = trace demo_pool /\
    alloc_budget s1 = (alloc_budget demo_pool - 2)%nat.
Proof. apply (autorelease_pool_push_installs_empty_pool demo_pool). simpl. lia. Defined.

Lemma c_string_id (text : string) :
  (forall c, In c (list_ascii_of_string text) -> c <> Ascii.zero) -> c_string text = text.
Proof.
  induction text as [|c text IH]; intros H; [ reflexivity | ].
  simpl. destruct (Ascii.eqb_spec c Ascii.zero) as [-> | Hne].
  - exfalso. apply (H Ascii.zero); [ now left | reflexivity ].
  - f_equal. apply IH. intros c' Hc'. apply H. now right.
Qed.

(** The state after a construction that succeeds. *)
Lemma TroveString_create_fresh (init : option string) (s : State) :
  (2 <= alloc_budget s)%nat ->
  Z.of_nat (String.length (c_string (default EmptyString init))) < PTRDIFF_MAX ->
  exists a b s',
    TroveString_create init s = Ret (Addr a) s' /\
    heap s !! a = None /\ heap s !! b = None /\ a <> b /\
    heap s' = <[a := BString (mkTroveString (mkARCObject 1 (Some TroveString_dealloc_fn)) (Addr b))]>
                (<[b := BChars (c_string (default EmptyString init))]> (heap s)) /\
    (forall text, init = Some text ->
       (forall c, In c (list_ascii_of_string text) -> c <> Ascii.zero) ->
       heap s' !! b = Some (BChars text)) /\
    current_autorelease_pool s' = current_autorelease_pool s /\
    trace s' = trace s /\
    alloc_budget s' = (alloc_budget s - 2)%nat.
Proof.
  intros Hb Hlen. destruct (alloc_budget s) as [|[|n]] eqn:E; [ lia | lia | ].
  pose proof (TroveString_create_Ret init s n E Hlen) as Hc. cbv zeta in Hc.
  set (a := fresh_addr s) in *.
  set (b := fresh (dom (<[a := BString (mkTroveString (mkARCObject 1 (Some TroveString_dealloc_fn)) NULL)]> (heap s)))) in *.
  assert (Ha : heap s !! a = None) by apply fresh_addr_None.
  assert (Hbn : heap s !! b = None) by apply fresh_insert_None.
  assert (Hne : b <> a) by apply fresh_ne_insert.
  assert (Hheap :
    <[a := BString (mkTroveString (mkARCObject 1 (Some TroveString_dealloc_fn)) (Addr b))]>
      (<[b := BChars (c_string (default EmptyString init))]>
         (<[a := BString (mkTroveString (mkARCObject 1 (Some TroveString_dealloc_fn)) NULL)]> (heap s)))
    = <[a := BString (mkTroveString (mkARCObject 1 (Some TroveString_dealloc_fn)) (Addr b))]>
        (<[b := BChars (c_string (default EmptyString init))]> (heap s))).
  { rewrite (insert_insert_ne _ b a) by congruence. now rewrite insert_insert_eq. }
  rewrite Hheap in Hc.
  exists a, b. eexists. split; [ exact Hc | ].
  cbn [heap trace current_autorelease_pool alloc_budget].
  do 3 (split; [ congruence | ]). split; [ reflexivity | ].
  split.
  { intros text -> Hnul. rewrite lookup_insert_ne by congruence.
    rewrite lookup_insert_eq. simpl default. now rewrite (c_string_id text Hnul). }
  split; [ reflexivity | ]. split; [ reflexivity | lia ].
Qed.

(** X4: with two allocations granted, [TroveString_create(init)] returns a
    new object and gives it a new text buffer.  Apart from these two blocks
    the heap is the one before the call; the buffer holds a copy of the
    characters of [init] up to its first NUL (all of [init] when it has
    none, the empty string when [init] is null); the slot and the trace are
    untouched. *)
Theorem TroveString_create_copies_text (init : option string) (s : State) :
  (2 <= alloc_budget s)%nat ->
  Z.of_nat (String.length (c_string (default EmptyString init))) < PTRDIFF_MAX ->
  exists a b s',
    TroveString_create init s = Ret (Addr a) s' /\
    heap s !! a = None /\ heap s !! b = None /\ a <> b /\
    heap s' = <[a := BString (mkTroveString (mkARCObject 1 (Some TroveString_dealloc_fn)) (Addr b))]>
                (<[b := BChars (c_string (default EmptyString init))]> (heap s)) /\
    (forall text, init = Some text ->
       (forall c, In c (list_ascii_of_string text) -> c <> Ascii.zero) ->
       heap s' !! b = Some (BChars text)) /\
    current_autorelease_pool s' = current_autorelease_pool s /\
    trace s' = trace s /\
    alloc_budget s' = (alloc_budget s - 2)%nat.
Proof. exact (TroveString_create_fresh init s). Qed.

Lemma TroveString_create_copies_text_witness :
  exists a b s',
    TroveString_create (Some "abc") demo_pool = Ret (Addr a) s' /\
    heap demo_pool !! a = None /\ heap demo_pool !! b = None /\ a <> b /\
    heap s' = <[a := BString (mkTroveString (mkARCObject 1 (Some TroveString_dealloc_fn)) (Addr b))]>
                (<[b := BChars (c_string (default EmptyString (Some "abc")))]> (heap demo_pool)) /\
    (forall text, Some "abc" = Some text ->
       (forall c, In c (list_ascii_of_string text) -> c <> Ascii.zero) ->
       heap s' !! b = Some (BChars text)) /\
    current_autorelease_pool s' = current_autorelease_pool demo_pool /\
    trace s' = trace demo_pool /\
    alloc_budget s' = (alloc_budget demo_pool - 2)%nat.
Proof.
  apply (TroveString_create_copies_text (Some "abc") demo_pool).
  - simpl. lia.
  - vm_compute. reflexivity.
Defined.

(** ** Round trips *)

(** X5: a string that is created and released at once leaves no trace in the
    heap: the release brings the count from 1 to 0 and calls
    [TroveString_dealloc], which frees the text buffer and the object.  The
    heap is the one before the construction. *)
Theorem TroveString_create_release_restores_heap (init : option string) (s : State) :
  (2 <= alloc_budget s)%nat ->
  Z.of_nat (String.length (c_string (default EmptyString init))) < PTRDIFF_MAX ->
  exists a,
    heap s !! a = None /\
    (obj ← TroveString_create init; arc_release obj) s =
    Ret tt (mkState (heap s) (current_autorelease_pool s)
                    (trace s ++ [EvRelease (Addr a); EvDealloc TroveString_dealloc_fn a])
                    (alloc_budget s - 2)).
Proof.
  intros Hb Hlen. destruct (alloc_budget s) as [|[|n]] eqn:E; [ lia | lia | ].
  pose proof (TroveString_create_Ret init s n E Hlen) as Hc. cbv zeta in Hc.
  set (a := fresh_addr s) in *.
  set (h1 := <[a := BString (mkTroveString (mkARCObject 1 (Some TroveString_dealloc_fn)) NULL)]> (heap s)) in *.
  set (b := fresh (dom h1)) in *.
  assert (Ha : heap s !! a = None) by apply fresh_addr_None.
  assert (Hbn : heap s !! b = None) by apply fresh_insert_None.
  assert (Hne : b <> a) by apply fresh_ne_insert.
  exists a. split; [ exact Ha | ].
  rewrite (bind_Ret _ _ _ _ _ Hc).
  erewrite release_last;
    [ | cbn [heap]; apply lookup_insert_eq | reflexivity | ].
  - cbn [heap trace current_autorelease_pool alloc_budget].
    f_equal. f_equal; [ | lia ].
    unfold heap_after_dealloc. rewrite lookup_insert_eq. cbn [str].
    subst h1. heap_eq.
  - cbn [heap]. unfold destructor_fits. cbn [str].
    rewrite lookup_insert_ne by congruence. now rewrite lookup_insert_eq.
Qed.

Lemma TroveString_create_release_restores_heap_witness :
  exists a,
    heap demo_pool !! a = None /\
    (obj ← TroveString_create None; arc_release obj) demo_pool =
    Ret tt (mkState (heap demo_pool) (current_autorelease_pool demo_pool)
                    (trace demo_pool ++ [EvRelease (Addr a); EvDealloc TroveString_dealloc_fn a])
                    (alloc_budget demo_pool - 2)).
Proof.
  apply (TroveString_create_release_restores_heap None demo_pool).
  - simpl. lia.
  - vm_compute. reflexivity.
Defined.

(** X6: an empty [TROVE] block, a push followed at once by a pop, returns
    with the heap as before the push; the slot is null afterwards whatever it
    held before, so a pool that was current is no longer reachable. *)
Theorem push_pop_restores_heap (s : State) :
  (2 <= alloc_budget s)%nat ->
  (autorelease_pool_push;; autorelease_pool_pop) s =
  Ret tt (mkState (heap s) NULL (trace s) (alloc_budget s - 2)).
Proof.
  intros Hb. destruct (alloc_budget s) as [|[|n]] eqn:E; [ lia | lia | ].
  destruct (push_pop s n E) as (s2 & Hpush & _ & Hpop).
  rewrite (bind_Ret _ _ _ _ _ Hpush), Hpop. do 2 f_equal. lia.
Qed.

Lemma push_pop_restores_heap_witness :
  (autorelease_pool_push;; autorelease_pool_pop) demo_pool =
  Ret tt (mkState (heap demo_pool) NULL (trace demo_pool) (alloc_budget demo_pool - 2)).
Proof. apply (push_pop_restores_heap demo_pool). simpl. lia. Defined.

(** X7: [n] retains followed by [n] releases of a live object whose count
    [r] is at least 1, with [r + n <= INT_MAX], put the heap back exactly as
    it was: the count is [r] again, no destructor was called, and the trace
    has grown by the [n] calls of [arc_release] only. *)
Theorem retain_release_restores_heap (n : nat) (s : State) (a : positive) (b : block)
        (r : Z) (d : option fnptr) :
  heap s !! a = Some b ->
  header_of b = Some (mkARCObject r d) ->
  1 <= r -> r + Z.of_nat n <= INT_MAX ->
  (repeat_m n (RETAIN (Addr a));; repeat_m n (RELEASE (Addr a))) s =
  Ret tt (mkState (heap s) (current_autorelease_pool s)
                  (trace s ++ replicate n (EvRelease (Addr a))) (alloc_budget s)).
Proof.
  intros H Ho Hr Hn. unfold RETAIN, RELEASE.
  assert (Hrange : in_int_range r) by (unfold in_int_range, INT_MIN, INT_MAX in *; lia).
  assert (Hw : wrap_int (r + Z.of_nat n) = r + Z.of_nat n).
  { apply wrap_int_id. unfold in_int_range, INT_MIN, INT_MAX in *. lia. }
  erewrite bind_Ret by (now apply retain_n with (r := r) (d := d) (b := b)).
  rewrite Hw.
  erewrite release_n_keep;
    [ | cbn; apply lookup_insert_eq
      | now apply header_of_with_header with (mkARCObject r d)
      | unfold in_int_range, INT_MIN, INT_MAX in *; lia
      | left; intros k Hk; rewrite wrap_int_id;
        unfold in_int_range, INT_MIN, INT_MAX in *; lia ].
  cbn. rewrite insert_insert_eq, with_header_twice.
  replace (r + Z.of_nat n - Z.of_nat n) with r by lia.
  rewrite (wrap_int_id r Hrange), (with_header_id _ _ Ho).
  now rewrite insert_id by assumption.
Qed.

Lemma retain_release_restores_heap_witness :
  (repeat_m 5 (RETAIN (Addr 3));; repeat_m 5 (RELEASE (Addr 3))) string_rc3 =
  Ret tt (mkState (heap string_rc3) (current_autorelease_pool string_rc3)
                  (trace string_rc3 ++ replicate 5 (EvRelease (Addr 3)))
                  (alloc_budget string_rc3)).
Proof.
  apply (retain_release_restores_heap 5 string_rc3 3
           (BString (mkTroveString (mkARCObject 3 (Some TroveString_dealloc_fn)) (Addr 4)))
           3 (Some TroveString_dealloc_fn)).
  - vm_compute. reflexivity.
  - reflexivity.
  - lia.
  - unfold INT_MAX. simpl. lia.
Defined.

(** ** The guard on the destructor and the test of the count *)

(** X8: an object whose [dealloc] field is null is never freed by
    [arc_release]: after any number [n] of releases from any count [r] it is
    still live, its count is [r - n] (modulo the width of [int], so also
    zero and negative), and no destructor call is in the trace. *)
Theorem release_without_destructor_keeps_object (n : nat) (s : State) (a : positive)
        (b : block) (r : Z) :
  heap s !! a = Some b ->
  header_of b = Some (mkARCObject r None) ->
  in_int_range r ->
  exists s',
    repeat_m n (arc_release (Addr a)) s = Ret tt s' /\
    load_header a s' = Ret (mkARCObject (wrap_int (r - Z.of_nat n)) None) s' /\
    trace s' = trace s ++ replicate n (EvRelease (Addr a)) /\
    destroyed (trace s') = destroyed (trace s) /\
    (forall x, x <> a -> heap s' !! x = heap s !! x).
Proof.
  intros H Ho Hr.
  eexists. split; [ apply (release_n_keep n s a b r None H Ho Hr); now right | ].
  cbn [heap trace]. split; [ | split; [ reflexivity | split ] ].
  - eapply load_header_Ret; [ cbn; apply lookup_insert_eq | ].
    now apply header_of_with_header with (mkARCObject r None).
  - now rewrite destroyed_app, destroyed_releases, app_nil_r.
  - intros x Hx. now rewrite lookup_insert_ne by congruence.
Qed.

Lemma release_without_destructor_keeps_object_witness :
  exists s',
    repeat_m 4 (arc_release (Addr 1)) (one_object 2 None) = Ret tt s' /\
    load_header 1 s' = Ret (mkARCObject (wrap_int (2 - Z.of_nat 4)) None) s' /\
    trace s' = trace (one_object 2 None) ++ replicate 4 (EvRelease (Addr 1)) /\
    destroyed (trace s') = destroyed (trace (one_object 2 None)) /\
    (forall x, x <> 1%positive -> heap s' !! x = heap (one_object 2 None) !! x).
Proof.
  apply (release_without_destructor_keeps_object 4 (one_object 2 None)
           1 (BObject (mkARCObject 2 None)) 2).
  - vm_compute. reflexivity.
  - reflexivity.
  - unfold in_int_range, INT_MIN, INT_MAX. lia.
Defined.

(** X9: the test of [arc_release] is [<= 0], not [== 0]: one release of a
    live object whose count is 1, 0 or negative (above [INT_MIN]) and whose
    destructor is set calls the destructor, once, and the object is freed. *)
Theorem release_at_or_below_one_destroys (s : State) (a : positive) (b : block)
        (r : Z) (f : fnptr) :
  heap s !! a = Some b ->
  header_of b = Some (mkARCObject r (Some f)) ->
  INT_MIN < r <= 1 ->
  destructor_fits (heap s) f b = true ->
  exists s',
    arc_release (Addr a) s = Ret tt s' /\
    trace s' = trace s ++ [EvRelease (Addr a); EvDealloc f a] /\
    heap s' = heap_after_dealloc (heap s) f a /\
    heap s' !! a = None.
Proof.
  intros H Ho Hr Hf.
  assert (Hw : wrap_int (r - 1) = r - 1)
    by (apply wrap_int_id; unfold in_int_range, INT_MIN, INT_MAX in *; lia).
  eexists. split.
  - erewrite arc_release_destroy; try eassumption; [ | cbn; lia | reflexivity ].
    eapply call_dealloc_Ret;
      [ cbn; apply lookup_insert_eq
      | cbn; now apply destructor_fits_with_header with (mkARCObject r (Some f)) ].
  - cbn [heap trace released_state]. split; [ now rewrite <- app_assoc | ].
    rewrite (heap_after_dealloc_with_header _ _ _ (mkARCObject r (Some f))) by assumption.
    split; [ reflexivity | ].
    unfold heap_after_dealloc. rewrite H.
    destruct f as [|id]; [ | apply lookup_delete_eq ].
    destruct b as [|t| | |]; try apply lookup_delete_eq.
    destruct (str t); apply lookup_delete_eq.
Qed.

Lemma release_at_or_below_one_destroys_witness :
  exists s',
    arc_release (Addr 1) (one_object (-3) (Some (client_dealloc_fn 0))) = Ret tt s' /\
    trace s' = trace (one_object (-3) (Some (client_dealloc_fn 0)))
                 ++ [EvRelease (Addr 1); EvDealloc (client_dealloc_fn 0) 1] /\
    heap s' = heap_after_dealloc (heap (one_object (-3) (Some (client_dealloc_fn 0))))
                (client_dealloc_fn 0) 1 /\
    heap s' !! 1%positive = None.
Proof.
  apply (release_at_or_below_one_destroys (one_object (-3) (Some (client_dealloc_fn 0)))
           1 (BObject (mkARCObject (-3) (Some (client_dealloc_fn 0)))) (-3)
           (client_dealloc_fn 0)).
  - vm_compute. reflexivity.
  - reflexivity.
  - unfold INT_MIN. lia.
  - reflexivity.
Defined.

(** X10: nothing marks a destroyed object: a release that follows the
    release which destroyed the object reads the freed header, which is
    undefined behaviour (a use after free), whatever the destructor. *)
Theorem release_after_destruction_is_undefined (s : State) (a : positive) (b : block)
        (r : Z) (f : fnptr) :
  heap s !! a = Some b ->
  header_of b = Some (mkARCObject r (Some f)) ->
  INT_MIN < r <= 1 ->
  destructor_fits (heap s) f b = true ->
  (arc_release (Addr a);; arc_release (Addr a)) s = Fault.
Proof.
  intros H Ho Hr Hf.
  assert (Hw : wrap_int (r - 1) = r - 1)
    by (apply wrap_int_id; unfold in_int_range, INT_MIN, INT_MAX in *; lia).
  erewrite bind_Ret.
  2:{ erewrite arc_release_destroy; try eassumption; [ | cbn; lia | reflexivity ].
      eapply call_dealloc_Ret;
        [ cbn; apply lookup_insert_eq
        | cbn; now apply destructor_fits_with_header with (mkARCObject r (Some f)) ]. }
  apply arc_release_dangling. cbn [heap released_state].
  rewrite (heap_after_dealloc_with_header _ _ _ (mkARCObject r (Some f))) by assumption.
  unfold heap_after_dealloc. rewrite H.
  destruct f as [|id]; [ | apply lookup_delete_eq ].
  destruct b as [|t| | |]; try apply lookup_delete_eq.
  destruct (str t); apply lookup_delete_eq.
Qed.

Lemma release_after_destruction_is_undefined_witness :
  (arc_release (Addr 1);; arc_release (Addr 1)) (one_object 1 (Some (client_dealloc_fn 0)))
  = Fault.
Proof.
  apply (release_after_destruction_is_undefined (one_object 1 (Some (client_dealloc_fn 0))) 1
           (BObject (mkARCObject 1 (Some (client_dealloc_fn 0))))
           1 (client_dealloc_fn 0)).
  - vm_compute. reflexivity.
  - reflexivity.
  - unfold INT_MIN. lia.
  - reflexivity.
Defined.

(** ** Registration in a full pool that cannot grow *)

Lemma autorelease_add_full_exit_state s p objs pl arr cells obj :
  current_autorelease_pool s = Addr p ->
  pool_rep (heap s) p objs pl arr cells ->
  capacity pl <= count pl ->
  0 < capacity pl ->
  capacity pl * sizeof_pointer <= PTRDIFF_MAX ->
  alloc_budget s = O \/ PTRDIFF_MAX < capacity pl * 2 * sizeof_pointer ->
  autorelease_add obj s =
  Exit 1 (mkState (<[p := BPool (mkAutoreleasePool (Addr arr) (count pl) (capacity pl * 2))]> (heap s))
                  (current_autorelease_pool s)
                  (trace s ++ [EvStderr ("Failed to reallocate autorelease pool objects." ++ newline)%string])
                  (alloc_budget s)).
Proof.
  intros Hcur R Hge Hpos Hmax Hf.
  pose proof R as [Hp Ho Ha Hc Ht Hsize].
  assert (Hne : p <> arr) by congruence.
  unfold sizeof_pointer, PTRDIFF_MAX in *.
  unfold autorelease_add.
  mstep get_state_Ret. rewrite Hcur.
  mstep load_pool_Ret.
  rewrite (geb_true _ _ Hge).
  rewrite (wrap_size_id (capacity pl * 2)) by (unfold SIZE_MAX; lia).
  apply bind_Exit.
  mstep set_capacity_Ret. rewrite Ho.
  mstep load_pool_Ret.
  unfold sizeof_pointer.
  rewrite wrap_size_id by (unfold SIZE_MAX; lia).
  erewrite bind_Ret.
  2:{ apply realloc_NULL with (cells := cells);
      [ cbn; rewrite lookup_insert_ne by assumption; exact Ha
      | lia | cbn; unfold PTRDIFF_MAX; tauto ]. }
  cbv beta iota. unfold fprintf_stderr.
  mstep log_event_Ret. unfold exit, add_event, set_heap. cbn. now rewrite Hcur.
Qed.

(** X11: a registration that finds the list full while the allocator cannot
    grant the doubled array does not return: the process exits with status
    1 after one line on [stderr].  At the exit the object has not been
    registered and the list of the pool is intact; only the [capacity]
    field has been doubled, before the refused request. *)
Theorem autorelease_add_full_exits (obj : ptr) (s : State) (p : positive) (objs : list ptr) :
  current_autorelease_pool s = Addr p ->
  pool_objects (heap s) p = Some objs ->
  pool_sized (heap s) p = true ->
  can_register s p = false ->
  exists s' pl pl',
    autorelease_add obj s = Exit 1 s' /\
    trace s' = trace s ++
      [EvStderr ("Failed to reallocate autorelease pool objects." ++ newline)%string] /\
    pool_objects (heap s') p = Some objs /\
    heap s !! p = Some (BPool pl) /\
    heap s' !! p = Some (BPool pl') /\
    objects pl' = objects pl /\ count pl' = count pl /\ capacity pl' = capacity pl * 2 /\
    (forall x, x <> p -> heap s' !! x = heap s !! x).
Proof.
  intros Hcur Hobjs Hsz Hcan.
  destruct (pool_inv_intro s p objs Hcur Hobjs Hsz) as [cap Hinv].
  destruct Hinv as (_ & pl & arr & cells & R & Hcap & Hlen & Hpos & Hmax).
  pose proof R as [Hp Ho Ha Hc Ht Hsize].
  unfold can_register in Hcan. rewrite Hp in Hcan.
  apply orb_false_elim in Hcan as [Hfull Hno].
  apply Z.ltb_ge in Hfull.
  assert (Hf : alloc_budget s = O \/ PTRDIFF_MAX < capacity pl * 2 * sizeof_pointer).
  { apply andb_false_elim in Hno as [Hno | Hno].
    - left. destruct (alloc_budget s); [ reflexivity | discriminate ].
    - right. apply Z.leb_gt in Hno. exact Hno. }
  eexists _, pl, _. split.
  { apply (autorelease_add_full_exit_state s p objs pl arr cells obj); try assumption; lia. }
  cbn [heap trace]. split; [ reflexivity | ].
  split.
  { apply pool_objects_rep. eexists _, arr, cells. split; cbn [objects count].
    - apply lookup_insert_eq.
    - reflexivity.
    - rewrite lookup_insert_ne by congruence. exact Ha.
    - cbn. exact Hc.
    - exact Ht.
    - cbn. exact Hsize. }
  split; [ exact Hp | ]. split; [ apply lookup_insert_eq | ].
  cbn [objects count capacity].
  split; [ now rewrite Ho | ]. split; [ reflexivity | ]. split; [ reflexivity | ].
  intros x Hx. now rewrite lookup_insert_ne by congruence.
Qed.

Lemma autorelease_add_full_exits_witness :
  exists s' pl pl',
    autorelease_add (Addr 9) full_pool = Exit 1 s' /\
    trace s' = trace full_pool ++
      [EvStderr ("Failed to reallocate autorelease pool objects." ++ newline)%string] /\
    pool_objects (heap s') 1 = Some [NULL; Addr 7] /\
    heap full_pool !! 1%positive = Some (BPool pl) /\
    heap s' !! 1%positive = Some (BPool pl') /\
    objects pl' = objects pl /\ count pl' = count pl /\ capacity pl' = capacity pl * 2 /\
    (forall x, x <> 1%positive -> heap s' !! x = heap full_pool !! x).
Proof.
  apply (autorelease_add_full_exits (Addr 9) full_pool 1 [NULL; Addr 7]).
  - reflexivity.
  - vm_compute. reflexivity.
  - vm_compute. reflexivity.
  - vm_compute. reflexivity.
Defined.

(** ** A scoped block is the releases of its registrations *)

(** A release leaves every block alone but the object released and the
    buffer it owns. *)
Lemma heap_after_release_untouched h objs o x b :
  entry_ok h objs o = true ->
  h !! x = Some b -> o <> Addr x -> (forall t, b <> BChars t) ->
  heap_after_release h o !! x = Some b.
Proof.
  intros Hok Hx Hne Hnc. destruct o as [|a]; [ exact Hx | ].
  apply entry_ok_Addr in Hok as (b0 & hdr & Hb & Hh & Hd).
  assert (Hxa : x <> a) by congruence.
  unfold heap_after_release. rewrite Hb, Hh. cbv zeta.
  set (b' := with_header _ b0).
  assert (Hkeep : <[a := b']> h !! x = Some b) by (now rewrite lookup_insert_ne by congruence).
  destruct (wrap_int (ref_count hdr - 1) <=? 0); [ | exact Hkeep ].
  destruct (dealloc hdr) as [f|] eqn:Hf; [ | exact Hkeep ].
  destruct (Hd f eq_refl) as [_ Hfit].
  unfold heap_after_dealloc. rewrite lookup_insert_eq.
  destruct f as [|id]; [ | now rewrite lookup_delete_ne by congruence ].
  destruct b0 as [|t| | |]; try discriminate. subst b'. simpl in *.
  destruct (str t) as [|c]; [ now rewrite lookup_delete_ne by congruence | ].
  destruct (h !! c) as [[| | | |tx]|] eqn:Hc; try discriminate.
  assert (x <> c) by (intros ->; rewrite Hc in Hx; inversion Hx; subst; now apply (Hnc tx)).
  now rewrite !lookup_delete_ne by congruence.
Qed.

(** A release allocates nothing. *)
Lemma heap_after_release_None h o x :
  h !! x = None -> heap_after_release h o !! x = None.
Proof.
  intros Hx. destruct o as [|a]; [ exact Hx | ].
  unfold heap_after_release.
  destruct (h !! a) as [b|] eqn:Hb; [ | exact Hx ].
  destruct (header_of b) as [hdr|]; [ | exact Hx ]. cbv zeta.
  assert (Hxa : x <> a) by congruence.
  set (b' := with_header _ b).
  assert (Hkeep : <[a := b']> h !! x = None) by (now rewrite lookup_insert_ne by congruence).
  assert (Hdel : forall f, heap_after_dealloc (<[a := b']> h) f a !! x = None).
  { intros f. unfold heap_after_dealloc.
    destruct f; destruct (<[a := b']> h !! a) as [[|t| | |]|];
      try (now rewrite lookup_delete_ne by congruence).
    destruct (str t) as [|c]; [ now rewrite lookup_delete_ne by congruence | ].
    rewrite lookup_delete_ne by congruence.
    destruct (decide (x = c)) as [-> | Hc]; [ apply lookup_delete_eq | ].
    now rewrite lookup_delete_ne by congruence. }
  destruct (wrap_int (ref_count hdr - 1) <=? 0); [ | exact Hkeep ].
  destruct (dealloc hdr); [ apply Hdel | exact Hkeep ].
Qed.

Lemma foldl_release_None objs : forall h x,
  h !! x = None -> foldl heap_after_release h objs !! x = None.
Proof.
  induction objs as [|o rest IH]; intros h x Hx; [ exact Hx | ].
  simpl. apply IH. now apply heap_after_release_None.
Qed.

(** A block added at a free address does not change what a release does. *)
Lemma heap_after_release_insert h objs o x blk :
  h !! x = None -> entry_ok h objs o = true ->
  heap_after_release (<[x := blk]> h) o = <[x := blk]> (heap_after_release h o) /\
  release_events (<[x := blk]> h) o = release_events h o.
Proof.
  intros Hx Hok. destruct o as [|a]; [ split; reflexivity | ].
  apply entry_ok_Addr in Hok as (b & hdr & Hb & Hh & Hd).
  assert (Hax : x <> a) by congruence.
  unfold heap_after_release, release_events.
  rewrite lookup_insert_ne by congruence. rewrite Hb, Hh. cbv zeta.
  set (b' := with_header _ b).
  assert (Hkeep : <[a := b']> (<[x := blk]> h) = <[x := blk]> (<[a := b']> h))
    by (apply insert_insert_ne; congruence).
  split; [ | reflexivity ].
  destruct (wrap_int (ref_count hdr - 1) <=? 0); [ | exact Hkeep ].
  destruct (dealloc hdr) as [f|] eqn:Hf; [ | exact Hkeep ].
  destruct (Hd f eq_refl) as [_ Hfit].
  unfold heap_after_dealloc. rewrite !lookup_insert_eq.
  destruct f as [|id].
  - destruct b as [|t| | |]; try discriminate. subst b'. simpl in *.
    destruct (str t) as [|c]; [ heap_eq | ].
    destruct (h !! c) as [[| | | |tx]|] eqn:Hc; try discriminate.
    assert (x <> c) by congruence. heap_eq.
  - heap_eq.
Qed.

Lemma Releasable_insert h objs x blk :
  h !! x = None -> Releasable h objs -> Releasable (<[x := blk]> h) objs.
Proof.
  intros Hx [Hok Hsep].
  assert (Hlive : forall a, In (Addr a) objs -> a <> x).
  { intros a Hin ->. apply Hok in Hin. apply entry_ok_Addr in Hin as (b & _ & Hb & _).
    congruence. }
  assert (Hown : forall o, In o objs -> own_buffer (<[x := blk]> h) o = own_buffer h o).
  { intros [|a] Hin; [ reflexivity | ]. unfold own_buffer.
    now rewrite lookup_insert_ne by (apply not_eq_sym, Hlive, Hin). }
  split.
  - intros o Hin. pose proof (Hok o Hin) as H. destruct o as [|a]; [ reflexivity | ].
    pose proof H as H'. apply entry_ok_Addr in H' as (b & hdr & Hb & Hh & Hd).
    unfold entry_ok in *.
    rewrite lookup_insert_ne by (apply not_eq_sym, Hlive, Hin).
    rewrite Hb, Hh in *.
    destruct (dealloc hdr) as [f|]; [ | reflexivity ].
    apply andb_prop in H as [H Hfit]. rewrite H. simpl.
    apply destructor_fits_buffers with h; [ | exact Hfit ].
    intros c t Hc _ _ _ _.
    rewrite lookup_insert_ne by congruence. exact Hc.
  - intros o1 o2 c H1 H2. rewrite (Hown o1 H1), (Hown o2 H2). now apply Hsep.
Qed.

Lemma foldl_release_insert objs : forall h x blk,
  h !! x = None -> Releasable h objs ->
  foldl heap_after_release (<[x := blk]> h) objs = <[x := blk]> (foldl heap_after_release h objs) /\
  release_trace (<[x := blk]> h) objs = release_trace h objs.
Proof.
  induction objs as [|o rest IH]; intros h x blk Hx HR; [ split; reflexivity | ].
  assert (Hok : entry_ok h (o :: rest) o = true) by (apply HR; now left).
  destruct (heap_after_release_insert h (o :: rest) o x blk Hx Hok) as [E1 E2].
  destruct (IH (heap_after_release h o) x blk) as [E3 E4].
  - now apply heap_after_release_None.
  - now apply Releasable_step.
  - cbn [foldl release_trace]. rewrite E1, E2, E3, E4. split; reflexivity.
Qed.

(** The releases of entries that can be released, one after the other. *)
Lemma release_all_Ret objs : forall s,
  Releasable (heap s) objs ->
  release_all objs s =
  Ret tt (mkState (foldl heap_after_release (heap s) objs) (current_autorelease_pool s)
                  (trace s ++ release_trace (heap s) objs) (alloc_budget s)).
Proof.
  induction objs as [|o rest IH]; intros s HR.
  - simpl. rewrite app_nil_r. now destruct s.
  - assert (Hok : entry_ok (heap s) (o :: rest) o = true) by (apply HR; now left).
    cbn [release_all]. rewrite (bind_Ret _ _ _ _ _ (arc_release_Ret _ _ _ Hok)).
    rewrite IH by (cbn [heap]; now apply Releasable_step).
    cbn. now rewrite <- app_assoc.
Qed.

(** The heap in which a pool is current: the pool, its array, and the heap
    without them. *)
Lemma pool_heap_shape (h : gmap positive block) p arr pl cells :
  h !! p = Some (BPool pl) -> h !! arr = Some (BArray cells) ->
  h = <[p := BPool pl]> (<[arr := BArray cells]> (delete p (delete arr h))).
Proof.
  intros Hp Ha. assert (p <> arr) by congruence.
  apply map_eq. intros i.
  destruct (decide (i = p)) as [-> | Hip]; [ now rewrite lookup_insert_eq | ].
  rewrite lookup_insert_ne by congruence.
  destruct (decide (i = arr)) as [-> | Hia]; [ now rewrite lookup_insert_eq | ].
  now rewrite lookup_insert_ne, !lookup_delete_ne by congruence.
Qed.

(** A pop in a pool whose blocks lie outside a heap [h0] whose entries can
    be released: the result is the releases performed in [h0]. *)
Lemma autorelease_pool_pop_outside s p objs pl arr cells h0 :
  current_autorelease_pool s = Addr p ->
  pool_rep (heap s) p objs pl arr cells ->
  delete p (delete arr (heap s)) = h0 ->
  h0 !! p = None -> h0 !! arr = None ->
  Releasable h0 objs ->
  autorelease_pool_pop s =
  Ret tt (mkState (foldl heap_after_release h0 objs) NULL
                  (trace s ++ release_trace h0 objs) (alloc_budget s)).
Proof.
  intros Hcur R Hdel Hp0 Ha0 HR.
  pose proof R as [Hp Ho Ha Hc Ht Hsize].
  assert (Hne : p <> arr) by congruence.
  pose proof (pool_heap_shape _ _ _ _ _ Hp Ha) as Hshape. rewrite Hdel in Hshape.
  assert (Ha1 : <[arr := BArray cells]> h0 !! p = None)
    by (now rewrite lookup_insert_ne by congruence).
  assert (HR1 : Releasable (<[arr := BArray cells]> h0) objs)
    by (now apply Releasable_insert).
  assert (HR2 : Releasable (heap s) objs)
    by (rewrite Hshape; now apply Releasable_insert).
  rewrite (autorelease_pool_pop_Ret s p objs pl arr cells Hcur R HR2).
  destruct (foldl_release_insert objs _ p (BPool pl) Ha1 HR1) as [E1 E2].
  destruct (foldl_release_insert objs _ arr (BArray cells) Ha0 HR) as [E3 E4].
  rewrite Hshape at 1 2. rewrite E1, E2, E3, E4.
  pose proof (foldl_release_None objs h0 p Hp0) as Fp.
  pose proof (foldl_release_None objs h0 arr Ha0) as Fa.
  do 2 f_equal.
  rewrite delete_insert_ne, delete_insert_eq by congruence.
  rewrite delete_insert_eq.
  now rewrite (delete_id _ arr), (delete_id _ p).
Qed.

(** The state in which the body of a [TROVE] block that registers [objs]
    ends: a pool that holds [objs], outside the heap before the block. *)
Lemma push_then_register s objs :
  (2 + length objs <= alloc_budget s)%nat ->
  Z.of_nat (length objs) * 2 * sizeof_pointer <= PTRDIFF_MAX ->
  exists p pl arr cells s2,
    (autorelease_pool_push;; autorelease_all objs) s = Ret tt s2 /\
    current_autorelease_pool s2 = Addr p /\
    pool_rep (heap s2) p objs pl arr cells /\
    delete p (delete arr (heap s2)) = heap s /\
    heap s !! p = None /\ heap s !! arr = None /\
    trace s2 = trace s.
Proof.
  intros Hb Hsz.
  destruct (alloc_budget s) as [|[|n]] eqn:E; [ simpl in Hb; lia | simpl in Hb; lia | ].
  destruct (autorelease_pool_push_inv s n E)
    as (p & s1 & Hpush & Hinv & Hp0 & Htr1 & Hb1 & _ & _).
  destruct (autorelease_pool_push_fresh s ltac:(lia))
    as (p' & arr1 & s1' & Hpush' & _ & Harr0 & Hne1 & Hheap1 & Hcur1 & _).
  rewrite Hpush in Hpush'. inversion Hpush'; subst s1'.
  assert (p' = p) by (destruct Hinv as [Hc _]; congruence). subst p'.
  destruct (autorelease_all_returns objs s1 p [] 16 Hinv) as (s2 & Hall & _).
  { rewrite Hb1. simpl in Hb. lia. }
  { simpl length. exact Hsz. }
  destruct (autorelease_all_fresh_pool s1 p objs Hinv s2 Hall) as (Hinv2 & Htr2 & Hframe).
  destruct Hinv2 as (Hcur2 & pl & arr & cells & R & _).
  pose proof R as [Hp Ho Ha Hc Ht Hsize].
  destruct Hframe as (a1 & a2 & H1 & H2 & Heq).
  rewrite (pool_array_lookup _ _ _ _ Hp Ho) in H2. inversion H2; subst a2.
  assert (a1 = arr1).
  { rewrite Hheap1 in H1. unfold pool_array in H1.
    rewrite lookup_insert_eq in H1. cbn in H1. congruence. }
  subst a1.
  assert (Hdel : delete p (delete arr (heap s2)) = heap s).
  { rewrite Heq, Hheap1. heap_eq. }
  exists p, pl, arr, cells, s2.
  split; [ now rewrite (bind_Ret _ _ _ _ _ Hpush) | ].
  split; [ exact Hcur2 | ]. split; [ exact R | ]. split; [ exact Hdel | ].
  split; [ exact Hp0 | ]. split; [ | congruence ].
  assert (p <> arr) by congruence.
  rewrite <- Hdel. rewrite lookup_delete_ne by congruence. apply lookup_delete_eq.
Qed.

(** X12: a [TROVE] block whose body registers the objects [objs] does what
    releasing them one after the other, in registration order, does: both
    return, with the same heap and the same trace, in which the calls of
    [arc_release] are [objs] in order.  The pool of the block is gone and the
    slot is null afterwards. *)
Theorem scoped_block_is_release_all (s : State) (objs : list ptr) :
  releasable (heap s) objs = true ->
  (2 + length objs <= alloc_budget s)%nat ->
  Z.of_nat (length objs) * 2 * sizeof_pointer <= PTRDIFF_MAX ->
  exists s' s'' evs,
    scoped_block objs s = Ret tt s' /\
    release_all objs s = Ret tt s'' /\
    heap s' = heap s'' /\
    trace s' = trace s'' /\
    trace s' = trace s ++ evs /\
    released evs = objs /\
    current_autorelease_pool s' = NULL.
Proof.
  intros HR Hb Hsz. apply releasable_spec in HR.
  destruct (push_then_register s objs Hb Hsz)
    as (p & pl & arr & cells & s2 & Hrun & Hcur & R & Hdel & Hp0 & Ha0 & Htr).
  pose proof (autorelease_pool_pop_outside s2 p objs pl arr cells (heap s)
                Hcur R Hdel Hp0 Ha0 HR) as Hpop.
  apply bind_Ret_inv in Hrun as ([] & s1 & Hpush & Hall).
  eexists _, _, (release_trace (heap s) objs).
  split.
  { unfold scoped_block, TROVE.
    rewrite (bind_Ret _ _ _ _ _ Hpush), (bind_Ret _ _ _ _ _ Hall).
    rewrite (bind_Ret _ _ _ _ _ Hpop). reflexivity. }
  split; [ now apply release_all_Ret | ].
  cbn [heap trace current_autorelease_pool]. rewrite Htr.
  repeat split; try reflexivity. apply released_release_trace.
Qed.

Lemma scoped_block_is_release_all_witness :
  exists s' s'' evs,
    scoped_block [Addr 5; Addr 3; NULL] demo_pool8 = Ret tt s' /\
    release_all [Addr 5; Addr 3; NULL] demo_pool8 = Ret tt s'' /\
    heap s' = heap s'' /\
    trace s' = trace s'' /\
    trace s' = trace demo_pool8 ++ evs /\
    released evs = [Addr 5; Addr 3; NULL] /\
    current_autorelease_pool s' = NULL.
Proof.
  apply (scoped_block_is_release_all demo_pool8 [Addr 5; Addr 3; NULL]).
  - vm_compute. reflexivity.
  - simpl. lia.
  - vm_compute. discriminate.
Defined.

(** ** Objects with another owner *)

(** The releases of [objs] on an object whose count exceeds the number of
    its occurrences in [objs]: it loses that many references and is never
    destroyed. *)
Lemma foldl_release_survivor a d objs : forall h b r,
  Releasable h objs ->
  h !! a = Some b -> header_of b = Some (mkARCObject r d) ->
  Z.of_nat (count_occ ptr_eq_dec objs (Addr a)) < r <= INT_MAX ->
  foldl heap_after_release h objs !! a
  = Some (with_header (mkARCObject (r - Z.of_nat (count_occ ptr_eq_dec objs (Addr a))) d) b) /\
  ~ In a (destroyed (release_trace h objs)).
Proof.
  induction objs as [|o rest IH]; intros h b r HR Hb Hh Hr.
  - simpl. rewrite Z.sub_0_r, (with_header_id _ _ Hh). split; [ exact Hb | intros [] ].
  - assert (Hok : entry_ok h (o :: rest) o = true) by (apply HR; now left).
    pose proof (Releasable_step _ _ _ HR) as HR'.
    cbn [foldl release_trace]. rewrite destroyed_app.
    destruct (decide (o = Addr a)) as [-> | Hne].
    + rewrite count_occ_cons_eq in * by reflexivity.
      assert (Hw : wrap_int (r - 1) = r - 1)
        by (apply wrap_int_id; unfold in_int_range, INT_MIN, INT_MAX in *; lia).
      assert (Hhar : heap_after_release h (Addr a)
                     = <[a := with_header (mkARCObject (r - 1) d) b]> h).
      { unfold heap_after_release. rewrite Hb, Hh. cbn [ref_count dealloc]. rewrite Hw.
        destruct (Z.leb_spec (r - 1) 0); [ lia | reflexivity ]. }
      assert (Hev : release_events h (Addr a) = [EvRelease (Addr a)]).
      { unfold release_events. rewrite Hb, Hh. cbn [ref_count dealloc]. rewrite Hw.
        destruct (Z.leb_spec (r - 1) 0); [ lia | reflexivity ]. }
      rewrite Hhar in *. rewrite Hev.
      destruct (IH _ (with_header (mkARCObject (r - 1) d) b) (r - 1) HR')
        as [E1 E2].
      * apply lookup_insert_eq.
      * now apply header_of_with_header with (mkARCObject r d).
      * lia.
      * rewrite E1, with_header_twice. split; [ | exact E2 ].
        do 3 f_equal. lia.
    + rewrite count_occ_cons_neq in * by assumption.
      assert (Hkeep : heap_after_release h o !! a = Some b).
      { apply heap_after_release_untouched with (o :: rest); try assumption.
        intros t ->. discriminate. }
      destruct (IH _ b r HR' Hkeep Hh Hr) as [E1 E2].
      split; [ exact E1 | ].
      intros Hin. apply in_app_or in Hin as [Hin | Hin]; [ | contradiction ].
      destruct (release_events_chunk h o) as [Hc | (f & a0 & -> & Hc)];
        rewrite Hc in Hin; simpl in Hin; [ contradiction | ].
      destruct Hin as [-> | []]. now apply Hne.
Qed.

(** X13: a pop takes from each object one reference per registration: an
    object that is registered [k] times in the current pool and whose count
    [r] is greater than [k] (it has another owner) is live after the pop,
    with count [r - k] and the same destructor field, and its destructor is
    not called. *)
Theorem autorelease_pool_pop_spares_other_owners (s : State) (p : positive)
        (objs : list ptr) (a : positive) (b : block) (r : Z) (d : option fnptr) :
  current_autorelease_pool s = Addr p ->
  pool_objects (heap s) p = Some objs ->
  releasable (heap s) objs = true ->
  heap s !! a = Some b ->
  header_of b = Some (mkARCObject r d) ->
  Z.of_nat (count_occ ptr_eq_dec objs (Addr a)) < r <= INT_MAX ->
  exists s' evs,
    autorelease_pool_pop s = Ret tt s' /\
    load_header a s'
    = Ret (mkARCObject (r - Z.of_nat (count_occ ptr_eq_dec objs (Addr a))) d) s' /\
    trace s' = trace s ++ evs /\
    ~ In a (destroyed evs).
Proof.
  intros Hcur Hobjs HR Hb Hh Hr.
  apply pool_objects_rep in Hobjs as (pl & arr & cells & R).
  apply releasable_spec in HR.
  pose proof R as [Hp Ho Ha Hc Ht Hsize].
  destruct (foldl_release_survivor a d objs (heap s) b r HR Hb Hh Hr) as [E1 E2].
  eexists _, (release_trace (heap s) objs).
  split; [ exact (autorelease_pool_pop_Ret s p objs pl arr cells Hcur R HR) | ].
  cbn [heap trace]. split; [ | split; [ reflexivity | exact E2 ] ].
  assert (a <> p) by (intros ->; rewrite Hp in Hb; inversion Hb; subst; discriminate).
  assert (a <> arr) by (intros ->; rewrite Ha in Hb; inversion Hb; subst; discriminate).
  eapply load_header_Ret.
  - cbn [heap]. rewrite !lookup_delete_ne by congruence. exact E1.
  - now apply header_of_with_header with (mkARCObject r d).
Qed.

Lemma autorelease_pool_pop_spares_other_owners_witness :
  exists s' evs,
    autorelease_pool_pop full_owner_pool = Ret tt s' /\
    load_header 3 s'
    = Ret (mkARCObject (5 - Z.of_nat (count_occ ptr_eq_dec [Addr 3; NULL; Addr 3] (Addr 3)))
                       (Some TroveString_dealloc_fn)) s' /\
    trace s' = trace full_owner_pool ++ evs /\
    ~ In 3%positive (destroyed evs).
Proof.
  apply (autorelease_pool_pop_spares_other_owners full_owner_pool 1 [Addr 3; NULL; Addr 3] 3
           (BString (mkTroveString (mkARCObject 5 (Some TroveString_dealloc_fn)) (Addr 4)))
           5 (Some TroveString_dealloc_fn)).
  - reflexivity.
  - vm_compute. reflexivity.
  - vm_compute. reflexivity.
  - vm_compute. reflexivity.
  - reflexivity.
  - unfold INT_MAX. simpl. lia.
Defined.

(** ** Temporaries created in a block *)

Lemma pool_inv_push s :
  (2 <= alloc_budget s)%nat ->
  exists p arr s1,
    autorelease_pool_push s = Ret tt s1 /\
    pool_inv s1 p [] 16 /\
    pool_array (heap s1) p = Some arr /\
    delete p (delete arr (heap s1)) = heap s /\
    trace s1 = trace s /\
    alloc_budget s1 = (alloc_budget s - 2)%nat.
Proof.
  intros Hb.
  destruct (autorelease_pool_push_fresh s Hb)
    as (p & arr & s1 & Hpush & Hp0 & Ha0 & Hne & Hheap & Hcur & Hobjs & Hsz & Htr & Hbud).
  destruct (pool_inv_intro s1 p [] Hcur Hobjs Hsz) as [cap Hinv].
  assert (cap = 16).
  { destruct Hinv as (_ & pl & arr' & cells & [Hp _ _ _ _ _] & Hcap & _).
    rewrite Hheap, lookup_insert_eq in Hp. inversion Hp; subst pl. now cbn in Hcap. }
  subst cap.
  exists p, arr, s1. split; [ exact Hpush | ]. split; [ exact Hinv | ].
  split; [ rewrite Hheap; unfold pool_array; now rewrite lookup_insert_eq | ].
  split; [ rewrite Hheap; heap_eq | ]. split; assumption.
Qed.

(** A construction adds two blocks and leaves the current pool as it is. *)
Lemma TroveString_create_pool_inv init s p objs cap a s1 :
  pool_inv s p objs cap ->
  TroveString_create init s = Ret (Addr a) s1 ->
  (forall x b, heap s !! x = Some b -> heap s1 !! x = Some b) ->
  current_autorelease_pool s1 = current_autorelease_pool s ->
  pool_inv s1 p objs cap.
Proof.
  intros (Hcur & pl & arr & cells & [Hp Ho Ha Hc Ht Hsize] & Hrest) _ Hframe Hcur1.
  split; [ congruence | ].
  exists pl, arr, cells. split; [ | exact Hrest ].
  split; auto.
Qed.

(** [String(init)] in a pool in use, seen from the heap [h0] outside the
    pool: the object and its buffer are two new blocks of that heap, and the
    object is the last entry of the pool. *)
Lemma String_macro_in_pool init s p objs cap arr :
  pool_inv s p objs cap ->
  pool_array (heap s) p = Some arr ->
  (2 <= alloc_budget s)%nat ->
  (Z.of_nat (length objs) < cap \/ (3 <= alloc_budget s)%nat) ->
  Z.of_nat (String.length (c_string (default EmptyString init))) < PTRDIFF_MAX ->
  Z.of_nat (length objs) * 2 * sizeof_pointer <= PTRDIFF_MAX ->
  exists a b s' cap' arr',
    String_macro init s = Ret (Addr a) s' /\
    heap s !! a = None /\ heap s !! b = None /\ a <> b /\
    pool_inv s' p (objs ++ [Addr a]) cap' /\
    pool_array (heap s') p = Some arr' /\
    delete p (delete arr' (heap s'))
    = <[a := fresh_string b]>
        (<[b := BChars (c_string (default EmptyString init))]> (delete p (delete arr (heap s)))) /\
    heap s' !! a = Some (fresh_string b) /\
    heap s' !! b = Some (BChars (c_string (default EmptyString init))) /\
    trace s' = trace s /\
    (alloc_budget s <= alloc_budget s' + 3)%nat /\
    cap <= cap'.
Proof.
  intros Hinv Harr Hb Hroom Hlen Hsz.
  destruct (TroveString_create_fresh init s Hb Hlen)
    as (a & b & s1 & Hc & Ha0 & Hb0 & Hab & Hheap1 & _ & Hcur1 & Htr1 & Hbud1).
  assert (Hframe : forall x blk, heap s !! x = Some blk -> heap s1 !! x = Some blk).
  { intros x blk Hx. rewrite Hheap1.
    now rewrite !lookup_insert_ne by congruence. }
  pose proof (TroveString_create_pool_inv _ _ _ _ _ _ _ Hinv Hc Hframe Hcur1) as Hinv1.
  destruct (autorelease_add_outcome s1 p objs cap (Addr a) Hinv1)
    as [(s' & He & Hfull & Hno) | (s' & Hr & Hinv' & Htr & Hsame & _ & Hbud)].
  { exfalso. destruct Hinv1 as (_ & _ & _ & _ & _ & _ & _ & Hpos & _).
    unfold sizeof_pointer in *. destruct Hno as [Hno | Hno]; lia. }
  destruct Hinv as (Hcur & pl & arr0 & cells & [Hp Ho Hal _ _ _] & _).
  rewrite (pool_array_lookup _ _ _ _ Hp Ho) in Harr. inversion Harr; subst arr0.
  destruct Hsame as (a1 & arr' & H1 & H2 & Heq).
  assert (a1 = arr).
  { unfold pool_array in H1. rewrite (Hframe _ _ Hp), Ho in H1. congruence. }
  subst a1.
  assert (Hpa : p <> a) by congruence. assert (Hpb : p <> b) by congruence.
  assert (Hra : arr <> a) by congruence. assert (Hrb : arr <> b) by congruence.
  assert (Hdel : delete p (delete arr' (heap s'))
                 = <[a := fresh_string b]>
                     (<[b := BChars (c_string (default EmptyString init))]>
                        (delete p (delete arr (heap s))))).
  { rewrite Heq, Hheap1. unfold fresh_string. heap_eq. }
  assert (Hlook : forall x blk, x <> p -> x <> arr ->
            heap s1 !! x = Some blk -> heap s' !! x = Some blk).
  { intros x blk Hxp Hxa Hx.
    apply (same_outside_pool_lookup (heap s1) (heap s') p arr arr'); assumption. }
  exists a, b, s'. eexists _, arr'.
  split.
  { unfold String_macro, arc_autorelease.
    rewrite (bind_Ret _ _ _ _ _ Hc), (bind_Ret _ _ _ _ _ Hr). reflexivity. }
  do 3 (split; [ assumption | ]). split; [ exact Hinv' | ].
  split; [ exact H2 | ]. split; [ exact Hdel | ].
  split.
  { apply Hlook; try congruence. rewrite Hheap1. apply lookup_insert_eq. }
  split.
  { apply Hlook; try congruence. rewrite Hheap1.
    rewrite lookup_insert_ne by congruence. apply lookup_insert_eq. }
  split; [ congruence | ]. split; [ lia | ].
  destruct Hinv1 as (_ & _ & _ & _ & _ & _ & _ & Hpos & _).
  destruct (Z.of_nat (length objs) >=? cap); lia.
Qed.

Lemma count_occ_snoc_ne (l : list ptr) (o x : ptr) :
  o <> x -> count_occ ptr_eq_dec (l ++ [o]) x = count_occ ptr_eq_dec l x.
Proof.
  intros H. rewrite count_occ_app, (count_occ_cons_neq ptr_eq_dec [] H). simpl. lia.
Qed.

Lemma count_occ_snoc_eq (l : list ptr) (o : ptr) :
  count_occ ptr_eq_dec (l ++ [o]) o = S (count_occ ptr_eq_dec l o).
Proof.
  rewrite count_occ_app, (count_occ_cons_eq ptr_eq_dec [] (eq_refl o)). simpl. lia.
Qed.

(** A new string added to a heap whose pending releases [objs] can be
    performed: the releases of [objs ++ [Addr a]] can be performed, they end
    with the destruction of the new string, and they leave the heap that the
    releases of [objs] leave. *)
Lemma add_string_releasable h0 objs a b text :
  Releasable h0 objs ->
  h0 !! a = None -> h0 !! b = None -> a <> b ->
  let h1 := <[a := fresh_string b]> (<[b := BChars text]> h0) in
  Releasable h1 (objs ++ [Addr a]) /\
  foldl heap_after_release h1 (objs ++ [Addr a]) = foldl heap_after_release h0 objs /\
  release_trace h1 (objs ++ [Addr a])
  = release_trace h0 objs ++ [EvRelease (Addr a); EvDealloc TroveString_dealloc_fn a].
Proof.
  intros HR Ha Hb Hab h1.
  assert (Hb1 : <[b := BChars text]> h0 !! a = None)
    by (now rewrite lookup_insert_ne by congruence).
  assert (HRb : Releasable (<[b := BChars text]> h0) objs) by (now apply Releasable_insert).
  assert (HR1 : Releasable h1 objs) by (now apply Releasable_insert).
  destruct (foldl_release_insert objs _ a (fresh_string b) Hb1 HRb) as [E1 E2].
  destruct (foldl_release_insert objs _ b (BChars text) Hb HR) as [E3 E4].
  set (F := foldl heap_after_release h0 objs) in *.
  assert (Fa : F !! a = None) by (now apply foldl_release_None).
  assert (Fb : F !! b = None) by (now apply foldl_release_None).
  assert (Hha : h1 !! a = Some (fresh_string b)) by apply lookup_insert_eq.
  assert (Hhb : h1 !! b = Some (BChars text)).
  { subst h1. rewrite lookup_insert_ne by congruence. apply lookup_insert_eq. }
  split; [ | split ].
  - destruct HR1 as [Hok Hsep]. destruct HR as [Hok0 _].
    assert (Hnew : forall x, In x objs -> x <> Addr a).
    { intros x Hx ->. apply Hok0 in Hx. apply entry_ok_Addr in Hx as (? & _ & Hl & _).
      congruence. }
    split.
    + intros x Hx. apply in_app_or in Hx as [Hx | [<- | []]].
      * pose proof (Hok x Hx) as H. destruct x as [|x]; [ reflexivity | ].
        unfold entry_ok in *.
        now rewrite count_occ_snoc_ne by (apply not_eq_sym, Hnew, Hx).
      * unfold entry_ok. rewrite Hha. cbn [header_of fresh_string base dealloc ref_count].
        rewrite count_occ_snoc_eq.
        rewrite (proj1 (count_occ_not_In ptr_eq_dec objs (Addr a)))
          by (intros Hin; now apply (Hnew _ Hin)).
        unfold destructor_fits, fresh_string. cbn [str]. rewrite Hhb. reflexivity.
    + assert (Hbuf : forall x c, In x objs -> own_buffer h1 x = Some c -> c <> b).
      { intros [|x] c Hx Hown; [ discriminate | ].
        pose proof (Hok0 (Addr x) Hx) as H.
        apply entry_ok_Addr in H as (blk & hdr & Hl & Hh & Hd).
        assert (Hl1 : h1 !! x = Some blk).
        { subst h1. now rewrite !lookup_insert_ne by congruence. }
        destruct (own_buffer_block _ _ _ _ Hl1 Hown) as (t & -> & Hdt & Hst).
        simpl in Hh. inversion Hh; subst hdr.
        destruct (Hd _ Hdt) as [_ Hfit]. simpl in Hfit. rewrite Hst in Hfit.
        intros ->. rewrite Hb in Hfit. discriminate. }
      assert (Hself : own_buffer h1 (Addr a) = Some b).
      { unfold own_buffer. rewrite Hha. reflexivity. }
      intros o1 o2 c H1 H2 Hc1 Hc2.
      apply in_app_or in H1 as [H1 | [<- | []]];
        apply in_app_or in H2 as [H2 | [<- | []]].
      * now apply (Hsep o1 o2 c).
      * exfalso. rewrite Hself in Hc2. inversion Hc2; subst c. now apply (Hbuf o1 b H1).
      * exfalso. rewrite Hself in Hc1. inversion Hc1; subst c. now apply (Hbuf o2 b H2).
      * reflexivity.
  - rewrite foldl_app. cbn [foldl]. subst h1. rewrite E1, E3.
    unfold heap_after_release. rewrite lookup_insert_eq.
    cbn [header_of fresh_string base ref_count dealloc with_header str].
    change (wrap_int (1 - 1) <=? 0) with true. cbv iota zeta.
    unfold heap_after_dealloc. rewrite lookup_insert_eq. cbn [str]. heap_eq.
  - rewrite release_trace_app. cbn [release_trace]. subst h1. rewrite E1, E2, E3, E4.
    rewrite app_nil_r. f_equal.
    unfold release_events. rewrite lookup_insert_eq. reflexivity.
Qed.

(** The strings of [String_all], created in a pool in use. *)
Lemma String_all_in_pool texts : forall s p objs cap arr,
  pool_inv s p objs cap ->
  pool_array (heap s) p = Some arr ->
  Releasable (delete p (delete arr (heap s))) objs ->
  (3 * length texts <= alloc_budget s)%nat ->
  Forall (fun text => Z.of_nat (String.length (c_string (default EmptyString text)))
                      < PTRDIFF_MAX) texts ->
  Z.of_nat (length objs + length texts) * 2 * sizeof_pointer <= PTRDIFF_MAX ->
  exists news s' cap' arr',
    String_all texts s = Ret news s' /\
    length news = length texts /\
    Forall (fun o => o <> NULL) news /\
    pool_inv s' p (objs ++ news) cap' /\
    pool_array (heap s') p = Some arr' /\
    Releasable (delete p (delete arr' (heap s'))) (objs ++ news) /\
    foldl heap_after_release (delete p (delete arr' (heap s'))) (objs ++ news)
    = foldl heap_after_release (delete p (delete arr (heap s))) objs /\
    release_trace (delete p (delete arr' (heap s'))) (objs ++ news)
    = release_trace (delete p (delete arr (heap s))) objs ++ destruction_events news /\
    trace s' = trace s.
Proof.
  induction texts as [|text rest IH]; intros s p objs cap arr Hinv Harr HR Hb Hlen Hsz.
  - exists [], s, cap, arr. cbn [destruction_events flat_map String_all length].
    rewrite !app_nil_r.
    split; [ reflexivity | ]. split; [ reflexivity | ]. split; [ constructor | ].
    split; [ exact Hinv | ]. split; [ exact Harr | ]. split; [ exact HR | ].
    split; [ reflexivity | ]. split; reflexivity.
  - simpl in Hb. inversion Hlen as [|? ? Hl1 Hl2]; subst.
    rewrite length_cons in Hsz.
    destruct (String_macro_in_pool text s p objs cap arr Hinv Harr)
      as (a & b & s1 & cap1 & arr1 & Hm & Ha0 & Hb0 & Hab & Hinv1 & Harr1 & Hdel1
          & _ & _ & Htr1 & Hbud1 & _); try assumption; try lia.
    { unfold sizeof_pointer in *. lia. }
    set (h0 := delete p (delete arr (heap s))) in *.
    assert (Ha0' : h0 !! a = None).
    { subst h0. destruct (decide (a = p)) as [-> | ?]; [ apply lookup_delete_eq | ].
      rewrite lookup_delete_ne by congruence.
      destruct (decide (a = arr)) as [-> | ?]; [ apply lookup_delete_eq | ].
      now rewrite lookup_delete_ne by congruence. }
    assert (Hb0' : h0 !! b = None).
    { subst h0. destruct (decide (b = p)) as [-> | ?]; [ apply lookup_delete_eq | ].
      rewrite lookup_delete_ne by congruence.
      destruct (decide (b = arr)) as [-> | ?]; [ apply lookup_delete_eq | ].
      now rewrite lookup_delete_ne by congruence. }
    destruct (add_string_releasable h0 objs a b (c_string (default EmptyString text))
                HR Ha0' Hb0' Hab) as (HR1 & Hf1 & Ht1).
    rewrite <- Hdel1 in HR1, Hf1, Ht1.
    destruct (IH s1 p (objs ++ [Addr a]) cap1 arr1 Hinv1 Harr1 HR1)
      as (news & s' & cap' & arr' & Hall & Hn & Hnn & Hinv' & Harr' & HR' & Hf' & Ht' & Htr');
      try assumption; try lia.
    { rewrite length_app. simpl. unfold sizeof_pointer in *. lia. }
    exists (Addr a :: news), s', cap', arr'.
    replace (objs ++ Addr a :: news) with ((objs ++ [Addr a]) ++ news)
      by (now rewrite <- app_assoc).
    split.
    { cbn [String_all]. rewrite (bind_Ret _ _ _ _ _ Hm), (bind_Ret _ _ _ _ _ Hall).
      reflexivity. }
    split; [ simpl; lia | ].
    split; [ constructor; [ discriminate | exact Hnn ] | ].
    split; [ exact Hinv' | ]. split; [ exact Harr' | ]. split; [ exact HR' | ].
    split; [ congruence | ].
    split; [ | congruence ].
    rewrite Ht', Ht1. cbn [destruction_events flat_map]. now rewrite <- app_assoc.
Qed.

Lemma Releasable_nil h : Releasable h [].
Proof. split; [ intros x [] | intros o1 o2 c [] ]. Qed.

(** A pop, seen from the heap outside the pool. *)
Lemma autorelease_pool_pop_inv s p objs cap arr :
  pool_inv s p objs cap ->
  pool_array (heap s) p = Some arr ->
  Releasable (delete p (delete arr (heap s))) objs ->
  autorelease_pool_pop s =
  Ret tt (mkState (foldl heap_after_release (delete p (delete arr (heap s))) objs) NULL
                  (trace s ++ release_trace (delete p (delete arr (heap s))) objs)
                  (alloc_budget s)).
Proof.
  intros (Hcur & pl & arr0 & cells & R & _) Harr HR.
  pose proof R as [Hp Ho Ha _ _ _].
  rewrite (pool_array_lookup _ _ _ _ Hp Ho) in Harr. inversion Harr; subst arr0.
  assert (p <> arr) by congruence.
  apply (autorelease_pool_pop_outside s p objs pl arr cells); auto.
  - apply lookup_delete_eq.
  - rewrite lookup_delete_ne by congruence. apply lookup_delete_eq.
Qed.

(** X14: a [TROVE] block whose body creates strings with [String], one for
    each text of [texts], returns the strings and leaves nothing behind: at
    its end the heap is the one before the block (the pool, its array, every
    string and every text buffer have been freed), the slot is null, and the
    trace has gained, for each string in creation order, its release
    followed by its destruction by [TroveString_dealloc]. *)
Theorem TROVE_strings_are_temporaries (texts : list (option string)) (s : State) :
  (2 + 3 * length texts <= alloc_budget s)%nat ->
  Forall text_fits texts ->
  Z.of_nat (length texts) * 2 * sizeof_pointer <= PTRDIFF_MAX ->
  exists news s',
    TROVE (String_all texts) s = Ret news s' /\
    length news = length texts /\
    Forall (fun o => o <> NULL) news /\
    heap s' = heap s /\
    current_autorelease_pool s' = NULL /\
    trace s' = trace s ++ destruction_events news.
Proof.
  intros Hb Hlen Hsz.
  destruct (pool_inv_push s ltac:(lia))
    as (p & arr & s1 & Hpush & Hinv1 & Harr1 & Hdel1 & Htr1 & Hbud1).
  destruct (String_all_in_pool texts s1 p [] 16 arr Hinv1 Harr1)
    as (news & s2 & cap2 & arr2 & Hall & Hn & Hnn & Hinv2 & Harr2 & HR2 & Hf2 & Ht2 & Htr2).
  { apply Releasable_nil. }
  { lia. }
  { exact Hlen. }
  { simpl length. exact Hsz. }
  simpl app in *.
  pose proof (autorelease_pool_pop_inv s2 p news cap2 arr2 Hinv2 Harr2 HR2) as Hpop.
  exists news. eexists. split.
  { unfold TROVE.
    rewrite (bind_Ret _ _ _ _ _ Hpush), (bind_Ret _ _ _ _ _ Hall), (bind_Ret _ _ _ _ _ Hpop).
    reflexivity. }
  cbn [heap trace current_autorelease_pool].
  rewrite Hf2, Ht2, Hdel1, Htr2, Htr1. simpl.
  repeat split; auto.
Qed.

Lemma TROVE_strings_are_temporaries_witness :
  exists news s',
    TROVE (String_all [Some "ab"; None]) (empty_state 8) = Ret news s' /\
    length news = length [Some "ab"; None] /\
    Forall (fun o => o <> NULL) news /\
    heap s' = heap (empty_state 8) /\
    current_autorelease_pool s' = NULL /\
    trace s' = trace (empty_state 8) ++ destruction_events news.
Proof.
  apply (TROVE_strings_are_temporaries [Some "ab"; None] (empty_state 8)).
  - simpl. lia.
  - repeat constructor.
  - vm_compute. discriminate.
Defined.

(** ** The example program *)

(** X15: [main], when the allocator grants its four requests (the pool, its
    array, the string, the copy of the text), writes the greeting and a
    newline to [stdout] and returns 0; at the return the heap is the one at
    entry, the slot is null, and the string has been released once and
    destroyed by [TroveString_dealloc]. *)
Theorem main_prints_and_cleans_up (s : State) :
  (4 <= alloc_budget s)%nat ->
  exists a s',
    main s = Ret ((greeting_text ++ newline)%string, 0) s' /\
    heap s !! a = None /\
    heap s' = heap s /\
    current_autorelease_pool s' = NULL /\
    trace s' = trace s ++ [EvRelease (Addr a); EvDealloc TroveString_dealloc_fn a].
Proof.
  intros Hb.
  destruct (pool_inv_push s ltac:(lia))
    as (p & arr & s1 & Hpush & Hinv1 & Harr1 & Hdel1 & Htr1 & Hbud1).
  destruct (String_macro_in_pool (Some greeting_text) s1 p [] 16 arr Hinv1 Harr1)
    as (a & b & s2 & cap2 & arr2 & Hm & Ha0 & Hb0 & Hab & Hinv2 & Harr2 & Hdel2
        & Hla & Hlb & Htr2 & _).
  { lia. }
  { left. simpl. lia. }
  { vm_compute. reflexivity. }
  { vm_compute. discriminate. }
  simpl app in *. rewrite Hdel1 in Hdel2.
  assert (Ha0' : heap s !! a = None).
  { rewrite <- Hdel1. destruct (decide (a = p)) as [-> | ?]; [ apply lookup_delete_eq | ].
    rewrite lookup_delete_ne by congruence.
    destruct (decide (a = arr)) as [-> | ?]; [ apply lookup_delete_eq | ].
    now rewrite lookup_delete_ne by congruence. }
  assert (Hb0' : heap s !! b = None).
  { rewrite <- Hdel1. destruct (decide (b = p)) as [-> | ?]; [ apply lookup_delete_eq | ].
    rewrite lookup_delete_ne by congruence.
    destruct (decide (b = arr)) as [-> | ?]; [ apply lookup_delete_eq | ].
    now rewrite lookup_delete_ne by congruence. }
  destruct (add_string_releasable (heap s) [] a b
              (c_string (default EmptyString (Some greeting_text)))
              (Releasable_nil _) Ha0' Hb0' Hab) as (HR & Hf & Ht).
  simpl app in *. rewrite <- Hdel2 in HR, Hf, Ht.
  pose proof (autorelease_pool_pop_inv s2 p [Addr a] cap2 arr2 Hinv2 Harr2 HR) as Hpop.
  assert (Hbody : (greeting ← String_macro (Some greeting_text);
                   str_obj ← load_string greeting;
                   printf_line (str str_obj)) s1
                  = Ret (greeting_text ++ newline)%string s2).
  { rewrite (bind_Ret _ _ _ _ _ Hm).
    rewrite (bind_Ret _ _ _ _ _ (load_string_Ret _ _ _ Hla)).
    unfold fresh_string. cbn [str]. unfold printf_line.
    rewrite (bind_Ret _ _ _ _ _ (deref_Ret _ _ _ Hlb)). reflexivity. }
  exists a. eexists. split.
  { unfold main. erewrite bind_Ret; [ reflexivity | ].
    unfold TROVE.
    rewrite (bind_Ret _ _ _ _ _ Hpush), (bind_Ret _ _ _ _ _ Hbody), (bind_Ret _ _ _ _ _ Hpop).
    reflexivity. }
  cbn [heap trace current_autorelease_pool].
  rewrite Hf, Ht, Htr2, Htr1. simpl.
  repeat split; auto.
Qed.

Lemma main_prints_and_cleans_up_witness :
  exists a s',
    main (empty_state 4) = Ret ((greeting_text ++ newline)%string, 0) s' /\
    heap (empty_state 4) !! a = None /\
    heap s' = heap (empty_state 4) /\
    current_autorelease_pool s' = NULL /\
    trace s' = trace (empty_state 4)
               ++ [EvRelease (Addr a); EvDealloc TroveString_dealloc_fn a].
Proof. apply (main_prints_and_cleans_up (empty_state 4)). simpl. lia. Defined.

(** X16: [main], when the allocator refuses one of its four requests, does
    not return: the process exits with status 1 after one line on [stderr],
    and nothing has been released.  When the refusal comes in the push, the
    heap at the exit is the one at entry; when it comes in the construction
    of the string, the pool of the block is still installed, and empty: the
    pop of the block is not run. *)
Theorem main_allocation_failure (s : State) :
  (alloc_budget s < 4)%nat ->
  exists s' msg,
    main s = Exit 1 s' /\
    trace s' = trace s ++ [EvStderr msg] /\
    ((alloc_budget s < 2)%nat ->
     heap s' = heap s /\ current_autorelease_pool s' = current_autorelease_pool s) /\
    ((2 <= alloc_budget s)%nat ->
     exists p, current_autorelease_pool s' = Addr p /\ heap s !! p = None /\
               pool_objects (heap s') p = Some []).
Proof.
  intros Hb. destruct (le_lt_dec 2 (alloc_budget s)) as [H2 | H2].
  - destruct (autorelease_pool_push_fresh s H2)
      as (p & arr & s1 & Hpush & Hp0 & _ & _ & _ & Hcur & Hobjs & _ & Htr & Hbud).
    pose proof (TroveString_create_Exit_state (Some greeting_text) s1 ltac:(lia)) as Hc.
    eexists _, _. split.
    { unfold main. apply bind_Exit. unfold TROVE.
      rewrite (bind_Ret _ _ _ _ _ Hpush).
      apply bind_Exit. apply bind_Exit. unfold String_macro. apply bind_Exit. exact Hc. }
    cbn [heap trace current_autorelease_pool]. rewrite Htr.
    split; [ reflexivity | ]. split; [ lia | ].
    intros _. exists p. auto.
  - pose proof (autorelease_pool_push_Exit_state s H2) as Hpush.
    eexists _, _. split.
    { unfold main. apply bind_Exit. unfold TROVE. apply bind_Exit. exact Hpush. }
    cbn [heap trace current_autorelease_pool].
    split; [ reflexivity | ]. split; [ auto | lia ].
Qed.

Lemma main_allocation_failure_witness :
  exists s' msg,
    main (empty_state 3) = Exit 1 s' /\
    trace s' = trace (empty_state 3) ++ [EvStderr msg] /\
    ((alloc_budget (empty_state 3) < 2)%nat ->
     heap s' = heap (empty_state 3) /\
     current_autorelease_pool s' = current_autorelease_pool (empty_state 3)) /\
    ((2 <= alloc_budget (empty_state 3))%nat ->
     exists p, current_autorelease_pool s' = Addr p /\ heap (empty_state 3) !! p = None /\
               pool_objects (heap s') p = Some []).
Proof. apply (main_allocation_failure (empty_state 3)). simpl. lia. Defined.

(** ** [String] with and without a pool *)

Lemma autorelease_add_no_pool obj s :
  current_autorelease_pool s = NULL ->
  autorelease_add obj s = Ret tt (add_event (EvStderr no_pool_message) s).
Proof.
  intros Hn. unfold autorelease_add.
  rewrite (bind_Ret _ _ _ _ _ (get_state_Ret s)). now rewrite Hn.
Qed.

(** X17: [String(init)] with no current pool returns a new string that
    nothing will release: the object (count 1) and its text buffer are
    added to the heap, one diagnostic line goes to [stderr], and a pop that
    follows does nothing, so both blocks stay allocated. *)
Theorem String_macro_without_pool_leaks (init : option string) (s : State) :
  current_autorelease_pool s = NULL ->
  (2 <= alloc_budget s)%nat ->
  text_fits init ->
  exists a b s',
    String_macro init s = Ret (Addr a) s' /\
    heap s !! a = None /\ heap s !! b = None /\ a <> b /\
    heap s' = <[a := fresh_string b]>
                (<[b := BChars (c_string (default EmptyString init))]> (heap s)) /\
    trace s' = trace s ++ [EvStderr no_pool_message] /\
    autorelease_pool_pop s' = Ret tt s'.
Proof.
  intros Hn Hb Hlen.
  destruct (TroveString_create_fresh init s Hb Hlen)
    as (a & b & s1 & Hc & Ha0 & Hb0 & Hab & Hheap1 & _ & Hcur1 & Htr1 & _).
  assert (Hn1 : current_autorelease_pool s1 = NULL) by congruence.
  exists a, b, (add_event (EvStderr no_pool_message) s1).
  split.
  { unfold String_macro, arc_autorelease.
    rewrite (bind_Ret _ _ _ _ _ Hc), (bind_Ret _ _ _ _ _ (autorelease_add_no_pool _ _ Hn1)).
    reflexivity. }
  do 3 (split; [ assumption | ]).
  cbn [heap trace add_event]. split; [ exact Hheap1 | ]. split; [ now rewrite Htr1 | ].
  apply autorelease_pool_pop_NULL. exact Hn1.
Qed.

Lemma String_macro_without_pool_leaks_witness :
  exists a b s',
    String_macro (Some "abc") (empty_state 2) = Ret (Addr a) s' /\
    heap (empty_state 2) !! a = None /\ heap (empty_state 2) !! b = None /\ a <> b /\
    heap s' = <[a := fresh_string b]>
                (<[b := BChars (c_string (default EmptyString (Some "abc")))]>
                   (heap (empty_state 2))) /\
    trace s' = trace (empty_state 2) ++ [EvStderr no_pool_message] /\
    autorelease_pool_pop s' = Ret tt s'.
Proof.
  apply (String_macro_without_pool_leaks (Some "abc") (empty_state 2)).
  - reflexivity.
  - simpl. lia.
  - vm_compute. reflexivity.
Defined.

(** X18: [String(init)] in a pool that holds [objs] returns a new string
    whose single reference is the pool's: its count is 1 (the registration
    does not retain), its destructor is [TroveString_dealloc], and the pool
    holds [objs] followed by the string.  Nothing is written to the trace. *)
Theorem String_macro_registers_new_string (init : option string) (s : State)
        (p : positive) (objs : list ptr) :
  current_autorelease_pool s = Addr p ->
  pool_objects (heap s) p = Some objs ->
  pool_sized (heap s) p = true ->
  (3 <= alloc_budget s)%nat ->
  text_fits init ->
  Z.of_nat (length objs) * 2 * sizeof_pointer <= PTRDIFF_MAX ->
  exists a s',
    String_macro init s = Ret (Addr a) s' /\
    heap s !! a = None /\
    load_header a s' = Ret (mkARCObject 1 (Some TroveString_dealloc_fn)) s' /\
    current_autorelease_pool s' = Addr p /\
    pool_objects (heap s') p = Some (objs ++ [Addr a]) /\
    trace s' = trace s.
Proof.
  intros Hcur Hobjs Hsized Hb Hlen Hsz.
  destruct (pool_inv_intro s p objs Hcur Hobjs Hsized) as [cap Hinv].
  assert (Harr : exists arr, pool_array (heap s) p = Some arr).
  { destruct Hinv as (_ & pl & arr & cells & [Hp Ho _ _ _ _] & _).
    exists arr. now apply pool_array_lookup with pl. }
  destruct Harr as [arr Harr].
  destruct (String_macro_in_pool init s p objs cap arr Hinv Harr)
    as (a & b & s' & cap' & arr' & Hm & Ha0 & _ & _ & Hinv' & _ & _ & Hla & _ & Htr & _);
    try assumption; try lia.
  destruct (pool_inv_elim _ _ _ _ Hinv') as (Hcur' & Hobjs' & _).
  exists a, s'. split; [ exact Hm | ]. split; [ exact Ha0 | ].
  split; [ now apply load_header_Ret with (fresh_string b) | ].
  auto.
Qed.

Lemma String_macro_registers_new_string_witness :
  exists a s',
    String_macro (Some "abc") demo_pool8 = Ret (Addr a) s' /\
    heap demo_pool8 !! a = None /\
    load_header a s' = Ret (mkARCObject 1 (Some TroveString_dealloc_fn)) s' /\
    current_autorelease_pool s' = Addr 1 /\
    pool_objects (heap s') 1 = Some (demo_objs ++ [Addr a]) /\
    trace s' = trace demo_pool8.
Proof.
  apply (String_macro_registers_new_string (Some "abc") demo_pool8 1 demo_objs).
  - reflexivity.
  - vm_compute. reflexivity.
  - vm_compute. reflexivity.
  - simpl. lia.
  - vm_compute. reflexivity.
  - vm_compute. discriminate.
Defined.

(** ** Registrations beyond the count *)

Lemma heap_after_dealloc_gone h f a : heap_after_dealloc h f a !! a = None.
Proof.
  unfold heap_after_dealloc.
  destruct f; [ | apply lookup_delete_eq ].
  destruct (h !! a) as [[|t| | |]|]; try apply lookup_delete_eq.
  destruct (str t); apply lookup_delete_eq.
Qed.

(** The releases of [objs] on an object with a destructor whose count is
    the number of its occurrences in [objs]: the last of them destroys it. *)
Lemma foldl_release_last_owner a f objs : forall h b r,
  Releasable h objs ->
  h !! a = Some b -> header_of b = Some (mkARCObject r (Some f)) ->
  1 <= r -> r = Z.of_nat (count_occ ptr_eq_dec objs (Addr a)) ->
  foldl heap_after_release h objs !! a = None.
Proof.
  induction objs as [|o rest IH]; intros h b r HR Hb Hh Hr Hocc.
  - simpl in Hocc. lia.
  - assert (Hok : entry_ok h (o :: rest) o = true) by (apply HR; now left).
    pose proof (Releasable_step _ _ _ HR) as HR'.
    cbn [foldl].
    destruct (decide (o = Addr a)) as [-> | Hne].
    + rewrite count_occ_cons_eq in Hocc by reflexivity.
      pose proof Hok as Hok'.
      apply entry_ok_Addr in Hok' as (b0 & hdr0 & Hb0 & Hh0 & Hd0).
      rewrite Hb in Hb0. inversion Hb0; subst b0. rewrite Hh in Hh0. inversion Hh0; subst hdr0.
      destruct (Hd0 f eq_refl) as [[_ Hmax] _]. cbn [ref_count] in Hmax.
      assert (Hw : wrap_int (r - 1) = r - 1)
        by (apply wrap_int_id; unfold in_int_range, INT_MIN, INT_MAX in *; lia).
      unfold heap_after_release in *. rewrite Hb, Hh in *. cbn [ref_count dealloc] in *.
      rewrite Hw in *.
      destruct (Z.leb_spec (r - 1) 0) as [Hz | Hz].
      * apply foldl_release_None. apply heap_after_dealloc_gone.
      * apply (IH _ (with_header (mkARCObject (r - 1) (Some f)) b) (r - 1) HR').
        -- apply lookup_insert_eq.
        -- now apply header_of_with_header with (mkARCObject r (Some f)).
        -- lia.
        -- lia.
    + rewrite count_occ_cons_neq in Hocc by assumption.
      apply (IH _ b r HR'); try assumption.
      apply heap_after_release_untouched with (o :: rest); try assumption.
      intros t ->. discriminate.
Qed.

(** The loop of [autorelease_pool_pop] from index [length pre]: after the
    releases of [mid], the next entry is an object that is no longer
    allocated. *)
Lemma pop_loop_dangling p pl arr cells a rest :
  objects pl = Addr arr -> count pl <= SIZE_MAX ->
  forall mid pre s fuel,
    heap s !! p = Some (BPool pl) ->
    heap s !! arr = Some (BArray cells) ->
    take (length (pre ++ mid ++ Addr a :: rest)) cells
    = Some <$> (pre ++ mid ++ Addr a :: rest) ->
    count pl = Z.of_nat (length (pre ++ mid ++ Addr a :: rest)) ->
    Releasable (heap s) mid ->
    foldl heap_after_release (heap s) mid !! a = None ->
    (length mid < fuel)%nat ->
    pop_loop fuel p (Z.of_nat (length pre)) s = Fault.
Proof.
  intros Ho Hsize. induction mid as [|o mid IH]; intros pre s fuel Hp Ha Ht Hc HR Hgone Hfuel.
  - destruct fuel as [|fuel]; [ simpl in Hfuel; lia | ].
    simpl app in *. simpl in Hgone.
    rewrite length_app in Hc. simpl in Hc.
    simpl pop_loop.
    rewrite (bind_Ret _ _ _ _ _ (load_pool_Ret _ _ _ Hp)).
    assert (Hlt : (Z.of_nat (length pre) <? count pl) = true) by (apply Z.ltb_lt; lia).
    rewrite Hlt, Ho.
    assert (Hcell : cells !! Z.to_nat (Z.of_nat (length pre)) = Some (Some (Addr a))).
    { rewrite Nat2Z.id.
      rewrite <- (lookup_take_lt cells (length (pre ++ Addr a :: rest)))
        by (rewrite length_app; simpl; lia).
      rewrite Ht, list_lookup_fmap, list_lookup_middle by reflexivity. reflexivity. }
    rewrite (bind_Ret _ _ _ _ _ (load_cell_Ret _ _ _ _ _ Ha Hcell)).
    apply bind_Fault. now apply arc_release_dangling.
  - destruct fuel as [|fuel]; [ simpl in Hfuel; lia | ].
    simpl in Hfuel, Hgone.
    assert (Hlen : length (pre ++ (o :: mid) ++ Addr a :: rest)
                   = S (length pre + length mid + S (length rest))).
    { rewrite !length_app. simpl. lia. }
    simpl pop_loop.
    rewrite (bind_Ret _ _ _ _ _ (load_pool_Ret _ _ _ Hp)).
    assert (Hlt : (Z.of_nat (length pre) <? count pl) = true) by (apply Z.ltb_lt; lia).
    rewrite Hlt, Ho.
    assert (Hcell : cells !! Z.to_nat (Z.of_nat (length pre)) = Some (Some o)).
    { rewrite Nat2Z.id.
      rewrite <- (lookup_take_lt cells (length (pre ++ (o :: mid) ++ Addr a :: rest)))
        by (rewrite Hlen; lia).
      rewrite Ht, list_lookup_fmap. simpl app.
      rewrite list_lookup_middle by reflexivity. reflexivity. }
    rewrite (bind_Ret _ _ _ _ _ (load_cell_Ret _ _ _ _ _ Ha Hcell)).
    assert (Hok : entry_ok (heap s) (o :: mid) o = true) by (apply HR; now left).
    rewrite (bind_Ret _ _ _ _ _ (arc_release_Ret _ _ _ Hok)).
    rewrite wrap_size_id by lia.
    replace (Z.of_nat (length pre) + 1) with (Z.of_nat (length (pre ++ [o])))
      by (rewrite length_app; simpl; lia).
    assert (Hre : (pre ++ [o]) ++ mid ++ Addr a :: rest = pre ++ (o :: mid) ++ Addr a :: rest)
      by (now rewrite <- app_assoc).
    apply IH; cbn [heap trace current_autorelease_pool alloc_budget].
    + apply heap_after_release_frame with (o :: mid); try assumption; [ reflexivity | discriminate ].
    + apply heap_after_release_frame with (o :: mid); try assumption; [ reflexivity | discriminate ].
    + now rewrite Hre.
    + now rewrite Hre.
    + now apply Releasable_step.
    + exact Hgone.
    + lia.
Qed.

(** A pop that reaches an entry destroyed by the releases before it. *)
Lemma autorelease_pool_pop_dangling (s : State) (p : positive)
      (pre rest : list ptr) (a : positive) (b : block) (r : Z) (f : fnptr) :
  current_autorelease_pool s = Addr p ->
  pool_objects (heap s) p = Some (pre ++ Addr a :: rest) ->
  Releasable (heap s) pre ->
  heap s !! a = Some b ->
  header_of b = Some (mkARCObject r (Some f)) ->
  1 <= r ->
  r = Z.of_nat (count_occ ptr_eq_dec pre (Addr a)) ->
  autorelease_pool_pop s = Fault.
Proof.
  intros Hcur Hobjs HR Hb Hh Hr Hocc.
  apply pool_objects_rep in Hobjs as (pl & arr & cells & R).
  pose proof R as [Hp Ho Ha Hc Ht Hsize].
  pose proof (foldl_release_last_owner a _ pre (heap s) b r HR Hb Hh Hr Hocc) as Hgone.
  unfold autorelease_pool_pop.
  rewrite (bind_Ret _ _ _ _ _ (get_state_Ret s)). rewrite Hcur.
  rewrite (bind_Ret _ _ _ _ _ (load_pool_Ret _ _ _ Hp)).
  apply bind_Fault.
  apply (pop_loop_dangling p pl arr cells a rest Ho Hsize pre [] s); try assumption.
  rewrite Hc, Nat2Z.id, length_app. simpl. lia.
Qed.

(** X19: a pop in a pool in which a string is registered more often than
    its count says is undefined.  When the count [r] of the string is the
    number of its registrations in the entries [pre], the releases of [pre]
    destroy it, and the release of its next registration reads the header
    of the freed object: [arc_autorelease] takes over a reference, it does
    not add one. *)
Theorem autorelease_pool_pop_over_registered_is_undefined (s : State) (p : positive)
        (pre rest : list ptr) (a : positive) (b : block) (r : Z) :
  current_autorelease_pool s = Addr p ->
  pool_objects (heap s) p = Some (pre ++ Addr a :: rest) ->
  releasable (heap s) pre = true ->
  heap s !! a = Some b ->
  header_of b = Some (mkARCObject r (Some TroveString_dealloc_fn)) ->
  1 <= r ->
  r = Z.of_nat (count_occ ptr_eq_dec pre (Addr a)) ->
  autorelease_pool_pop s = Fault.
Proof.
  intros Hcur Hobjs HR Hb Hh Hr Hocc. apply releasable_spec in HR.
  exact (autorelease_pool_pop_dangling s p pre rest a b r _ Hcur Hobjs HR Hb Hh Hr Hocc).
Qed.

Lemma autorelease_pool_pop_over_registered_is_undefined_witness :
  autorelease_pool_pop twice_registered = Fault.
Proof.
  apply (autorelease_pool_pop_over_registered_is_undefined twice_registered 1 [Addr 3] [] 3
           (BString (mkTroveString (mkARCObject 1 (Some TroveString_dealloc_fn)) (Addr 4))) 1).
  - reflexivity.
  - vm_compute. reflexivity.
  - vm_compute. reflexivity.
  - vm_compute. reflexivity.
  - reflexivity.
  - lia.
  - vm_compute. reflexivity.
Defined.

(** X20: registering the result of [String] once more in the same [TROVE]
    block is undefined.  The string has count 1 and is now in the pool
    twice; the pop of the block destroys it at its first entry and reads the
    freed header at the second. *)
Theorem TROVE_String_registered_again_is_undefined (init : option string) (s : State) :
  (4 <= alloc_budget s)%nat ->
  text_fits init ->
  TROVE (obj ← String_macro init; arc_autorelease obj) s = Fault.
Proof.
  intros Hb Hlen.
  destruct (pool_inv_push s ltac:(lia))
    as (p & arr & s1 & Hpush & Hinv1 & Harr1 & Hdel1 & Htr1 & Hbud1).
  destruct (String_macro_in_pool init s1 p [] 16 arr Hinv1 Harr1)
    as (a & b & s2 & cap2 & arr2 & Hm & _ & _ & Hab & Hinv2 & Harr2 & _
        & Hla & Hlb & _ & _ & Hcap2).
  { lia. }
  { left. simpl. lia. }
  { exact Hlen. }
  { vm_compute. discriminate. }
  simpl app in *.
  destruct (autorelease_add_outcome s2 p [Addr a] cap2 (Addr a) Hinv2)
    as [(s3 & _ & Hfull & _) | (s3 & Hr & Hinv3 & _ & Hsame & _ & _)].
  { simpl in Hfull. lia. }
  destruct (pool_inv_elim _ _ _ _ Hinv3) as (Hcur3 & Hobjs3 & _).
  destruct Hinv2 as (_ & pl2 & arr0 & cells2 & [Hp2 Ho2 Ha2 _ _ _] & _).
  rewrite (pool_array_lookup _ _ _ _ Hp2 Ho2) in Harr2. inversion Harr2; subst arr0.
  destruct Hsame as (a1 & arr3 & H1 & H2 & Heq).
  rewrite (pool_array_lookup _ _ _ _ Hp2 Ho2) in H1. inversion H1; subst a1.
  assert (Hla3 : heap s3 !! a = Some (fresh_string b)).
  { apply (same_outside_pool_lookup (heap s2) (heap s3) p arr2 arr3);
      try assumption; try (unfold fresh_string in *; congruence). }
  assert (Hlb3 : heap s3 !! b = Some (BChars (c_string (default EmptyString init)))).
  { apply (same_outside_pool_lookup (heap s2) (heap s3) p arr2 arr3);
      try assumption; try congruence. }
  assert (HR : Releasable (heap s3) [Addr a]).
  { split.
    - intros x [<- | []]. unfold entry_ok. rewrite Hla3. unfold fresh_string.
      cbn [header_of base dealloc ref_count destructor_fits str].
      rewrite Hlb3, count_occ_cons_eq by reflexivity. reflexivity.
    - intros o1 o2 c [<- | []] [<- | []] _ _. reflexivity. }
  assert (Hpop : autorelease_pool_pop s3 = Fault).
  { apply (autorelease_pool_pop_dangling s3 p [Addr a] [] a (fresh_string b) 1
             TroveString_dealloc_fn); try assumption; try reflexivity; try lia.
    now rewrite count_occ_cons_eq by reflexivity. }
  unfold TROVE. rewrite (bind_Ret _ _ _ _ _ Hpush).
  erewrite bind_Ret
    by (rewrite (bind_Ret _ _ _ _ _ Hm); unfold arc_autorelease;
        rewrite (bind_Ret _ _ _ _ _ Hr); reflexivity).
  apply bind_Fault. exact Hpop.
Qed.

Lemma TROVE_String_registered_again_is_undefined_witness :
  TROVE (obj ← String_macro (Some "abc"); arc_autorelease obj) (empty_state 4) = Fault.
Proof.
  apply (TROVE_String_registered_again_is_undefined (Some "abc") (empty_state 4)).
  - simpl. lia.
  - vm_compute. reflexivity.
Defined.

(** ** A string that outlives its block *)

Lemma lookup_delete2_None (h : gmap positive block) p arr x :
  h !! x = None -> delete p (delete arr h) !! x = None.
Proof.
  intros Hx. destruct (decide (x = p)) as [-> | ?]; [ apply lookup_delete_eq | ].
  rewrite lookup_delete_ne by congruence.
  destruct (decide (x = arr)) as [-> | ?]; [ apply lookup_delete_eq | ].
  now rewrite lookup_delete_ne by congruence.
Qed.

(** X21: a string created with [String] in a [TROVE] block and retained
    there outlives the block.  The pop of the block takes the pool's
    reference and leaves the one taken by [RETAIN]: after the block the
    string (count 1) and its text buffer are the only blocks added to the
    heap, and no destructor has run.  A [RELEASE] after the block destroys
    the string and gives the heap before the block. *)
Theorem retained_String_survives_TROVE (init : option string) (s : State) :
  (4 <= alloc_budget s)%nat ->
  text_fits init ->
  exists a b s' s'',
    TROVE (obj ← String_macro init; RETAIN obj;; mret obj) s = Ret (Addr a) s' /\
    heap s !! a = None /\ heap s !! b = None /\ a <> b /\
    heap s' = <[a := fresh_string b]>
                (<[b := BChars (c_string (default EmptyString init))]> (heap s)) /\
    current_autorelease_pool s' = NULL /\
    trace s' = trace s ++ [EvRelease (Addr a)] /\
    RELEASE (Addr a) s' = Ret tt s'' /\
    heap s'' = heap s /\
    trace s'' = trace s' ++ [EvRelease (Addr a); EvDealloc TroveString_dealloc_fn a].
Proof.
  intros Hb Hlen.
  destruct (pool_inv_push s ltac:(lia))
    as (p & arr & s1 & Hpush & Hinv1 & Harr1 & Hdel1 & Htr1 & Hbud1).
  destruct (String_macro_in_pool init s1 p [] 16 arr Hinv1 Harr1)
    as (a & b & s2 & cap2 & arr2 & Hm & Ha0 & Hb0 & Hab & Hinv2 & Harr2 & Hdel2
        & Hla & Hlb & Htr2 & _ & _).
  { lia. }
  { left. simpl. lia. }
  { exact Hlen. }
  { vm_compute. discriminate. }
  simpl app in *. rewrite Hdel1 in Hdel2.
  assert (Ha0' : heap s !! a = None) by (rewrite <- Hdel1; now apply lookup_delete2_None).
  assert (Hb0' : heap s !! b = None) by (rewrite <- Hdel1; now apply lookup_delete2_None).
  destruct Hinv2 as (Hcur2 & pl & arr0 & cells & R & _).
  pose proof R as [Hp Ho Ha Hc Ht Hsize].
  rewrite (pool_array_lookup _ _ _ _ Hp Ho) in Harr2. inversion Harr2; subst arr0.
  assert (Hpa : p <> a) by (unfold fresh_string in *; congruence).
  assert (Hra : arr2 <> a) by (unfold fresh_string in *; congruence).
  assert (Hpr : p <> arr2) by congruence.
  set (text := c_string (default EmptyString init)) in *.
  set (twice := BString (mkTroveString (mkARCObject 2 (Some TroveString_dealloc_fn)) (Addr b))).
  pose proof (arc_retain_Ret a (fresh_string b) (mkARCObject 1 (Some TroveString_dealloc_fn))
                s2 Hla eq_refl) as Hret.
  change (with_header _ (fresh_string b)) with twice in Hret.
  set (s3 := set_heap (<[a := twice]> (heap s2)) s2) in *.
  set (h0 := <[a := twice]> (<[b := BChars text]> (heap s))).
  assert (Hh0 : delete p (delete arr2 (heap s3)) = h0).
  { subst s3 h0. cbn [heap set_heap]. rewrite !delete_insert_ne by congruence.
    rewrite Hdel2. apply insert_insert_eq. }
  assert (R3 : pool_rep (heap s3) p [Addr a] pl arr2 cells).
  { subst s3. cbn [heap set_heap]. split; try assumption;
      now rewrite lookup_insert_ne by congruence. }
  assert (HR : Releasable h0 [Addr a]).
  { split.
    - intros x [<- | []]. unfold entry_ok. subst h0. rewrite lookup_insert_eq. subst twice.
      cbn [header_of base dealloc ref_count destructor_fits str].
      rewrite lookup_insert_ne by congruence.
      rewrite lookup_insert_eq, count_occ_cons_eq by reflexivity. reflexivity.
    - intros o1 o2 c [<- | []] [<- | []] _ _. reflexivity. }
  assert (Hp0 : h0 !! p = None) by (rewrite <- Hh0; apply lookup_delete_eq).
  assert (Hr0 : h0 !! arr2 = None)
    by (rewrite <- Hh0, lookup_delete_ne by congruence; apply lookup_delete_eq).
  pose proof (autorelease_pool_pop_outside s3 p [Addr a] pl arr2 cells h0 Hcur2 R3 Hh0 Hp0 Hr0 HR)
    as Hpop.
  assert (Hf : foldl heap_after_release h0 [Addr a]
               = <[a := fresh_string b]> (<[b := BChars text]> (heap s))).
  { cbn [foldl]. unfold heap_after_release. subst h0. rewrite lookup_insert_eq. subst twice.
    cbn [header_of base dealloc ref_count].
    change (wrap_int (2 - 1) <=? 0) with false. cbv iota zeta.
    apply insert_insert_eq. }
  assert (Hev : release_trace h0 [Addr a] = [EvRelease (Addr a)]).
  { cbn [release_trace]. unfold release_events. subst h0. rewrite lookup_insert_eq. subst twice.
    cbn [header_of base dealloc ref_count].
    change (wrap_int (2 - 1) <=? 0) with false. reflexivity. }
  rewrite Hf, Hev in Hpop.
  exists a, b. eexists _, _.
  split.
  { unfold TROVE. rewrite (bind_Ret _ _ _ _ _ Hpush).
    erewrite bind_Ret
      by (rewrite (bind_Ret _ _ _ _ _ Hm); unfold RETAIN;
          rewrite (bind_Ret _ _ _ _ _ Hret); reflexivity).
    rewrite (bind_Ret _ _ _ _ _ Hpop). reflexivity. }
  do 3 (split; [ assumption | ]).
  cbn [heap trace current_autorelease_pool].
  split; [ reflexivity | ]. split; [ reflexivity | ].
  split; [ subst s3; cbn [trace set_heap]; now rewrite Htr2, Htr1 | ].
  split.
  { unfold RELEASE. apply (release_last a (fresh_string b) TroveString_dealloc_fn).
    - cbn [heap]. apply lookup_insert_eq.
    - reflexivity.
    - cbn [heap]. unfold destructor_fits, fresh_string. cbn [str].
      rewrite lookup_insert_ne by congruence. now rewrite lookup_insert_eq. }
  cbn [heap trace]. split; [ | reflexivity ].
  unfold heap_after_dealloc. rewrite lookup_insert_eq. unfold fresh_string. cbn [str].
  heap_eq.
Qed.

Lemma retained_String_survives_TROVE_witness :
  exists a b s' s'',
    TROVE (obj ← String_macro (Some "abc"); RETAIN obj;; mret obj) (empty_state 4)
    = Ret (Addr a) s' /\
    heap (empty_state 4) !! a = None /\ heap (empty_state 4) !! b = None /\ a <> b /\
    heap s' = <[a := fresh_string b]>
                (<[b := BChars (c_string (default EmptyString (Some "abc")))]>
                   (heap (empty_state 4))) /\
    current_autorelease_pool s' = NULL /\
    trace s' = trace (empty_state 4) ++ [EvRelease (Addr a)] /\
    RELEASE (Addr a) s' = Ret tt s'' /\
    heap s'' = heap (empty_state 4) /\
    trace s'' = trace s' ++ [EvRelease (Addr a); EvDealloc TroveString_dealloc_fn a].
Proof.
  apply (retained_String_survives_TROVE (Some "abc") (empty_state 4)).
  - simpl. lia.
  - vm_compute. reflexivity.
Defined.
